(** * str_view: a read-only string view with lazy length and lazy
      null-terminated copy (src/str_view.hpp)

    The embedding fixes the instantiation [str_view = str_view_template<char>]
    on a 64-bit target: [size_t] and [uintptr_t] are 64-bit, a code unit is
    one byte, so an address counts code units.  Sizes, addresses and code
    units are numbers of type [N]; [size_t] arithmetic is written with its
    wrap-around.  An address the code computes from a pointer and an offset
    is their sum in [N]: the embedding follows the code as long as that sum
    stays inside the flat address space, which holds for every offset within
    a valid view; where an offset is not bounded by the view, the theorem
    says so in a hypothesis.

    The header mixes plain code with [assert]; both builds are modelled: in a
    [Debug] build an assertion is evaluated (and may itself read memory), in
    a [Release] build (NDEBUG) it is not evaluated at all. *)

From Stdlib Require Import NArith Lia.
From stdpp Require Import base option list gmap.

Local Open Scope N_scope.

(** ** Outcomes of running a piece of the header *)

Inductive build := Debug | Release.

Inductive outcome (A : Type) : Type :=
  | Ok (a : A)
  | AssertFail
  | Fault.
Arguments Ok {A} a.
Arguments AssertFail {A}.
Arguments Fault {A}.

#[global] Instance outcome_ret : MRet outcome := fun A a => Ok a.
#[global] Instance outcome_bind : MBind outcome := fun A B f c =>
  match c with
  | Ok a => f a
  | AssertFail => AssertFail
  | Fault => Fault
  end.

(** [assert(e)]: nothing under NDEBUG, otherwise [e] is evaluated. *)
Definition assert_ (b : build) (e : outcome bool) : outcome unit :=
  match b with
  | Release => Ok tt
  | Debug => x ← e; if (x : bool) then Ok tt else AssertFail
  end.

(** ** Machine integers *)

Definition SIZE_MAX : N := 18446744073709551615.
Definition size_modulus : N := 18446744073709551616.

(** [a + b] and [a - b] on [size_t]. *)
Definition size_add (a b : N) : N := (a + b) mod size_modulus.
Definition size_sub (a b : N) : N := (a + size_modulus - b mod size_modulus) mod size_modulus.

(** ** Memory

    [cells] maps the readable addresses to their code units; address 0 is the
    null pointer and reading or writing through it is a fault, like any
    access outside the mapped cells.  [blocks] records the arrays obtained from [new CharT[n]]
    that have not been passed to [delete[]] yet, with their sizes. *)

Record memory := mk_memory {
  cells : gmap N N;
  blocks : gmap N N
}.

(** An address is usable when it is not null and lies in the address space. *)
Definition valid_addr (p : N) : bool := (0 <? p) && (p <? size_modulus).

Definition load (m : memory) (p : N) : outcome N :=
  if valid_addr p then
    match cells m !! p with
    | Some c => Ok c
    | None => Fault
    end
  else Fault.

Definition store (m : memory) (p c : N) : outcome memory :=
  if valid_addr p then
    match cells m !! p with
    | Some _ => Ok (mk_memory (<[p := c]> (cells m)) (blocks m))
    | None => Fault
    end
  else Fault.

Fixpoint read_range (m : memory) (p : N) (n : nat) : outcome (list N) :=
  match n with
  | O => Ok []
  | S k => c ← load m p; cs ← read_range m (p + 1) k; Ok (c :: cs)
  end.

Fixpoint write_range (m : memory) (p : N) (cs : list N) : outcome memory :=
  match cs with
  | [] => Ok m
  | c :: cs' => m' ← store m p c; write_range m' (p + 1) cs'
  end.

(** [strlen]: scan for the first zero code unit.  The scan visits pairwise
    distinct readable addresses, so [S (size (cells m))] steps always
    suffice; running off readable memory is a fault. *)
Fixpoint scan (m : memory) (fuel : nat) (p : N) : outcome N :=
  match fuel with
  | O => Fault
  | S k =>
      c ← load m p;
      if c =? 0 then Ok 0 else n ← scan m k (p + 1); Ok (n + 1)
  end.

Definition tstrlen (m : memory) (sz : N) : outcome N :=
  scan m (S (size (cells m))) sz.

(** [memcpy(dst, src, n)] on non-overlapping ranges. *)
Definition memcpy (m : memory) (dst src n : N) : outcome memory :=
  cs ← read_range m src (N.to_nat n); write_range m dst cs.

(** [memcmp(p, q, n) == 0]. *)
Definition memcmp_eq0 (m : memory) (p q n : N) : outcome bool :=
  xs ← read_range m p (N.to_nat n);
  ys ← read_range m q (N.to_nat n);
  Ok (bool_decide (xs = ys)).

(** Contents of freshly allocated storage are indeterminate; the model fills
    it with a non-zero pattern. *)
Definition indeterminate : N := 205.

Fixpoint map_cells (h : gmap N N) (p : N) (n : nat) (c : N) : gmap N N :=
  match n with
  | O => h
  | S k => <[p := c]> (map_cells h (p + 1) k c)
  end.

Fixpoint unmap_cells (h : gmap N N) (p : N) (n : nat) : gmap N N :=
  match n with
  | O => h
  | S k => delete p (unmap_cells h (p + 1) k)
  end.

(** [new CharT[n]] returning the address [a] picked by the allocator. *)
Definition new_array (m : memory) (a n : N) : memory :=
  mk_memory (map_cells (cells m) a (N.to_nat n) indeterminate)
            (<[a := n]> (blocks m)).

(** [delete[] p]: [p] must be a live array. *)
Definition delete_array (m : memory) (p : N) : outcome memory :=
  match blocks m !! p with
  | Some n => Ok (mk_memory (unmap_cells (cells m) p (N.to_nat n)) (delete p (blocks m)))
  | None => Fault
  end.

(** ** The view object

    [m_Length = SIZE_MAX] means the length is not known yet.
    [m_NullTerminatedPtr] is 0 (the range is not known to be followed by a
    terminator), 1 (the pointed string is null-terminated by itself) or the
    address of an owned null-terminated copy. *)

Record str_view := mk_view {
  m_Length : N;
  m_Begin : N;
  m_NullTerminatedPtr : N
}.

Definition set_Length (n : N) (v : str_view) : str_view :=
  mk_view n (m_Begin v) (m_NullTerminatedPtr v).
Definition set_Begin (p : N) (v : str_view) : str_view :=
  mk_view (m_Length v) p (m_NullTerminatedPtr v).
Definition set_NullTerminatedPtr (t : N) (v : str_view) : str_view :=
  mk_view (m_Length v) (m_Begin v) t.

(** A [std::string] as the header sees it: [data()]/[c_str()] and [length()]. *)
Record StringT := mk_string {
  s_data : N;
  s_length : N
}.

(** *** Constructors *)

(** [str_view_template()] *)
Definition ctor_default : str_view := mk_view 0 0 0.

(** [str_view_template(const CharT* sz)] *)
Definition ctor_sz (sz : N) : str_view :=
  mk_view (if sz =? 0 then 0 else SIZE_MAX) sz (if sz =? 0 then 0 else 1).

(** [str_view_template(const CharT* str, size_t length)] *)
Definition ctor_ptr_len (str len : N) : str_view :=
  mk_view len (if len =? 0 then 0 else str) 0.

(** [str_view_template(const CharT* str, size_t length, StillNullTerminated)] *)
Definition ctor_still (b : build) (m : memory) (str len : N) : outcome str_view :=
  let v := mk_view len 0 0 in
  let v := if len =? 0 then v
           else set_NullTerminatedPtr 1 (set_Begin str v) in
  _ ← assert_ b (c ← load m (m_Begin v + m_Length v); Ok (c =? 0));
  Ok v.

(** [str_view_template(const StringT& str, size_t offset, size_t length)] *)
Definition ctor_string (b : build) (str : StringT) (offset len : N) : outcome str_view :=
  let v := mk_view 0 0 0 in
  _ ← assert_ b (Ok (offset <=? s_length str));
  let v := set_Length (N.min len (size_sub (s_length str) offset)) v in
  Ok (if m_Length v =? 0 then v
      else if m_Length v =? size_sub (s_length str) offset
           then set_NullTerminatedPtr 1 (set_Begin (s_data str + offset) v)
           else set_Begin (s_data str + offset) v).

(** *** [length()] and [empty()]: the result and the view with its cache *)

Definition length (b : build) (m : memory) (v : str_view) : outcome (N * str_view) :=
  let len := m_Length v in
  if len =? SIZE_MAX then
    _ ← assert_ b (Ok (m_NullTerminatedPtr v =? 1));
    len ← tstrlen m (m_Begin v);
    Ok (len, set_Length len v)
  else Ok (len, v).

Definition empty (b : build) (m : memory) (v : str_view) : outcome bool :=
  let len := m_Length v in
  if len =? SIZE_MAX then
    _ ← assert_ b (Ok (m_NullTerminatedPtr v =? 1));
    if m_Begin v =? 0 then Ok true
    else c ← load m (m_Begin v); Ok (c =? 0)
  else Ok (len =? 0).

(** [str_view_template(const str_view_template& src, size_t offset, size_t length)]:
    the new view and the source with its cache. *)
Definition ctor_copy (b : build) (m : memory) (src : str_view) (offset len : N)
  : outcome (str_view * str_view) :=
  let v := mk_view 0 0 0 in
  if (m_Length src =? SIZE_MAX) && (len =? SIZE_MAX) then
    let v := set_Begin (m_Begin src + offset) (set_Length SIZE_MAX v) in
    _ ← assert_ b (Ok (m_NullTerminatedPtr src =? 1));
    Ok (set_NullTerminatedPtr 1 v, src)
  else
    '(srcLen, src) ← length b m src;
    _ ← assert_ b (Ok (offset <=? srcLen));
    let v := set_Length (N.min len (size_sub srcLen offset)) v in
    Ok (if m_Length v =? 0 then v
        else
          let v := set_Begin (m_Begin src + offset) v in
          if (m_NullTerminatedPtr src =? 1) && (m_Length v =? size_sub srcLen offset)
          then set_NullTerminatedPtr 1 v else v,
        src).

(** [str_view_template(str_view_template&& src)]: the new view and what is
    left of the source. *)
Definition ctor_move (src : str_view) : str_view * str_view :=
  let v := mk_view (m_Length src) (m_Begin src) (m_NullTerminatedPtr src) in
  (v, set_Begin 0 (set_NullTerminatedPtr 0 (set_Length 0 src))).

(** [~str_view_template()] *)
Definition dtor (m : memory) (v : str_view) : outcome memory :=
  let t := m_NullTerminatedPtr v in
  if 1 <? t then delete_array m t else Ok m.

(** *** [c_str()] *)

(** [cur.compare_exchange_strong(expected, desired)]: success flag, the new
    value of the atomic and the new value of [expected]. *)
Definition compare_exchange_strong (cur expected desired : N) : bool * N * N :=
  if cur =? expected then (true, desired, expected) else (false, cur, cur).

(** [nullChar] is the address of the function's static terminator, [a] the
    address the allocator returns if [new] is reached.  The result is the
    returned pointer, the memory and the view afterwards. *)
Definition c_str (b : build) (nullChar a : N) (m : memory) (v : str_view)
  : outcome (N * memory * str_view) :=
  e ← empty b m v;
  if (e : bool) then Ok (nullChar, m, v)
  else
    let t := m_NullTerminatedPtr v in
    if t =? 1 then
      match b with
      | Release => Ok (m_Begin v, m, v)
      | Debug =>
          '(len, v) ← length b m v;
          c ← load m (m_Begin v + len);
          if c =? 0 then Ok (m_Begin v, m, v) else AssertFail
      end
    else if t =? 0 then
      _ ← assert_ b (Ok (negb (m_Length v =? SIZE_MAX)));
      let nullTerminatedCopy := a in
      let m := new_array m nullTerminatedCopy (size_add (m_Length v) 1) in
      _ ← assert_ b (Ok (N.land nullTerminatedCopy 1 =? 0));
      m ← memcpy m nullTerminatedCopy (m_Begin v) (m_Length v);
      m ← store m (nullTerminatedCopy + m_Length v) 0;
      let '(ok, cur, expected) :=
        compare_exchange_strong (m_NullTerminatedPtr v) 0 nullTerminatedCopy in
      if (ok : bool) then Ok (nullTerminatedCopy, m, set_NullTerminatedPtr cur v)
      else m ← delete_array m nullTerminatedCopy; Ok (expected, m, v)
    else Ok (t, m, v).

(** *** [substr(offset, len)]: the new view and [*this] with its cache *)
Definition substr (b : build) (m : memory) (this : str_view) (offset len : N)
  : outcome (str_view * str_view) :=
  if (m_Length this =? SIZE_MAX) && (len =? SIZE_MAX) then
    _ ← assert_ b (Ok (m_NullTerminatedPtr this =? 1));
    Ok (ctor_sz (m_Begin this + offset), this)
  else
    '(thisLen, this) ← length b m this;
    _ ← assert_ b (Ok (offset <=? thisLen));
    let len := N.min len (size_sub thisLen offset) in
    if (m_NullTerminatedPtr this =? 1) && (len =? size_sub thisLen offset) then
      r ← ctor_still b m (m_Begin this + offset) len; Ok (r, this)
    else Ok (ctor_ptr_len (m_Begin this + offset) len, this).

(** *** Accessors *)

(** [data()], [begin()] and [front()] return [m_Begin]. *)
Definition data (v : str_view) : N := m_Begin v.
Definition begin (v : str_view) : N := m_Begin v.
Definition front (v : str_view) : N := m_Begin v.

(** [size()] is [length()]. *)
Definition size_ (b : build) (m : memory) (v : str_view) : outcome (N * str_view) :=
  length b m v.

(** [end()]: [m_Begin + length()]. *)
Definition end_ (b : build) (m : memory) (v : str_view) : outcome (N * str_view) :=
  '(len, v) ← length b m v;
  Ok (m_Begin v + len, v).

(** [back()]: [m_Begin + (length() - 1)]. *)
Definition back (b : build) (m : memory) (v : str_view) : outcome (N * str_view) :=
  '(len, v) ← length b m v;
  Ok (m_Begin v + size_sub len 1, v).

(** [operator[](index)] and [at(index)]: both are [m_Begin[index]]. *)
Definition op_index (m : memory) (v : str_view) (index : N) : outcome N :=
  load m (m_Begin v + index).
Definition at_ (m : memory) (v : str_view) (index : N) : outcome N :=
  load m (m_Begin v + index).

(** *** [copy_to(dst, offset, len)]: the number of code units copied, the
    memory and [*this] afterwards *)
Definition copy_to (b : build) (m : memory) (this : str_view) (dst offset len : N)
  : outcome (N * memory * str_view) :=
  '(thisLen, this) ← length b m this;
  _ ← assert_ b (Ok (offset <=? thisLen));
  let len := N.min len (size_sub thisLen offset) in
  m ← memcpy m dst (m_Begin this + offset) len;
  Ok (len, m, this).

(** *** [to_string(dst)]: [dst.assign(begin(), end())]; the code units that
    [dst] holds afterwards, and [*this] with its cache *)
Definition to_string (b : build) (m : memory) (this : str_view)
  : outcome (list N * str_view) :=
  let first := begin this in
  '(last, this) ← end_ b m this;
  cs ← read_range m first (N.to_nat (last - first));
  Ok (cs, this).

(** ** Objects with identity

    Assignment compares the addresses of the two objects and [operator==]
    may be applied to one object twice, so view objects live in a store
    indexed by their identity. *)

Record world := mk_world {
  w_mem : memory;
  w_objs : gmap nat str_view
}.

Definition obj (w : world) (i : nat) : outcome str_view :=
  match w_objs w !! i with
  | Some v => Ok v
  | None => Fault
  end.

Definition set_obj (i : nat) (v : str_view) (w : world) : world :=
  mk_world (w_mem w) (<[i := v]> (w_objs w)).

(** Move construction of a new object [dst] from [src]. *)
Definition construct_move (w : world) (dst src : nat) : outcome world :=
  match w_objs w !! dst with
  | Some _ => Fault
  | None =>
      s ← obj w src;
      let '(v, s') := ctor_move s in
      Ok (set_obj dst v (set_obj src s' w))
  end.

(** Destruction of the object [i]. *)
Definition destroy (w : world) (i : nat) : outcome world :=
  v ← obj w i;
  m ← dtor (w_mem w) v;
  Ok (mk_world m (delete i (w_objs w))).

(** [operator=(const str_view_template& src)] *)
Definition copy_assign (w : world) (this src : nat) : outcome world :=
  if bool_decide (src ≠ this) then
    t ← obj w this;
    s ← obj w src;
    let v := m_NullTerminatedPtr t in
    m ← (if 1 <? v then delete_array (w_mem w) v else Ok (w_mem w));
    let t := set_Begin (m_Begin s) t in
    let t := set_Length (m_Length s) t in
    let t := set_NullTerminatedPtr (if m_NullTerminatedPtr s =? 1 then 1 else 0) t in
    Ok (mk_world m (<[this := t]> (w_objs w)))
  else Ok w.

(** [operator=(str_view_template&& src)] *)
Definition move_assign (w : world) (this src : nat) : outcome world :=
  if bool_decide (src ≠ this) then
    t ← obj w this;
    s ← obj w src;
    let v := m_NullTerminatedPtr t in
    m ← (if 1 <? v then delete_array (w_mem w) v else Ok (w_mem w));
    let t := set_Begin (m_Begin s) t in
    let t := set_Length (m_Length s) t in
    let s := set_Length 0 s in
    let t := set_NullTerminatedPtr (m_NullTerminatedPtr s) t in
    let s := set_NullTerminatedPtr 0 s in
    let s := set_Begin 0 s in
    Ok (mk_world m (<[this := t]> (<[src := s]> (w_objs w))))
  else Ok w.

(** [this->operator==(rhs)]: the answer and the world with the caches of
    both operands. *)
Definition op_eq (b : build) (w : world) (this rhs : nat) : outcome (bool * world) :=
  t ← obj w this;
  '(thisLen, t) ← length b (w_mem w) t;
  let w := set_obj this t w in
  r ← obj w rhs;
  '(rhsLen, r) ← length b (w_mem w) r;
  let w := set_obj rhs r w in
  if negb (thisLen =? rhsLen) then Ok (false, w)
  else if 0 <? thisLen then
    t ← obj w this;
    r ← obj w rhs;
    e ← memcmp_eq0 (w_mem w) (m_Begin t) (m_Begin r) thisLen;
    Ok (e, w)
  else Ok (true, w).


(** [this->operator!=(rhs)]: [!operator==(rhs)]. *)
Definition op_ne (b : build) (w : world) (this rhs : nat) : outcome (bool * world) :=
  '(e, w) ← op_eq b w this rhs;
  Ok (negb e, w).

(** ** What a valid view is

    A view borrows its range from memory it does not own; the predicates
    below say what the constructors' callers promise about that memory. *)

(** [p] points to a null-terminated string of [n] code units. *)
Definition is_cstring (m : memory) (p n : N) : Prop :=
  (∀ i, i < n → ∃ c, load m (p + i) = Ok c ∧ c ≠ 0) ∧ load m (p + n) = Ok 0.

(** The [n] code units from [p] on can be read. *)
Definition readable (m : memory) (p n : N) : Prop :=
  ∀ i, i < n → ∃ c, load m (p + i) = Ok c.

(** The tagged pointer of [v] is a live array holding the range of [v]
    followed by a terminator. *)
Definition owns_copy (m : memory) (v : str_view) : Prop :=
  let q := m_NullTerminatedPtr v in
  blocks m !! q = Some (m_Length v + 1) ∧
  (∀ i, i < m_Length v → ∃ c, load m (q + i) = Ok c ∧ load m (m_Begin v + i) = Ok c) ∧
  load m (q + m_Length v) = Ok 0.

Definition wf_view (m : memory) (v : str_view) : Prop :=
  if decide (m_Length v = SIZE_MAX) then
    m_NullTerminatedPtr v = 1 ∧ ∃ n, is_cstring m (m_Begin v) n
  else
    m_Length v < SIZE_MAX ∧
    readable m (m_Begin v) (m_Length v) ∧
    (m_NullTerminatedPtr v = 1 → load m (m_Begin v + m_Length v) = Ok 0) ∧
    (1 < m_NullTerminatedPtr v → owns_copy m v).

(** The number of code units [v] denotes, whether cached or not. *)
Definition has_length (m : memory) (v : str_view) (n : N) : Prop :=
  if decide (m_Length v = SIZE_MAX) then is_cstring m (m_Begin v) n
  else n = m_Length v.

(** The buffer of the [std::string] [s] is in memory, with the terminator
    that [c_str()] promises. *)
Definition string_in_memory (m : memory) (s : StringT) : Prop :=
  s_length s < SIZE_MAX ∧
  readable m (s_data s) (s_length s) ∧
  load m (s_data s + s_length s) = Ok 0.

(** What [new CharT[n]] guarantees about the address it returns: storage
    that is not in use, inside the address space, suitably aligned. *)
Definition alloc_fresh (m : memory) (a n : N) : Prop :=
  0 < a ∧ a + n ≤ size_modulus ∧ N.land a 1 = 0 ∧
  blocks m !! a = None ∧ ∀ i, i < n → cells m !! (a + i) = None.

(** ** The slicing rule, following the words of the specification

    [srcLen] is the length the source denotes.  A slice of an unresolved
    source with unbounded requested length stays unresolved; otherwise the
    length is clamped to the remaining span, and the slice is
    self-terminated when it is not empty and ends where a self-terminated
    source ends. *)
Definition slice_result (src : str_view) (srcLen offset len : N) : str_view :=
  if (m_Length src =? SIZE_MAX) && (len =? SIZE_MAX) then
    mk_view SIZE_MAX (m_Begin src + offset) 1
  else
    let n := N.min len (srcLen - offset) in
    if n =? 0 then mk_view 0 0 0
    else mk_view n (m_Begin src + offset)
           (if (m_NullTerminatedPtr src =? 1) && (n =? srcLen - offset) then 1 else 0).

(** The source after the slice: its length is resolved unless the slice
    stayed lazy. *)
Definition slice_source (src : str_view) (srcLen len : N) : str_view :=
  if (m_Length src =? SIZE_MAX) && (len =? SIZE_MAX) then src
  else set_Length srcLen src.

(** The requested length of the single [substr] that stands for
    [substr(o1, l1)] followed by [substr(o2, l2)]; [SIZE_MAX] asks for
    everything up to the end. *)
Definition combined_length (l1 o2 l2 : N) : N :=
  if l1 =? SIZE_MAX then l2 else N.min l2 (l1 - o2).

(** Where [substr] in a build with assertions reaches the
    [StillNullTerminated] constructor with length 0: the source is
    self-terminated, the slice is not lazy and starts at the end. *)
Definition substr_asserts_on_null (b : build) (src : str_view) (srcLen offset len : N) : bool :=
  match b with
  | Release => false
  | Debug =>
      negb ((m_Length src =? SIZE_MAX) && (len =? SIZE_MAX))
      && (m_NullTerminatedPtr src =? 1) && (offset =? srcLen)
  end.

(** The two ranges of [n] code units hold the same code units. *)
Definition same_range (m : memory) (p q n : N) : Prop :=
  ∀ k, k < n → load m (p + k) = load m (q + k).

(** ** The views a program can produce

    [produced v]: [v] is the state of a view object after some sequence of
    constructions, assignments and member calls, in any build and against
    any memory.  Arguments of type [size_t] are at most [SIZE_MAX]; the
    explicit length handed to the pointer + length constructor is a length,
    not the sentinel [SIZE_MAX]; slices are taken at offsets within the
    length of their source. *)
Inductive produced : str_view → Prop :=
  | produced_default :
      produced ctor_default
  | produced_sz sz :
      produced (ctor_sz sz)
  | produced_ptr_len str len :
      len < SIZE_MAX →
      produced (ctor_ptr_len str len)
  | produced_still b m str len v :
      len ≤ SIZE_MAX →
      ctor_still b m str len = Ok v →
      produced v
  | produced_string b str offset len v :
      ctor_string b str offset len = Ok v →
      produced v
  | produced_copy b m src offset len v src' :
      produced src →
      (∀ n s, length b m src = Ok (n, s) → offset ≤ n) →
      ctor_copy b m src offset len = Ok (v, src') →
      produced v
  | produced_copy_source b m src offset len v src' :
      produced src →
      ctor_copy b m src offset len = Ok (v, src') →
      produced src'
  | produced_substr b m this offset len v this' :
      produced this →
      (∀ n s, length b m this = Ok (n, s) → offset ≤ n) →
      substr b m this offset len = Ok (v, this') →
      produced v
  | produced_substr_source b m this offset len v this' :
      produced this →
      substr b m this offset len = Ok (v, this') →
      produced this'
  | produced_move src :
      produced src →
      produced (fst (ctor_move src))
  | produced_moved_from src :
      produced src →
      produced (snd (ctor_move src))
  | produced_length b m v n v' :
      produced v →
      length b m v = Ok (n, v') →
      produced v'
  | produced_c_str b nullChar a m v p m' v' :
      produced v →
      c_str b nullChar a m v = Ok (p, m', v') →
      produced v'
  | produced_construct_move w dst src w' i v :
      (∀ j u, w_objs w !! j = Some u → produced u) →
      construct_move w dst src = Ok w' →
      w_objs w' !! i = Some v →
      produced v
  | produced_copy_assign w this src w' i v :
      (∀ j u, w_objs w !! j = Some u → produced u) →
      copy_assign w this src = Ok w' →
      w_objs w' !! i = Some v →
      produced v
  | produced_move_assign w this src w' i v :
      (∀ j u, w_objs w !! j = Some u → produced u) →
      move_assign w this src = Ok w' →
      w_objs w' !! i = Some v →
      produced v
  | produced_op_eq b w this rhs r w' i v :
      (∀ j u, w_objs w !! j = Some u → produced u) →
      op_eq b w this rhs = Ok (r, w') →
      w_objs w' !! i = Some v →
      produced v.

(** The invariant that the code keeps: the cached length is a [size_t], and
    an unknown length goes with a self-terminated source. *)
Definition length_invariant (v : str_view) : Prop :=
  m_Length v ≤ SIZE_MAX ∧ (m_Length v = SIZE_MAX → m_NullTerminatedPtr v = 1).

(** ** [c_str()] called by several threads at once

    The fields that calls on one view share, [m_Length] and
    [m_NullTerminatedPtr], are atomics, and [new] and [delete[]] are
    thread-safe; everything else a call touches is its own: its local
    variables and the array it allocated, which no other thread can reach
    before the exchange.  A run of concurrent calls is therefore an
    interleaving of the pieces below, each taken from the text of [c_str]. *)

(** Where a call stands. *)
Inductive thread :=
  | Entered                                       (* before [if(empty())] *)
  | Checked                                       (* before [v = m_NullTerminatedPtr] *)
  | Allocating                                    (* saw [v == 0]: before [new] *)
  | Exchanging (nullTerminatedCopy : N)           (* array filled: before the exchange *)
  | Releasing (nullTerminatedCopy expected : N)   (* exchange failed: before [delete[]] *)
  | Returned (p : N).

(** [if(empty()) return &nullChar;] *)
Definition c_str_check (b : build) (nullChar : N) (m : memory) (v : str_view)
  : outcome thread :=
  e ← empty b m v;
  Ok (if (e : bool) then Returned nullChar else Checked).

(** [uintptr_t v = m_NullTerminatedPtr;] and the branches on [v] that return
    at once. *)
Definition c_str_read (b : build) (m : memory) (v : str_view)
  : outcome (thread * str_view) :=
  let t := m_NullTerminatedPtr v in
  if t =? 1 then
    match b with
    | Release => Ok (Returned (m_Begin v), v)
    | Debug =>
        '(len, v) ← length b m v;
        c ← load m (m_Begin v + len);
        if c =? 0 then Ok (Returned (m_Begin v), v) else AssertFail
    end
  else if t =? 0 then Ok (Allocating, v)
  else Ok (Returned t, v).

(** From [assert(m_Length != SIZE_MAX)] to [nullTerminatedCopy[m_Length] = 0];
    [a] is the address the allocator returns. *)
Definition c_str_fill (b : build) (a : N) (m : memory) (v : str_view)
  : outcome (thread * memory) :=
  _ ← assert_ b (Ok (negb (m_Length v =? SIZE_MAX)));
  let nullTerminatedCopy := a in
  let m := new_array m nullTerminatedCopy (size_add (m_Length v) 1) in
  _ ← assert_ b (Ok (N.land nullTerminatedCopy 1 =? 0));
  m ← memcpy m nullTerminatedCopy (m_Begin v) (m_Length v);
  m ← store m (nullTerminatedCopy + m_Length v) 0;
  Ok (Exchanging nullTerminatedCopy, m).

(** [expected = 0; if(m_NullTerminatedPtr.compare_exchange_strong(expected,
    nullTerminatedCopy)) return nullTerminatedCopy;] on the value the atomic
    holds at that moment. *)
Definition c_str_exchange (nullTerminatedCopy : N) (v : str_view) : thread * str_view :=
  let '(ok, cur, expected) :=
    compare_exchange_strong (m_NullTerminatedPtr v) 0 nullTerminatedCopy in
  if (ok : bool) then (Returned nullTerminatedCopy, set_NullTerminatedPtr cur v)
  else (Releasing nullTerminatedCopy expected, v).

(** [delete[] nullTerminatedCopy; return expected;] *)
Definition c_str_release (nullTerminatedCopy expected : N) (m : memory)
  : outcome (thread * memory) :=
  m ← delete_array m nullTerminatedCopy;
  Ok (Returned expected, m).

(** The memory, the view object the calls share, and the calls. *)
Record system := mk_system {
  sys_mem : memory;
  sys_view : str_view;
  sys_threads : list thread
}.

(** Thread [i] takes its next step; [a] is what the allocator returns if the
    step allocates.  A call that has returned does nothing more. *)
Definition step (b : build) (nullChar : N) (i : nat) (a : N) (s : system)
  : outcome system :=
  let m := sys_mem s in
  let v := sys_view s in
  let next (th : thread) (m : memory) (v : str_view) :=
    mk_system m v (<[i := th]> (sys_threads s)) in
  match sys_threads s !! i with
  | None => Ok s
  | Some Entered => th ← c_str_check b nullChar m v; Ok (next th m v)
  | Some Checked => '(th, v) ← c_str_read b m v; Ok (next th m v)
  | Some Allocating => '(th, m) ← c_str_fill b a m v; Ok (next th m v)
  | Some (Exchanging c) => let '(th, v) := c_str_exchange c v in Ok (next th m v)
  | Some (Releasing c e) => '(th, m) ← c_str_release c e m; Ok (next th m v)
  | Some (Returned _) => Ok s
  end.

(** A schedule names, turn by turn, the thread that steps and the address
    the allocator would hand out. *)
Fixpoint run (b : build) (nullChar : N) (sched : list (nat * N)) (s : system)
  : outcome system :=
  match sched with
  | [] => Ok s
  | (i, a) :: rest => s ← step b nullChar i a s; run b nullChar rest s
  end.

(** The number of turns thread [i] gets. *)
Fixpoint turns (i : nat) (sched : list (nat * N)) : nat :=
  match sched with
  | [] => 0
  | (j, _) :: rest => (if Nat.eqb i j then 1 else 0) + turns i rest
  end.

(** The allocator keeps its promise along the run: whenever a thread
    allocates, the address is fresh for the memory of that moment. *)
Fixpoint allocator_ok (b : build) (nullChar : N) (sched : list (nat * N)) (s : system)
  : Prop :=
  match sched with
  | [] => True
  | (i, a) :: rest =>
      (sys_threads s !! i = Some Allocating →
       alloc_fresh (sys_mem s) a (m_Length (sys_view s) + 1)) ∧
      (∀ s', step b nullChar i a s = Ok s' → allocator_ok b nullChar rest s')
  end.

(** The same as a check that can be run. *)
Definition alloc_freshb (m : memory) (a n : N) : bool :=
  (0 <? a) && (a + n <=? size_modulus) && (N.land a 1 =? 0)
  && bool_decide (blocks m !! a = None)
  && forallb (λ i : nat, bool_decide (cells m !! (a + N.of_nat i) = None))
             (seq 0 (N.to_nat n)).

Fixpoint allocator_okb (b : build) (nullChar : N) (sched : list (nat * N)) (s : system)
  : bool :=
  match sched with
  | [] => true
  | (i, a) :: rest =>
      match sys_threads s !! i with
      | Some Allocating => alloc_freshb (sys_mem s) a (m_Length (sys_view s) + 1)
      | _ => true
      end
      && match step b nullChar i a s with
         | Ok s' => allocator_okb b nullChar rest s'
         | _ => true
         end
  end.

(** How far a call has come. *)
Definition stage (th : thread) : nat :=
  match th with
  | Entered => 0
  | Checked => 1
  | Allocating => 2
  | Exchanging _ => 3
  | Releasing _ _ => 4
  | Returned _ => 5
  end.

(** The array a call has allocated and not yet handed over or released. *)
Definition held (th : thread) : option N :=
  match th with
  | Exchanging c | Releasing c _ => Some c
  | _ => None
  end.

(** The arrays of the run: the one installed in the view and those the
    calls hold. *)
Definition installed (v : str_view) (a : N) : Prop :=
  a ≠ 0 ∧ m_NullTerminatedPtr v = a.
Definition prepared (ths : list thread) (a : N) : Prop :=
  ∃ i th, ths !! i = Some th ∧ held th = Some a.
Definition prepared_by_other (ths : list thread) (i : nat) (a : N) : Prop :=
  ∃ j th, j ≠ i ∧ ths !! j = Some th ∧ held th = Some a.
Definition holds (s : system) (a : N) : Prop :=
  installed (sys_view s) a ∨ prepared (sys_threads s) a.

(** [a] is a finished copy of the range of [v0]: a live array, allocated
    after the run started from [m0], that holds the code units of [v0] and
    a terminator. *)
Record array_ok (m0 : memory) (v0 : str_view) (m : memory) (a : N) : Prop := {
  array_addr : 1 < a ∧ a + (m_Length v0 + 1) ≤ size_modulus;
  array_live : blocks m !! a = Some (m_Length v0 + 1);
  array_new : blocks m0 !! a = None ∧ ∀ i, i < m_Length v0 + 1 → cells m0 !! (a + i) = None;
  array_copy : ∀ i, i < m_Length v0 → load m (a + i) = load m0 (m_Begin v0 + i);
  array_end : load m (a + m_Length v0) = Ok 0
}.

(** What holds at every moment of a run that started with the view [v0],
    not terminated and not empty, in the memory [m0]. *)
Record race_inv (m0 : memory) (v0 : str_view) (s : system) : Prop := {
  inv_view :
    m_Length (sys_view s) = m_Length v0 ∧ m_Begin (sys_view s) = m_Begin v0 ∧
    m_NullTerminatedPtr (sys_view s) ≠ 1;
  inv_arrays : ∀ a, holds s a → array_ok m0 v0 (sys_mem s) a;
  inv_apart : ∀ a a', holds s a → holds s a' → a ≠ a' →
    a + (m_Length v0 + 1) ≤ a' ∨ a' + (m_Length v0 + 1) ≤ a;
  inv_owner : ∀ i j th th' a,
    sys_threads s !! i = Some th → sys_threads s !! j = Some th' →
    held th = Some a → held th' = Some a → i = j;
  inv_handed : ∀ i th a,
    sys_threads s !! i = Some th → held th = Some a → m_NullTerminatedPtr (sys_view s) ≠ a;
  inv_cells : ∀ q,
    (∀ a, holds s a → q < a ∨ a + (m_Length v0 + 1) ≤ q) →
    cells (sys_mem s) !! q = cells m0 !! q;
  inv_blocks : ∀ q, ¬ holds s q → blocks (sys_mem s) !! q = blocks m0 !! q;
  inv_returned : ∀ i p, sys_threads s !! i = Some (Returned p) →
    p = m_NullTerminatedPtr (sys_view s) ∧ p ≠ 0;
  inv_releasing : ∀ i c e, sys_threads s !! i = Some (Releasing c e) →
    e = m_NullTerminatedPtr (sys_view s) ∧ e ≠ 0
}.

(** ** Concrete memories used in the examples *)

(** Lay the code units [cs] out from address [p] on. *)
Fixpoint place (p : N) (cs : list N) (h : gmap N N) : gmap N N :=
  match cs with
  | [] => h
  | c :: cs' => <[p := c]> (place (p + 1) cs' h)
  end.

(** The static terminator of [c_str] lives at address 8, the literal
    ["abc"] at 100, the literal [""] at 120, the literal ["abcd"] at 140 and
    ["hello world"] at 200. *)
Definition nullChar_addr : N := 8.

Definition demo_cells : gmap N N :=
  place 8 [0]
    (place 100 [97; 98; 99; 0]
       (place 120 [0]
          (place 140 [97; 98; 99; 100; 0]
             (place 200 [104; 101; 108; 108; 111; 32; 119; 111; 114; 108; 100; 0] ∅)))).

Definition demo_mem : memory := mk_memory demo_cells ∅.

(** Four view objects over that memory: [View("abc")], a view of the first
    three code units of ["abcd"], [View("abc", 2)] and the empty view. *)
Definition demo_world : world :=
  mk_world demo_mem
    (<[0%nat := ctor_sz 100]>
       (<[1%nat := ctor_ptr_len 140 3]>
          (<[2%nat := ctor_ptr_len 100 2]>
             (<[3%nat := ctor_default]> ∅)))).

(** The memory after [c_str()] on the view of ["world"] inside
    ["hello world"] allocated its copy at 300, and a world whose only object
    is that view. *)
Definition world_view : str_view := mk_view 5 206 300.

Definition demo_copy_mem : memory :=
  mk_memory (place 300 [119; 111; 114; 108; 100; 0] demo_cells) (<[300 := 6]> ∅).

Definition demo_copy_world : world :=
  mk_world demo_copy_mem (<[0%nat := world_view]> ∅).

(** Two readable code units ["ab"] at 50 with nothing readable behind them. *)
Definition unterminated_mem : memory := mk_memory (place 50 [97; 98] ∅) ∅.

(** The example memory with a caller's buffer of eight code units at 400. *)
Definition demo_buf_mem : memory :=
  mk_memory (place 400 [1; 1; 1; 1; 1; 1; 1; 1] demo_cells) ∅.

(** The view that owns its copy, and [View("abc")] beside it. *)
Definition demo_assign_world : world :=
  mk_world demo_copy_mem (<[0%nat := world_view]> (<[1%nat := ctor_sz 100]> ∅)).

(** Three calls on the view of ["world"] inside ["hello world"]: all three
    find no copy and allocate, at 300, 310 and 320; the second call
    exchanges first. *)
Definition demo_race : system :=
  mk_system demo_mem (mk_view 5 206 0) (replicate 3 Entered).

Definition demo_schedule : list (nat * N) :=
  [(0%nat, 0); (1%nat, 0); (2%nat, 0);
   (0%nat, 0); (1%nat, 0); (2%nat, 0);
   (0%nat, 300); (1%nat, 310); (2%nat, 320);
   (1%nat, 0); (0%nat, 0); (2%nat, 0);
   (2%nat, 0); (0%nat, 0); (1%nat, 0)].

(** The memory such a run ends with: the copy at 310 and nothing else. *)
Definition demo_race_mem : memory :=
  mk_memory (place 310 [119; 111; 114; 108; 100; 0] demo_cells) (<[310 := 6]> ∅).

(** * Properties *)

(** ** Outcomes *)

Lemma bind_Ok {A B} (c : outcome A) (k : A → outcome B) (r : B) :
  (x ← c; k x) = Ok r → ∃ x, c = Ok x ∧ k x = Ok r.
Proof. destruct c; simpl; intros H; try discriminate. eauto. Qed.

Lemma assert_Ok_pure (b : build) (c : bool) :
  c = true → assert_ b (Ok c) = Ok tt.
Proof. intros ->. by destruct b. Qed.

Lemma assert_Release (e : outcome bool) : assert_ Release e = Ok tt.
Proof. reflexivity. Qed.

(** ** Machine integers *)

Lemma size_sub_small (a b : N) :
  b ≤ a → a < size_modulus → size_sub a b = a - b.
Proof.
  intros Hb Ha. unfold size_sub.
  rewrite (N.mod_small b) by lia.
  replace (a + size_modulus - b) with ((a - b) + 1 * size_modulus) by lia.
  rewrite N.Div0.mod_add. apply N.mod_small. lia.
Qed.

Lemma size_sub_bound (a b : N) : size_sub a b ≤ SIZE_MAX.
Proof.
  unfold size_sub.
  pose proof (N.mod_upper_bound (a + size_modulus - b mod size_modulus) size_modulus) as H.
  unfold size_modulus, SIZE_MAX in *. lia.
Qed.

Lemma size_add_small (a b : N) : a + b < size_modulus → size_add a b = a + b.
Proof. intros H. unfold size_add. by apply N.mod_small. Qed.

(** ** Memory *)

Lemma load_Ok (m : memory) (p c : N) :
  load m p = Ok c ↔ 0 < p ∧ p < size_modulus ∧ cells m !! p = Some c.
Proof.
  unfold load, valid_addr.
  destruct (0 <? p) eqn:E1; destruct (p <? size_modulus) eqn:E2; simpl;
    try apply N.ltb_lt in E1; try apply N.ltb_lt in E2;
    try apply N.ltb_ge in E1; try apply N.ltb_ge in E2.
  - destruct (cells m !! p); split; intros H; try discriminate.
    + injection H as ->. auto.
    + destruct H as (_ & _ & [= ->]). done.
    + destruct H as (_ & _ & [=]).
  - split; [discriminate | lia].
  - split; [discriminate | lia].
  - split; [discriminate | lia].
Qed.

Lemma load_same_cells (m m' : memory) (p : N) :
  cells m' !! p = cells m !! p → load m' p = load m p.
Proof. unfold load. by intros ->. Qed.

Lemma scan_cstring (m : memory) (fuel : nat) :
  ∀ p n, is_cstring m p n → (N.to_nat n < fuel)%nat → scan m fuel p = Ok n.
Proof.
  induction fuel as [|k IH]; intros p n [Hbody Hend] Hfuel; [lia|].
  simpl. destruct (N.eq_dec n 0) as [->|Hn].
  - rewrite N.add_0_r in Hend. rewrite Hend. reflexivity.
  - destruct (Hbody 0) as (c & Hc & Hc0); [lia|].
    rewrite N.add_0_r in Hc. rewrite Hc. simpl.
    apply N.eqb_neq in Hc0. rewrite Hc0.
    rewrite (IH (p + 1) (n - 1)).
    + simpl. f_equal. lia.
    + split.
      * intros i Hi. destruct (Hbody (i + 1)) as (c' & Hc' & Hc'0); [lia|].
        exists c'. split; [|done]. by replace (p + 1 + i) with (p + (i + 1)) by lia.
      * by replace (p + 1 + (n - 1)) with (p + n) by lia.
    + lia.
Qed.

Lemma scan_sound (m : memory) (fuel : nat) :
  ∀ p n, scan m fuel p = Ok n → is_cstring m p n.
Proof.
  induction fuel as [|k IH]; intros p n H; [discriminate|].
  simpl in H. apply bind_Ok in H as (c & Hc & H).
  destruct (c =? 0) eqn:E.
  - apply N.eqb_eq in E as ->. injection H as <-. split.
    + intros i Hi. lia.
    + by rewrite N.add_0_r.
  - apply bind_Ok in H as (n' & Hn' & [= <-]).
    apply IH in Hn' as [Hbody Hend]. apply N.eqb_neq in E. split.
    + intros i Hi. destruct (N.eq_dec i 0) as [->|Hi0].
      * exists c. by rewrite N.add_0_r.
      * destruct (Hbody (i - 1)) as (c' & Hc' & Hc'0); [lia|].
        exists c'. split; [|done]. by replace (p + i) with (p + 1 + (i - 1)) by lia.
    + by replace (p + (n' + 1)) with (p + 1 + n') by lia.
Qed.

(** A readable range is made of distinct mapped cells, so it is no longer
    than the memory is large. *)
Lemma readable_size (m : memory) (p n : N) :
  readable m p n → (N.to_nat n ≤ size (cells m))%nat.
Proof.
  intros Hr.
  set (l := (λ i : nat, p + N.of_nat i) <$> seq 0 (N.to_nat n)).
  assert (Hnd : NoDup l).
  { apply NoDup_fmap_2; [|apply NoDup_seq]. intros i j Hij. lia. }
  assert (Hsub : (list_to_set l : gset N) ⊆ dom (cells m)).
  { intros x Hx. apply elem_of_list_to_set in Hx.
    apply list_elem_of_fmap in Hx as (i & -> & Hi).
    apply elem_of_seq in Hi.
    destruct (Hr (N.of_nat i)) as (c & Hc); [lia|].
    apply load_Ok in Hc as (_ & _ & Hc). apply elem_of_dom. eauto. }
  apply subseteq_size in Hsub.
  rewrite size_list_to_set in Hsub by done.
  rewrite size_dom in Hsub.
  unfold l in Hsub. by rewrite length_fmap, length_seq in Hsub.
Qed.

Lemma cstring_readable (m : memory) (p n : N) :
  is_cstring m p n → readable m p (n + 1).
Proof.
  intros [Hbody Hend] i Hi. destruct (N.eq_dec i n) as [->|Hne]; [eauto|].
  destruct (Hbody i) as (c & Hc & _); [lia|]. eauto.
Qed.

(** [strlen] returns on every null-terminated string, with its length. *)
Lemma tstrlen_cstring (m : memory) (p n : N) :
  is_cstring m p n → tstrlen m p = Ok n.
Proof.
  intros H. apply scan_cstring; [done|].
  apply cstring_readable, readable_size in H. lia.
Qed.

Lemma tstrlen_sound (m : memory) (p n : N) :
  tstrlen m p = Ok n → is_cstring m p n.
Proof. apply scan_sound. Qed.

Lemma cstring_unique (m : memory) (p n n' : N) :
  is_cstring m p n → is_cstring m p n' → n = n'.
Proof.
  intros H H'. apply tstrlen_cstring in H, H'. congruence.
Qed.

Lemma cstring_bound (m : memory) (p n : N) :
  is_cstring m p n → 0 < p ∧ p + n < size_modulus.
Proof.
  intros [Hbody Hend]. apply load_Ok in Hend as (Hpos & Hlt & _).
  split; [|done].
  destruct (N.eq_dec n 0) as [->|Hn]; [lia|].
  destruct (Hbody 0) as (c & Hc & _); [lia|].
  apply load_Ok in Hc. lia.
Qed.

(** ** Length resolution *)

Lemma set_Length_id (v : str_view) : set_Length (m_Length v) v = v.
Proof. by destruct v. Qed.

Lemma wf_has_length (m : memory) (v : str_view) :
  wf_view m v → ∃ n, has_length m v n.
Proof.
  unfold wf_view, has_length. destruct (decide (m_Length v = SIZE_MAX)).
  - intros (_ & n & Hn). eauto.
  - eauto.
Qed.

Lemma has_length_unique (m : memory) (v : str_view) (n n' : N) :
  has_length m v n → has_length m v n' → n = n'.
Proof.
  unfold has_length. destruct (decide (m_Length v = SIZE_MAX)).
  - apply cstring_unique.
  - congruence.
Qed.

Lemma has_length_bound (m : memory) (v : str_view) (n : N) :
  wf_view m v → has_length m v n → n < SIZE_MAX.
Proof.
  unfold wf_view, has_length. destruct (decide (m_Length v = SIZE_MAX)).
  - intros _ H. apply cstring_bound in H. unfold size_modulus, SIZE_MAX in *. lia.
  - intros (H & _) ->. done.
Qed.

(** [length()] returns on every valid view, with the length it denotes, and
    leaves that length in the cache. *)
Lemma length_spec (b : build) (m : memory) (v : str_view) (n : N) :
  wf_view m v → has_length m v n → length b m v = Ok (n, set_Length n v).
Proof.
  unfold wf_view, has_length, length.
  destruct (decide (m_Length v = SIZE_MAX)) as [E|E].
  - intros (Ht & _) Hn. rewrite E, N.eqb_refl, Ht.
    rewrite assert_Ok_pure by done. simpl.
    by rewrite (tstrlen_cstring _ _ _ Hn).
  - intros _ ->. apply N.eqb_neq in E. rewrite E. by rewrite set_Length_id.
Qed.

Lemma wf_set_Length (m : memory) (v : str_view) (n : N) :
  wf_view m v → has_length m v n → wf_view m (set_Length n v).
Proof.
  intros Hwf Hn. pose proof (has_length_bound _ _ _ Hwf Hn) as Hb.
  revert Hwf Hn. unfold wf_view, has_length.
  destruct (decide (m_Length v = SIZE_MAX)) as [E|E].
  - intros (Ht & _) Hc. simpl.
    destruct (decide (n = SIZE_MAX)); [lia|].
    split; [done|]. split; [|split].
    + intros i Hi. destruct (cstring_readable _ _ _ Hc i) as (c & Hc'); [lia|]. eauto.
    + intros _. apply Hc.
    + rewrite Ht. lia.
  - intros Hwf ->. by rewrite set_Length_id, decide_False.
Qed.

Lemma has_length_set_Length (m : memory) (v : str_view) (n : N) :
  n < SIZE_MAX → has_length m (set_Length n v) n.
Proof.
  intros Hb. unfold has_length. simpl. destruct (decide (n = SIZE_MAX)); [lia|done].
Qed.

(** [empty()] answers whether the denoted length is zero, without storing
    anything. *)
Lemma empty_spec (b : build) (m : memory) (v : str_view) (n : N) :
  wf_view m v → has_length m v n → empty b m v = Ok (n =? 0).
Proof.
  unfold wf_view, has_length, empty.
  destruct (decide (m_Length v = SIZE_MAX)) as [E|E].
  - intros (Ht & _) Hn. rewrite E, N.eqb_refl, Ht.
    rewrite assert_Ok_pure by done. simpl.
    pose proof (cstring_bound _ _ _ Hn) as [Hp _].
    destruct (N.eqb_spec (m_Begin v) 0) as [|_]; [lia|].
    destruct Hn as [Hbody Hend].
    destruct (N.eqb_spec n 0) as [->|Hn0].
    + rewrite N.add_0_r in Hend. by rewrite Hend.
    + destruct (Hbody 0) as (c & Hc & Hc0); [lia|].
      rewrite N.add_0_r in Hc. rewrite Hc. simpl.
      by apply N.eqb_neq in Hc0 as ->.
  - intros _ ->. apply N.eqb_neq in E. by rewrite E.
Qed.

(** ** Constructors *)

Lemma ctor_still_Release (m : memory) (str len : N) :
  ctor_still Release m str len =
  Ok (if len =? 0 then mk_view 0 0 0 else mk_view len str 1).
Proof. unfold ctor_still. simpl. by destruct (N.eqb_spec len 0) as [->|]. Qed.

Lemma ctor_still_terminated (b : build) (m : memory) (str len : N) :
  len ≠ 0 → load m (str + len) = Ok 0 →
  ctor_still b m str len = Ok (mk_view len str 1).
Proof.
  intros Hlen Hload. unfold ctor_still.
  apply N.eqb_neq in Hlen. rewrite Hlen. simpl.
  destruct b; simpl; [|done]. by rewrite Hload.
Qed.

Lemma ctor_still_Debug_empty (m : memory) (str : N) :
  ctor_still Debug m str 0 = Fault.
Proof. reflexivity. Qed.

(** ** Slices *)

Lemma slice_lazy_cases (src : str_view) (len : N) :
  (m_Length src =? SIZE_MAX) && (len =? SIZE_MAX) = true
  ↔ m_Length src = SIZE_MAX ∧ len = SIZE_MAX.
Proof. rewrite andb_true_iff, !N.eqb_eq. done. Qed.

(** The slicing copy constructor on a valid source, in either build. *)
Lemma ctor_copy_spec (b : build) (m : memory) (src : str_view) (n offset len : N) :
  wf_view m src → has_length m src n → offset ≤ n →
  ctor_copy b m src offset len =
  Ok (slice_result src n offset len, slice_source src n len).
Proof.
  intros Hwf Hn Hoff.
  pose proof (has_length_bound _ _ _ Hwf Hn) as Hb.
  unfold ctor_copy, slice_result, slice_source.
  destruct ((m_Length src =? SIZE_MAX) && (len =? SIZE_MAX)) eqn:Hlazy.
  - apply slice_lazy_cases in Hlazy as [E _].
    unfold wf_view in Hwf. rewrite decide_True in Hwf by done.
    destruct Hwf as [-> _]. by rewrite assert_Ok_pure.
  - rewrite (length_spec b m src n) by done. simpl.
    rewrite assert_Ok_pure by (by apply N.leb_le). simpl.
    rewrite size_sub_small by (unfold size_modulus, SIZE_MAX in *; lia).
    destruct (N.eqb_spec (N.min len (n - offset)) 0) as [->|Hne]; [done|].
    f_equal. f_equal.
    by destruct ((m_NullTerminatedPtr src =? 1) && (N.min len (n - offset) =? n - offset)).
Qed.

(** [substr] on a valid source: the same slice, except that a build with
    assertions faults where the empty slice sits at the end of a
    self-terminated source. *)
Lemma substr_spec (b : build) (m : memory) (src : str_view) (n offset len : N) :
  wf_view m src → has_length m src n → offset ≤ n →
  substr b m src offset len =
  if substr_asserts_on_null b src n offset len then Fault
  else Ok (slice_result src n offset len, slice_source src n len).
Proof.
  intros Hwf Hn Hoff.
  pose proof (has_length_bound _ _ _ Hwf Hn) as Hb.
  pose proof (wf_set_Length _ _ _ Hwf Hn) as Hwf'.
  unfold substr, slice_result, slice_source, substr_asserts_on_null.
  destruct ((m_Length src =? SIZE_MAX) && (len =? SIZE_MAX)) eqn:Hlazy.
  - apply slice_lazy_cases in Hlazy as [E _].
    unfold wf_view, has_length in Hwf, Hn. rewrite decide_True in Hwf, Hn by done.
    destruct Hwf as [Ht _]. rewrite Ht, assert_Ok_pure by done. simpl.
    apply cstring_bound in Hn as [Hp _]. unfold ctor_sz.
    destruct (N.eqb_spec (m_Begin src + offset) 0) as [|_]; [lia|].
    by destruct b.
  - rewrite (length_spec b m src n) by done. simpl.
    rewrite assert_Ok_pure by (by apply N.leb_le). simpl.
    rewrite size_sub_small by (unfold size_modulus, SIZE_MAX in *; lia).
    unfold wf_view in Hwf'. simpl in Hwf'.
    rewrite decide_False in Hwf' by lia. destruct Hwf' as (_ & _ & Hterm & _).
    destruct (N.eqb_spec (m_NullTerminatedPtr src) 1) as [Ht|Ht]; simpl.
    + destruct (N.eqb_spec (N.min len (n - offset)) (n - offset)) as [Hmin|Hmin].
      * destruct (N.eqb_spec (N.min len (n - offset)) 0) as [Hz|Hz].
        -- rewrite Hz. destruct (N.eqb_spec offset n) as [_|]; [|lia].
           destruct b; [done|]. by rewrite ctor_still_Release.
        -- destruct (N.eqb_spec offset n) as [|_]; [lia|].
           rewrite ctor_still_terminated; [by destruct b|done|].
           rewrite Hmin. replace (m_Begin src + offset + (n - offset)) with (m_Begin src + n) by lia.
           by apply Hterm.
      * destruct (N.eqb_spec offset n) as [|_]; [lia|].
        unfold ctor_ptr_len.
        destruct (N.eqb_spec (N.min len (n - offset)) 0) as [->|_]; by destruct b.
    + unfold ctor_ptr_len.
      destruct (N.eqb_spec (N.min len (n - offset)) 0) as [->|_]; by destruct b.
Qed.

Lemma cstring_shift (m : memory) (p n o : N) :
  is_cstring m p n → o ≤ n → is_cstring m (p + o) (n - o).
Proof.
  intros [Hbody Hend] Ho. split.
  - intros i Hi. destruct (Hbody (o + i)) as (c & Hc & Hc0); [lia|].
    exists c. by rewrite <- N.add_assoc.
  - by replace (p + o + (n - o)) with (p + n) by lia.
Qed.

Lemma slice_result_length (m : memory) (src : str_view) (n offset len : N) :
  wf_view m src → has_length m src n → offset ≤ n →
  has_length m (slice_result src n offset len) (N.min len (n - offset)).
Proof.
  intros Hwf Hn Hoff.
  pose proof (has_length_bound _ _ _ Hwf Hn) as Hb.
  unfold slice_result, has_length.
  destruct ((m_Length src =? SIZE_MAX) && (len =? SIZE_MAX)) eqn:Hlazy.
  - apply slice_lazy_cases in Hlazy as [E ->]. cbn [m_Length m_Begin].
    unfold has_length in Hn. rewrite decide_True in Hn by done.
    replace (N.min SIZE_MAX (n - offset)) with (n - offset) by lia.
    case_decide; [|done]. by apply cstring_shift.
  - destruct (N.eqb_spec (N.min len (n - offset)) 0) as [->|Hne];
      cbn [m_Length m_Begin]; case_decide; done || lia.
Qed.

Lemma slice_result_wf (m : memory) (src : str_view) (n offset len : N) :
  wf_view m src → has_length m src n → offset ≤ n →
  wf_view m (slice_result src n offset len).
Proof.
  intros Hwf Hn Hoff.
  pose proof (has_length_bound _ _ _ Hwf Hn) as Hb.
  pose proof (wf_set_Length _ _ _ Hwf Hn) as Hwf'.
  unfold wf_view in Hwf'. cbn [set_Length m_Length m_Begin m_NullTerminatedPtr] in Hwf'.
  rewrite decide_False in Hwf' by lia.
  destruct Hwf' as (_ & Hread & Hterm & _).
  unfold slice_result.
  destruct ((m_Length src =? SIZE_MAX) && (len =? SIZE_MAX)) eqn:Hlazy.
  - apply slice_lazy_cases in Hlazy as [E ->].
    unfold wf_view. cbn [m_Length m_Begin m_NullTerminatedPtr].
    case_decide; [|done]. split; [done|].
    unfold has_length in Hn. rewrite decide_True in Hn by done.
    exists (n - offset). by apply cstring_shift.
  - destruct (N.eqb_spec (N.min len (n - offset)) 0) as [Hz|Hne];
      unfold wf_view; cbn [m_Length m_Begin m_NullTerminatedPtr].
    + case_decide; [done|].
      split; [done|]. split; [|split]; [intros i Hi; lia|done|lia].
    + case_decide; [lia|].
      split; [lia|]. split; [|split].
      * intros i Hi. destruct (Hread (offset + i)) as (c & Hc); [lia|].
        exists c. by rewrite <- N.add_assoc.
      * destruct (N.eqb_spec (m_NullTerminatedPtr src) 1) as [Ht|Ht]; [|done].
        destruct (N.eqb_spec (N.min len (n - offset)) (n - offset)) as [->|]; [|done].
        intros _. replace (m_Begin src + offset + (n - offset)) with (m_Begin src + n) by lia.
        by apply Hterm.
      * destruct ((m_NullTerminatedPtr src =? 1) && (N.min len (n - offset) =? n - offset)); lia.
Qed.

(** The slicing rule on a source whose length is cached. *)
Lemma slice_result_known (src : str_view) (n offset len : N) :
  m_Length src ≠ SIZE_MAX ∨ len ≠ SIZE_MAX →
  slice_result src n offset len =
  if N.min len (n - offset) =? 0 then mk_view 0 0 0
  else mk_view (N.min len (n - offset)) (m_Begin src + offset)
         (if (m_NullTerminatedPtr src =? 1) && (N.min len (n - offset) =? n - offset)
          then 1 else 0).
Proof.
  intros H. unfold slice_result.
  destruct ((m_Length src =? SIZE_MAX) && (len =? SIZE_MAX)) eqn:E; [|done].
  apply slice_lazy_cases in E. lia.
Qed.

Lemma slice_result_lazy (src : str_view) (n offset : N) :
  m_Length src = SIZE_MAX →
  slice_result src n offset SIZE_MAX = mk_view SIZE_MAX (m_Begin src + offset) 1.
Proof. intros H. unfold slice_result. by rewrite H. Qed.

(** Arithmetic of two successive clampings; [r] is the span left after the
    first offset. *)
Lemma clamp_clamp (r l1 o2 l2 : N) :
  o2 ≤ N.min l1 r →
  N.min (N.min l2 (l1 - o2)) (r - o2) = N.min l2 (N.min l1 r - o2).
Proof.
  intros H. destruct (N.min_spec l1 r) as [[H1 E]|[H1 E]]; rewrite E in *; lia.
Qed.

Lemma clamp_reaches_end (r l1 o2 l2 : N) :
  o2 ≤ N.min l1 r → N.min l2 (N.min l1 r - o2) ≠ 0 →
  (N.min l1 r =? r) && (N.min l2 (N.min l1 r - o2) =? N.min l1 r - o2)
  = (N.min l2 (N.min l1 r - o2) =? r - o2).
Proof.
  intros H Hne.
  destruct (N.min_spec l1 r) as [[H1 E]|[H1 E]]; rewrite E in *.
  - destruct (N.min_spec l2 (l1 - o2)) as [[H2 E2]|[H2 E2]]; rewrite E2 in *.
    + destruct (N.eqb_spec l1 r), (N.eqb_spec l2 (l1 - o2)), (N.eqb_spec l2 (r - o2));
        simpl; reflexivity || lia.
    + destruct (N.eqb_spec l1 r), (N.eqb_spec (l1 - o2) (l1 - o2)), (N.eqb_spec (l1 - o2) (r - o2));
        simpl; reflexivity || lia.
  - rewrite N.eqb_refl. simpl. reflexivity.
Qed.

Lemma slice_result_compose (v : str_view) (n o1 l1 o2 l2 : N) :
  n < SIZE_MAX → l1 ≤ SIZE_MAX → l2 ≤ SIZE_MAX →
  (m_Length v = SIZE_MAX → m_NullTerminatedPtr v = 1) →
  o1 ≤ n → o2 ≤ N.min l1 (n - o1) →
  slice_result (slice_result v n o1 l1) (N.min l1 (n - o1)) o2 l2
  = slice_result v n (o1 + o2) (combined_length l1 o2 l2).
Proof.
  intros Hb Hl1 Hl2 HT Ho1 Ho2. unfold combined_length.
  assert (Hr : n - o1 < SIZE_MAX) by lia.
  destruct (N.eqb_spec l1 SIZE_MAX) as [->|Hl1'].
  - rewrite (N.min_r SIZE_MAX (n - o1)) in * by lia.
    destruct (N.eq_dec (m_Length v) SIZE_MAX) as [EL|EL].
    + rewrite (slice_result_lazy v) by done. specialize (HT EL).
      destruct (N.eq_dec l2 SIZE_MAX) as [->|Hl2'].
      * rewrite !slice_result_lazy by done. cbn [m_Begin]. by rewrite N.add_assoc.
      * rewrite !slice_result_known by (right; done).
        cbn [m_Begin m_NullTerminatedPtr].
        by rewrite HT, N.sub_add_distr, N.add_assoc.
    + rewrite (slice_result_known v n o1) by (left; done).
      rewrite (slice_result_known v n (o1 + o2)) by (left; done).
      rewrite (N.min_r SIZE_MAX (n - o1)) by lia.
      rewrite N.eqb_refl, andb_true_r, N.sub_add_distr, N.add_assoc.
      revert Hr Ho2. generalize (n - o1). intros r Hr Ho2.
      destruct (N.eqb_spec r 0) as [->|Hz].
      * rewrite slice_result_known by (left; done).
        by rewrite N.sub_0_l, N.min_0_r.
      * rewrite slice_result_known by (left; cbn [m_Length]; lia).
        cbn [m_Begin m_NullTerminatedPtr].
        destruct (N.eqb_spec (N.min l2 (r - o2)) 0); [done|].
        f_equal. by destruct (m_NullTerminatedPtr v =? 1).
  - assert (Hk1 : m_Length v ≠ SIZE_MAX ∨ l1 ≠ SIZE_MAX) by (right; done).
    assert (Hk : m_Length v ≠ SIZE_MAX ∨ N.min l2 (l1 - o2) ≠ SIZE_MAX) by (right; lia).
    rewrite (slice_result_known v n o1 l1 Hk1).
    rewrite (slice_result_known v n (o1 + o2) _ Hk).
    rewrite N.sub_add_distr, N.add_assoc.
    revert Hr Ho2. generalize (n - o1). intros r Hr Ho2.
    rewrite clamp_clamp by done.
    destruct (N.eqb_spec (N.min l1 r) 0) as [Hz|Hz].
    + rewrite slice_result_known by (left; done).
      by rewrite Hz, N.sub_0_l, N.min_0_r.
    + rewrite slice_result_known by (left; cbn [m_Length]; lia).
      cbn [m_Begin m_NullTerminatedPtr].
      destruct (N.eqb_spec (N.min l2 (N.min l1 r - o2)) 0) as [|Hne]; [done|].
      f_equal.
      destruct (N.eqb_spec (m_NullTerminatedPtr v) 1); cbn [andb]; [|done].
      rewrite <- (clamp_reaches_end r l1 o2 l2) by done.
      by destruct (N.min l1 r =? r).
Qed.

Lemma offset_at_end (n o1 o2 : N) :
  o1 ≤ n → (o1 + o2 =? n) = (o2 =? n - o1).
Proof.
  intros H. destruct (N.eqb_spec (o1 + o2) n), (N.eqb_spec o2 (n - o1)); done || lia.
Qed.

Lemma substr_asserts_known (b : build) (src : str_view) (n offset len : N) :
  m_Length src ≠ SIZE_MAX ∨ len ≠ SIZE_MAX →
  substr_asserts_on_null b src n offset len =
  match b with
  | Release => false
  | Debug => (m_NullTerminatedPtr src =? 1) && (offset =? n)
  end.
Proof.
  intros H. unfold substr_asserts_on_null. destruct b; [|done].
  destruct ((m_Length src =? SIZE_MAX) && (len =? SIZE_MAX)) eqn:E; [|done].
  apply slice_lazy_cases in E. lia.
Qed.

Lemma substr_asserts_lazy (b : build) (src : str_view) (n offset : N) :
  m_Length src = SIZE_MAX →
  substr_asserts_on_null b src n offset SIZE_MAX = false.
Proof. intros H. unfold substr_asserts_on_null. destruct b; [|done]. by rewrite H. Qed.

Lemma substr_asserts_compose (b : build) (v : str_view) (n o1 l1 o2 l2 : N) :
  n < SIZE_MAX → l1 ≤ SIZE_MAX → l2 ≤ SIZE_MAX →
  (m_Length v = SIZE_MAX → m_NullTerminatedPtr v = 1) →
  o1 ≤ n → o2 ≤ N.min l1 (n - o1) →
  substr_asserts_on_null b v n o1 l1
  || substr_asserts_on_null b (slice_result v n o1 l1) (N.min l1 (n - o1)) o2 l2
  = substr_asserts_on_null b v n (o1 + o2) (combined_length l1 o2 l2).
Proof.
  intros Hb Hl1 Hl2 HT Ho1 Ho2. unfold combined_length.
  assert (Hr : n - o1 < SIZE_MAX) by lia.
  destruct b; [|done].
  destruct (N.eqb_spec l1 SIZE_MAX) as [->|Hl1'].
  - rewrite (N.min_r SIZE_MAX (n - o1)) in * by lia.
    destruct (N.eq_dec (m_Length v) SIZE_MAX) as [EL|EL].
    + rewrite (slice_result_lazy v), (substr_asserts_lazy _ v) by done.
      specialize (HT EL).
      destruct (N.eq_dec l2 SIZE_MAX) as [->|Hl2'].
      * by rewrite !substr_asserts_lazy.
      * rewrite !substr_asserts_known by (right; done).
        cbn [m_NullTerminatedPtr orb]. by rewrite HT, offset_at_end.
    + rewrite (slice_result_known v n o1) by (left; done).
      rewrite (substr_asserts_known _ v n o1), (substr_asserts_known _ v n (o1 + o2))
        by (left; done).
      rewrite (N.min_r SIZE_MAX (n - o1)) by lia.
      rewrite N.eqb_refl, andb_true_r, offset_at_end by done.
      destruct (N.eqb_spec (n - o1) 0) as [Hz|Hz].
      * rewrite substr_asserts_known by (left; done).
        cbn [m_NullTerminatedPtr]. rewrite Hz in *.
        replace o2 with 0 by lia. replace o1 with n by lia.
        rewrite !N.eqb_refl. by destruct (m_NullTerminatedPtr v =? 1).
      * rewrite substr_asserts_known by (left; cbn [m_Length]; lia).
        cbn [m_NullTerminatedPtr].
        destruct (N.eqb_spec o1 n) as [|_]; [lia|].
        rewrite andb_false_r. cbn [orb].
        by destruct (m_NullTerminatedPtr v =? 1).
  - assert (Hk1 : m_Length v ≠ SIZE_MAX ∨ l1 ≠ SIZE_MAX) by (right; done).
    assert (Hk : m_Length v ≠ SIZE_MAX ∨ N.min l2 (l1 - o2) ≠ SIZE_MAX) by (right; lia).
    rewrite (slice_result_known v n o1 l1 Hk1).
    rewrite (substr_asserts_known _ v n o1 l1 Hk1).
    rewrite (substr_asserts_known _ v n (o1 + o2) _ Hk).
    rewrite offset_at_end by done.
    assert (Hon : (o1 =? n) = (n - o1 =? 0)).
    { destruct (N.eqb_spec o1 n), (N.eqb_spec (n - o1) 0); done || lia. }
    rewrite Hon. clear Hon.
    revert Hr Ho2. generalize (n - o1). intros r Hr Ho2.
    destruct (N.eqb_spec (N.min l1 r) 0) as [Hz|Hz].
    + rewrite substr_asserts_known by (left; done).
      cbn [m_NullTerminatedPtr]. rewrite Hz in Ho2.
      replace o2 with 0 by lia. cbn [N.eqb andb]. rewrite orb_false_r. done.
    + rewrite substr_asserts_known by (left; cbn [m_Length]; lia).
      cbn [m_NullTerminatedPtr].
      destruct (N.eqb_spec r 0) as [|_]; [lia|]. rewrite andb_false_r. cbn [orb].
      destruct (N.eqb_spec (m_NullTerminatedPtr v) 1); cbn [andb]; [|done].
      destruct (N.min_spec l1 r) as [[H1 E]|[H1 E]]; rewrite E in *.
      * destruct (N.eqb_spec l1 r), (N.eqb_spec o2 l1), (N.eqb_spec o2 r);
          cbn; done || lia.
      * rewrite N.eqb_refl. done.
Qed.

Lemma wf_unknown_terminated (m : memory) (v : str_view) :
  wf_view m v → m_Length v = SIZE_MAX → m_NullTerminatedPtr v = 1.
Proof. unfold wf_view. intros H E. rewrite decide_True in H by done. apply H. Qed.

(** Two requested lengths that clamp to the same length give slices of the
    same length and, unless empty, the same begin: the same code units. *)
Lemma slice_result_same_clamp (m : memory) (src : str_view) (n offset len len' : N) :
  wf_view m src → has_length m src n → offset ≤ n →
  N.min len (n - offset) = N.min len' (n - offset) →
  has_length m (slice_result src n offset len) (N.min len (n - offset)) ∧
  has_length m (slice_result src n offset len') (N.min len (n - offset)) ∧
  (N.min len (n - offset) ≠ 0 →
     m_Begin (slice_result src n offset len) = m_Begin src + offset ∧
     m_Begin (slice_result src n offset len') = m_Begin src + offset).
Proof.
  intros Hwf Hn Hoff Hclamp.
  split; [by apply slice_result_length|].
  split; [rewrite Hclamp; by apply slice_result_length|].
  intros Hne. unfold slice_result.
  destruct ((m_Length src =? SIZE_MAX) && (len =? SIZE_MAX)),
           ((m_Length src =? SIZE_MAX) && (len' =? SIZE_MAX));
    rewrite <- ?Hclamp; apply N.eqb_neq in Hne; rewrite ?Hne; done.
Qed.

(** C7.  Taking [substr(o1, l1)] of a valid view and then [substr(o2, l2)]
    of the result gives the same view (same begin, same cached length, same
    termination) as the single [substr(o1 + o2, combined_length l1 o2 l2)],
    for offsets within the respective lengths.  The two sides are the same
    outcome in either build: the slice of the slicing rule, except that a
    build with assertions faults, on both sides alike, where that slice is
    the empty slice at the end of a self-terminated source. *)
Theorem substr_substr (b : build) (m : memory) (v : str_view) (n o1 l1 o2 l2 : N) :
  wf_view m v → has_length m v n →
  l1 ≤ SIZE_MAX → l2 ≤ SIZE_MAX →
  o1 ≤ n → o2 ≤ N.min l1 (n - o1) →
  let composed := '(t, _) ← substr b m v o1 l1; '(r, _) ← substr b m t o2 l2; Ok r in
  let single := '(r, _) ← substr b m v (o1 + o2) (combined_length l1 o2 l2); Ok r in
  composed = single ∧
  single = (if substr_asserts_on_null b v n (o1 + o2) (combined_length l1 o2 l2)
            then Fault
            else Ok (slice_result v n (o1 + o2) (combined_length l1 o2 l2))).
Proof.
  intros Hwf Hn Hl1 Hl2 Ho1 Ho2. cbv zeta.
  pose proof (has_length_bound _ _ _ Hwf Hn) as Hb.
  pose proof (wf_unknown_terminated _ _ Hwf) as HT.
  pose proof (slice_result_wf m v n o1 l1 Hwf Hn Ho1) as Hwf1.
  pose proof (slice_result_length m v n o1 l1 Hwf Hn Ho1) as Hn1.
  assert (Ho : o1 + o2 ≤ n) by lia.
  pose proof (substr_asserts_compose b v n o1 l1 o2 l2 Hb Hl1 Hl2 HT Ho1 Ho2) as Htrap.
  pose proof (slice_result_compose v n o1 l1 o2 l2 Hb Hl1 Hl2 HT Ho1 Ho2) as Hres.
  rewrite (substr_spec b m v n (o1 + o2)) by done.
  split.
  - rewrite (substr_spec b m v n o1 l1) by done.
    destruct (substr_asserts_on_null b v n o1 l1); cbn [orb] in Htrap.
    + by rewrite <- Htrap.
    + cbn. rewrite (substr_spec b m _ _ o2 l2 Hwf1 Hn1 Ho2).
      rewrite <- Htrap, <- Hres.
      by destruct (substr_asserts_on_null b _ _ o2 l2).
  - by destruct (substr_asserts_on_null b v n (o1 + o2) (combined_length l1 o2 l2)).
Qed.

(** ** Ranges of memory *)

Lemma valid_addr_true (p : N) : valid_addr p = true ↔ 0 < p ∧ p < size_modulus.
Proof. unfold valid_addr. rewrite andb_true_iff, !N.ltb_lt. done. Qed.

Lemma read_range_Ok (m : memory) (k : nat) :
  ∀ p cs, read_range m p k = Ok cs →
  List.length cs = k ∧ ∀ i c, cs !! i = Some c → load m (p + N.of_nat i) = Ok c.
Proof.
  induction k as [|k IH]; intros p cs H; simpl in H.
  - injection H as <-. split; [done|]. intros i c Hi. by rewrite lookup_nil in Hi.
  - apply bind_Ok in H as (c & Hc & H). apply bind_Ok in H as (cs' & Hcs' & [= <-]).
    apply IH in Hcs' as [Hlen Hget]. split; [simpl; lia|].
    intros [|i] c' Hi; simpl in Hi.
    + injection Hi as <-. by rewrite N.add_0_r.
    + apply Hget in Hi. by replace (p + N.of_nat (S i)) with (p + 1 + N.of_nat i) by lia.
Qed.

Lemma read_range_readable (m : memory) (k : nat) :
  ∀ p, (∀ i, (i < k)%nat → ∃ c, load m (p + N.of_nat i) = Ok c) →
  ∃ cs, read_range m p k = Ok cs.
Proof.
  induction k as [|k IH]; intros p H; simpl; [eauto|].
  destruct (H 0%nat) as (c & Hc); [lia|]. rewrite N.add_0_r in Hc. rewrite Hc. simpl.
  destruct (IH (p + 1)) as (cs & Hcs).
  - intros i Hi. destruct (H (S i)) as (c' & Hc'); [lia|].
    exists c'. by replace (p + 1 + N.of_nat i) with (p + N.of_nat (S i)) by lia.
  - rewrite Hcs. simpl. eauto.
Qed.

Lemma read_range_ext (m m' : memory) (k : nat) :
  ∀ p, (∀ i, (i < k)%nat → load m' (p + N.of_nat i) = load m (p + N.of_nat i)) →
  read_range m' p k = read_range m p k.
Proof.
  induction k as [|k IH]; intros p H; simpl; [done|].
  specialize (H 0%nat ltac:(lia)) as H0. rewrite N.add_0_r in H0. rewrite H0.
  rewrite (IH (p + 1)); [done|].
  intros i Hi. replace (p + 1 + N.of_nat i) with (p + N.of_nat (S i)) by lia.
  apply H. lia.
Qed.

Lemma readable_of_read_range (m : memory) (p n : N) (cs : list N) :
  read_range m p (N.to_nat n) = Ok cs → readable m p n.
Proof.
  intros H i Hi. apply read_range_Ok in H as [Hlen Hget].
  destruct (lookup_lt_is_Some_2 cs (N.to_nat i)) as [c Hc]; [lia|].
  exists c. apply Hget in Hc. by rewrite N2Nat.id in Hc.
Qed.

Lemma store_Ok (m : memory) (p c : N) :
  valid_addr p = true → is_Some (cells m !! p) →
  store m p c = Ok (mk_memory (<[p := c]> (cells m)) (blocks m)).
Proof. intros Hv [x Hx]. unfold store. by rewrite Hv, Hx. Qed.

Lemma write_range_spec (cs : list N) :
  ∀ m p,
  (∀ i, (i < List.length cs)%nat →
        valid_addr (p + N.of_nat i) = true ∧ is_Some (cells m !! (p + N.of_nat i))) →
  ∃ m', write_range m p cs = Ok m' ∧ blocks m' = blocks m ∧
        (∀ i c, cs !! i = Some c → cells m' !! (p + N.of_nat i) = Some c) ∧
        (∀ q, q < p ∨ p + N.of_nat (List.length cs) ≤ q → cells m' !! q = cells m !! q).
Proof.
  induction cs as [|c cs IH]; intros m p H; simpl.
  - exists m. repeat split; done.
  - destruct (H 0%nat) as [Hv Hs]; [simpl; lia|]. rewrite N.add_0_r in Hv, Hs.
    rewrite store_Ok by done. simpl.
    destruct (IH (mk_memory (<[p := c]> (cells m)) (blocks m)) (p + 1)) as (m' & Hw & Hb & Hin & Hout).
    + intros i Hi. destruct (H (S i)) as [Hv' Hs']; [simpl; lia|].
      replace (p + 1 + N.of_nat i) with (p + N.of_nat (S i)) by lia.
      split; [done|]. simpl. rewrite lookup_insert_ne by lia. done.
    + exists m'. split; [done|]. split; [done|]. split.
      * intros [|i] c' Hi; simpl in Hi.
        -- injection Hi as <-. rewrite N.add_0_r, Hout by lia.
           simpl. by rewrite lookup_insert_eq.
        -- replace (p + N.of_nat (S i)) with (p + 1 + N.of_nat i) by lia. by apply Hin.
      * intros q Hq. rewrite Hout by (simpl in Hq; lia).
        simpl. rewrite lookup_insert_ne; [done|]. simpl in Hq. lia.
Qed.

Lemma map_cells_lookup (k : nat) :
  ∀ h p c q,
  map_cells h p k c !! q =
  if decide (p ≤ q ∧ q < p + N.of_nat k) then Some c else h !! q.
Proof.
  induction k as [|k IH]; intros h p c q; simpl.
  - case_decide; [lia|done].
  - destruct (decide (p = q)) as [->|Hne].
    + rewrite lookup_insert_eq. case_decide; [done|lia].
    + rewrite lookup_insert_ne by done. rewrite IH.
      repeat case_decide; done || lia.
Qed.

(** ** [c_str()] *)

Lemma fresh_not_mapped (m : memory) (a k q : N) :
  (∀ i, i < k → cells m !! (a + i) = None) → is_Some (cells m !! q) →
  ¬ (a ≤ q ∧ q < a + k).
Proof.
  intros Hfresh [c Hc] [H1 H2]. specialize (Hfresh (q - a) ltac:(lia)).
  replace (a + (q - a)) with q in Hfresh by lia. congruence.
Qed.

(** The path of [c_str] that allocates: a non-empty view with no terminator
    behind it and no copy yet. *)
Lemma c_str_allocates (b : build) (nullChar a : N) (m : memory) (v : str_view) :
  wf_view m v → m_NullTerminatedPtr v = 0 → m_Length v ≠ 0 →
  alloc_fresh m a (m_Length v + 1) →
  ∃ m', c_str b nullChar a m v = Ok (a, m', set_NullTerminatedPtr a v) ∧
        blocks m' = <[a := m_Length v + 1]> (blocks m) ∧
        (∀ q, is_Some (cells m !! q) → cells m' !! q = cells m !! q) ∧
        (∀ i, i < m_Length v → load m' (a + i) = load m (m_Begin v + i)) ∧
        load m' (a + m_Length v) = Ok 0.
Proof.
  intros Hwf Ht Hne (Ha & Hspace & Heven & Hblock & Hfresh).
  assert (Hknown : m_Length v ≠ SIZE_MAX).
  { intros E. apply (wf_unknown_terminated _ _ Hwf) in E. congruence. }
  assert (Hlen : has_length m v (m_Length v)).
  { unfold has_length. by rewrite decide_False. }
  pose proof (has_length_bound _ _ _ Hwf Hlen) as Hb.
  pose proof Hwf as Hwf0.
  unfold wf_view in Hwf. rewrite decide_False in Hwf by done.
  destruct Hwf as (_ & Hread & _).
  set (n := m_Length v) in *.
  set (m1 := new_array m a (n + 1)).
  assert (Hm1 : ∀ q, cells m1 !! q =
            if decide (a ≤ q ∧ q < a + (n + 1)) then Some indeterminate else cells m !! q).
  { intros q. unfold m1, new_array. simpl. rewrite map_cells_lookup.
    rewrite N2Nat.id. done. }
  assert (Hsrc : ∀ i, i < n → load m1 (m_Begin v + i) = load m (m_Begin v + i)).
  { intros i Hi. apply load_same_cells. rewrite Hm1.
    destruct (Hread i Hi) as (c & Hc). apply load_Ok in Hc as (_ & _ & Hc).
    rewrite decide_False; [done|]. apply (fresh_not_mapped m); eauto. }
  destruct (read_range_readable m (N.to_nat n) (m_Begin v)) as (cs & Hcs).
  { intros i Hi. apply Hread. lia. }
  assert (Hcs1 : read_range m1 (m_Begin v) (N.to_nat n) = Ok cs).
  { rewrite <- Hcs. apply read_range_ext. intros i Hi. apply Hsrc. lia. }
  pose proof (read_range_Ok _ _ _ _ Hcs) as [Hcslen Hcsget].
  destruct (write_range_spec cs m1 a) as (m2 & Hw & Hb2 & Hin2 & Hout2).
  { intros i Hi. split.
    - apply valid_addr_true. lia.
    - rewrite Hm1, decide_True by lia. eauto. }
  assert (Hv3 : valid_addr (a + n) = true) by (apply valid_addr_true; lia).
  assert (Hs3 : is_Some (cells m2 !! (a + n))).
  { rewrite Hout2 by lia. rewrite Hm1, decide_True by lia. eauto. }
  exists (mk_memory (<[a + n := 0]> (cells m2)) (blocks m2)).
  split; [|split; [|split; [|split]]].
  - unfold c_str. rewrite (empty_spec b m v n) by done.
    apply N.eqb_neq in Hne. rewrite Hne. cbn [mbind outcome_bind].
    rewrite Ht. cbn [N.eqb].
    fold n.
    rewrite (assert_Ok_pure b (negb (n =? SIZE_MAX))) by (by apply negb_true_iff, N.eqb_neq).
    rewrite (assert_Ok_pure b (N.land a 1 =? 0)) by (by apply N.eqb_eq).
    cbn [mbind outcome_bind].
    rewrite size_add_small by (unfold size_modulus, SIZE_MAX in *; lia). fold m1.
    unfold memcpy. rewrite Hcs1. cbn [mbind outcome_bind]. rewrite Hw.
    cbn [mbind outcome_bind]. rewrite store_Ok by done. reflexivity.
  - cbn [blocks]. by rewrite Hb2.
  - intros q Hq. cbn [cells].
    pose proof (fresh_not_mapped m a (n + 1) q Hfresh Hq) as Hout.
    rewrite lookup_insert_ne by lia.
    rewrite Hout2 by lia. rewrite Hm1. by rewrite decide_False.
  - intros i Hi. destruct (Hread i Hi) as (c & Hc). rewrite Hc.
    apply load_Ok. split; [lia|]. split; [unfold size_modulus in *; lia|].
    cbn [cells]. rewrite lookup_insert_ne by lia.
    destruct (lookup_lt_is_Some_2 cs (N.to_nat i)) as [c' Hc']; [lia|].
    pose proof (Hcsget _ _ Hc') as Hc''. rewrite N2Nat.id in Hc''.
    assert (c' = c) as -> by congruence.
    apply Hin2 in Hc'. by rewrite N2Nat.id in Hc'.
  - apply load_Ok. split; [lia|]. split; [unfold size_modulus in *; lia|].
    cbn [cells]. by rewrite lookup_insert_eq.
Qed.

Lemma even_not_one (a : N) : N.land a 1 = 0 → a ≠ 1.
Proof. intros H ->. discriminate. Qed.

Lemma load_frame (m m' : memory) (p : N) (c : N) :
  (∀ q, is_Some (cells m !! q) → cells m' !! q = cells m !! q) →
  load m p = Ok c → load m' p = Ok c.
Proof.
  intros Hframe H. rewrite <- H. apply load_same_cells, Hframe.
  apply load_Ok in H as (_ & _ & H). eauto.
Qed.

(** C1.  On every valid view [c_str()] returns a pointer [p] with a
    terminator at offset [length()].  The cases are those of the
    specification's list, in its order, which is the order the code tests
    them in: if the view is empty, [p] is the static terminator and nothing
    is allocated; otherwise, if the view is self-terminated, [p] is [begin]
    and nothing is allocated.  The view stays valid and keeps its length. *)
Theorem c_str_terminated (b : build) (nullChar a : N) (m : memory) (v : str_view) (n : N) :
  wf_view m v → has_length m v n →
  load m nullChar = Ok 0 →
  (n ≠ 0 → m_NullTerminatedPtr v = 0 → alloc_fresh m a (n + 1)) →
  ∃ p m' v',
    c_str b nullChar a m v = Ok (p, m', v') ∧
    wf_view m' v' ∧
    (∃ v'', length b m' v' = Ok (n, v'')) ∧
    load m' (p + n) = Ok 0 ∧
    (n = 0 → p = nullChar ∧ m' = m) ∧
    (n ≠ 0 → m_NullTerminatedPtr v = 1 → p = m_Begin v ∧ m' = m).
Proof.
  intros Hwf Hn Hnull Hfresh.
  pose proof (has_length_bound _ _ _ Hwf Hn) as Hb.
  pose proof (wf_set_Length _ _ _ Hwf Hn) as Hwf'.
  destruct (N.eq_dec n 0) as [->|Hn0].
  { exists nullChar, m, v. split; [|split; [|split; [|split; [|split]]]].
    - unfold c_str. by rewrite (empty_spec b m v 0).
    - done.
    - eexists. by apply length_spec.
    - by rewrite N.add_0_r.
    - done.
    - done. }
  destruct (N.eq_dec (m_NullTerminatedPtr v) 1) as [Ht1|Ht1].
  { assert (Hterm : load m (m_Begin v + n) = Ok 0).
    { unfold wf_view in Hwf'. cbn [set_Length m_Length m_Begin m_NullTerminatedPtr] in Hwf'.
      rewrite decide_False in Hwf' by lia. by apply Hwf'. }
    assert (Hc : c_str b nullChar a m v =
                 Ok (m_Begin v, m, match b with Debug => set_Length n v | Release => v end)).
    { unfold c_str. rewrite (empty_spec b m v n) by done.
      apply N.eqb_neq in Hn0. rewrite Hn0. cbn [mbind outcome_bind].
      rewrite Ht1. cbn [N.eqb Pos.eqb]. destruct b; [|done].
      rewrite (length_spec Debug m v n) by done. cbn [mbind outcome_bind set_Length m_Begin].
      by rewrite Hterm. }
    exists (m_Begin v), m, (match b with Debug => set_Length n v | Release => v end).
    split; [done|]. split; [by destruct b|]. split; [|split; [done|done]].
    destruct b; eexists; apply length_spec; try done.
    by apply has_length_set_Length. }
  assert (Hknown : m_Length v ≠ SIZE_MAX).
  { intros E. by apply (wf_unknown_terminated _ _ Hwf) in E. }
  assert (Hn' : n = m_Length v).
  { unfold has_length in Hn. by rewrite decide_False in Hn. }
  subst n.
  pose proof Hwf as Hwf0. unfold wf_view in Hwf. rewrite decide_False in Hwf by done.
  destruct Hwf as (_ & Hread & _ & Hown).
  destruct (N.eq_dec (m_NullTerminatedPtr v) 0) as [Ht0|Ht0].
  - specialize (Hfresh Hn0 Ht0).
    destruct (c_str_allocates b nullChar a m v Hwf0 Ht0 Hn0 Hfresh)
      as (m' & Hc & Hblocks & Hframe & Hcopy & Hterm).
    destruct Hfresh as (Ha & _ & Heven & _).
    pose proof (even_not_one _ Heven) as Ha1.
    assert (Hwfnew : wf_view m' (set_NullTerminatedPtr a v)).
    { unfold wf_view. cbn [set_NullTerminatedPtr m_Length m_Begin m_NullTerminatedPtr].
      rewrite decide_False by done. split; [done|]. split; [|split].
      - intros i Hi. destruct (Hread i Hi) as (c & Hc'). exists c.
        by apply (load_frame m).
      - intros E. congruence.
      - intros _. unfold owns_copy.
        cbn [set_NullTerminatedPtr m_Length m_Begin m_NullTerminatedPtr].
        split; [by rewrite Hblocks, lookup_insert_eq|]. split; [|done].
        intros i Hi. destruct (Hread i Hi) as (c & Hc'). exists c.
        split; [by rewrite Hcopy|by apply (load_frame m)]. }
    exists a, m', (set_NullTerminatedPtr a v).
    split; [done|]. split; [done|]. split; [|split; [done|]]; [|split; [done|congruence]].
    eexists. apply length_spec; [done|].
    unfold has_length. cbn [set_NullTerminatedPtr m_Length]. by rewrite decide_False.
  - assert (Hgt : 1 < m_NullTerminatedPtr v) by lia.
    destruct (Hown Hgt) as (_ & _ & Hterm).
    exists (m_NullTerminatedPtr v), m, v.
    split; [|split; [done|]]; [|split; [|split; [done|]]]; [| |split; [done|congruence]].
    + unfold c_str. rewrite (empty_spec b m v (m_Length v)) by done.
      apply N.eqb_neq in Hn0, Ht1, Ht0. by rewrite Hn0, Ht1, Ht0.
    + eexists. by apply length_spec.
Qed.

(** ** Recognising valid views by computation *)

Lemma wf_unknown_intro (m : memory) (v : str_view) (n : N) :
  m_Length v = SIZE_MAX → m_NullTerminatedPtr v = 1 →
  tstrlen m (m_Begin v) = Ok n → wf_view m v ∧ has_length m v n.
Proof.
  intros E Ht Hn. apply tstrlen_sound in Hn.
  unfold wf_view, has_length. rewrite !decide_True by done. eauto.
Qed.

Lemma wf_known_intro (m : memory) (v : str_view) (cs : list N) :
  m_Length v < SIZE_MAX → m_NullTerminatedPtr v ≤ 1 →
  read_range m (m_Begin v) (N.to_nat (m_Length v)) = Ok cs →
  (m_NullTerminatedPtr v = 1 → load m (m_Begin v + m_Length v) = Ok 0) →
  wf_view m v ∧ has_length m v (m_Length v).
Proof.
  intros Hb Ht Hcs Hterm. apply readable_of_read_range in Hcs.
  unfold wf_view, has_length. rewrite !decide_False by lia.
  split; [|done]. split; [done|]. split; [done|]. split; [done|lia].
Qed.

(** ** The constructors of the table *)

(** C5, as the code has it.  For a non-zero length the view built with
    [StillNullTerminated] has that length, the given begin and is
    self-terminated; without assertions nothing is checked, with assertions
    the code unit at [str + len] is read and must be the terminator.  For
    length zero the view built without assertions is the empty view: null
    begin, not terminated. *)
Theorem ctor_still_spec (m : memory) (str len : N) :
  (len ≠ 0 →
     ctor_still Release m str len = Ok (mk_view len str 1) ∧
     (load m (str + len) = Ok 0 → ctor_still Debug m str len = Ok (mk_view len str 1)) ∧
     (∀ c, load m (str + len) = Ok c → c ≠ 0 → ctor_still Debug m str len = AssertFail)) ∧
  (len = 0 → ctor_still Release m str len = Ok (mk_view 0 0 0)).
Proof.
  split.
  - intros Hlen. split; [|split].
    + rewrite ctor_still_Release. by apply N.eqb_neq in Hlen as ->.
    + intros H. by apply ctor_still_terminated.
    + intros c Hc Hc0. unfold ctor_still. apply N.eqb_neq in Hlen, Hc0.
      rewrite Hlen. cbn. rewrite Hc. cbn. by rewrite Hc0.
  - intros ->. apply ctor_still_Release.
Qed.

Lemma ctor_still_spec_witness :
  ctor_still Release demo_mem 100 3 = Ok (mk_view 3 100 1) ∧
  ctor_still Debug demo_mem 100 3 = Ok (mk_view 3 100 1) ∧
  ctor_still Debug demo_mem 100 2 = AssertFail ∧
  ctor_still Release demo_mem 120 0 = Ok (mk_view 0 0 0).
Proof.
  destruct (ctor_still_spec demo_mem 100 3) as [H3 _].
  destruct (H3 ltac:(discriminate)) as (HR & HD & _).
  destruct (ctor_still_spec demo_mem 100 2) as [H2 _].
  destruct (H2 ltac:(discriminate)) as (_ & _ & HA).
  destruct (ctor_still_spec demo_mem 120 0) as [_ H0].
  split; [exact HR|]. split; [apply HD; reflexivity|].
  split; [apply (HA 99); [reflexivity|discriminate]|].
  apply H0. reflexivity.
Defined.

(** C5 as stated fails for length zero: the terminator is where the caller
    says (the literal [""] at 120), yet the view is not self-terminated. *)
Lemma ctor_still_zero_not_terminated :
  load demo_mem (120 + 0) = Ok 0 ∧
  ∃ v, ctor_still Release demo_mem 120 0 = Ok v ∧
       m_Length v = 0 ∧ m_NullTerminatedPtr v ≠ 1.
Proof. split; [reflexivity|]. eexists. split; [reflexivity|]. split; [reflexivity|discriminate]. Qed.

(** The [std::string] constructor, run on an offset inside the string. *)
Lemma ctor_string_run (b : build) (str : StringT) (offset len : N) :
  offset ≤ s_length str → s_length str < size_modulus →
  ctor_string b str offset len =
  Ok (let n := N.min len (s_length str - offset) in
      if n =? 0 then mk_view 0 0 0
      else mk_view n (s_data str + offset)
             (if offset + n =? s_length str then 1 else 0)).
Proof.
  intros Hoff Hb. unfold ctor_string.
  rewrite assert_Ok_pure by (by apply N.leb_le). cbn [mbind outcome_bind].
  rewrite size_sub_small by done. cbn [set_Length m_Length m_Begin m_NullTerminatedPtr].
  set (r := s_length str - offset). assert (Hr : s_length str = offset + r) by lia.
  rewrite Hr. clearbody r. clear Hr Hoff Hb.
  cbv zeta. replace (offset + r - offset) with r by lia.
  destruct (N.eqb_spec (N.min len r) 0) as [E|Hne]; [by rewrite E|].
  destruct (N.eqb_spec (N.min len r) r), (N.eqb_spec (offset + N.min len r) (offset + r));
    done || lia.
Qed.

(** C6, as the code has it.  The view of a [std::string] from [offset] has
    the requested length clamped to what is left of the string.  It is
    self-terminated exactly when it is not empty and reaches the end of the
    string, and not terminated otherwise; an empty view has a null begin, a
    non-empty one begins at [data() + offset]. *)
Theorem ctor_string_spec (b : build) (str : StringT) (offset len : N) :
  offset ≤ s_length str → s_length str < size_modulus →
  ∃ v, ctor_string b str offset len = Ok v ∧
       m_Length v = N.min len (s_length str - offset) ∧
       (m_NullTerminatedPtr v = 1 ↔
          m_Length v ≠ 0 ∧ offset + m_Length v = s_length str) ∧
       (m_NullTerminatedPtr v = 0 ↔
          ¬ (m_Length v ≠ 0 ∧ offset + m_Length v = s_length str)) ∧
       (m_Length v = 0 → m_Begin v = 0) ∧
       (m_Length v ≠ 0 → m_Begin v = s_data str + offset).
Proof.
  intros Hoff Hb. rewrite ctor_string_run by done. eexists. split; [done|]. cbv zeta.
  destruct (N.eqb_spec (N.min len (s_length str - offset)) 0) as [E|E];
    cbn [m_Length m_Begin m_NullTerminatedPtr].
  - split; [done|]. split; [split; [discriminate|by intros [? _]]|].
    split; [split; [by intros _ [? _]|done]|]. done.
  - split; [done|].
    destruct (N.eqb_spec (offset + N.min len (s_length str - offset)) (s_length str)) as [E'|E'].
    + split; [done|]. split; [split; [discriminate|intros H; by destruct H]|]. done.
    + split; [split; [discriminate|by intros [_ ?]]|].
      split; [split; [by intros _ [_ ?]|done]|]. done.
Qed.

Lemma ctor_string_spec_witness :
  (∃ v, ctor_string Debug (mk_string 100 3) 1 SIZE_MAX = Ok v ∧
        m_Length v = 2 ∧ m_NullTerminatedPtr v = 1) ∧
  (∃ v, ctor_string Debug (mk_string 100 3) 1 1 = Ok v ∧
        m_Length v = 1 ∧ m_NullTerminatedPtr v = 0).
Proof.
  split.
  - destruct (ctor_string_spec Debug (mk_string 100 3) 1 SIZE_MAX)
      as (v & Hv & Hlen & Hterm & _); [discriminate | reflexivity |].
    exists v. split; [exact Hv|]. split; [exact Hlen|].
    apply Hterm. rewrite Hlen. split; [discriminate | reflexivity].
  - destruct (ctor_string_spec Debug (mk_string 100 3) 1 1)
      as (v & Hv & Hlen & _ & Hnot & _); [discriminate | reflexivity |].
    exists v. split; [exact Hv|]. split; [exact Hlen|].
    apply Hnot. rewrite Hlen. intros [_ H]. discriminate H.
Defined.

(** C6 as stated fails at the end of the string: the view of ["abc"] from
    offset 3 reaches the end of the string and is not self-terminated. *)
Lemma ctor_string_end_not_terminated :
  ∃ v, ctor_string Release (mk_string 100 3) 3 SIZE_MAX = Ok v ∧
       3 + m_Length v = s_length (mk_string 100 3) ∧
       m_NullTerminatedPtr v = 0.
Proof. eexists. split; [reflexivity|]. split; reflexivity. Qed.

(** ** Slices: what the rule gives, and where [substr] misses it *)

Lemma slice_result_rule (src : str_view) (n offset len : N) :
  let r := slice_result src n offset len in
  (m_Length src = SIZE_MAX → len = SIZE_MAX →
     r = mk_view SIZE_MAX (m_Begin src + offset) 1 ∧ slice_source src n len = src) ∧
  (m_Length src ≠ SIZE_MAX ∨ len ≠ SIZE_MAX →
     m_Length r = N.min len (n - offset) ∧
     slice_source src n len = set_Length n src ∧
     (m_NullTerminatedPtr r = 1 →
        m_NullTerminatedPtr src = 1 ∧ m_Length r = n - offset ∧ m_Length r ≠ 0)) ∧
  m_NullTerminatedPtr r ≤ 1.
Proof.
  cbv zeta. split; [|split].
  - intros E ->. unfold slice_source. rewrite slice_result_lazy by done.
    by rewrite E.
  - intros H. rewrite slice_result_known by done. unfold slice_source.
    destruct ((m_Length src =? SIZE_MAX) && (len =? SIZE_MAX)) eqn:E.
    { apply slice_lazy_cases in E. lia. }
    destruct (N.eqb_spec (N.min len (n - offset)) 0) as [Hz|Hz];
      cbn [m_Length m_NullTerminatedPtr].
    + split; [done|]. split; [done|]. discriminate.
    + split; [done|]. split; [done|].
      destruct (N.eqb_spec (m_NullTerminatedPtr src) 1); cbn [andb]; [|discriminate].
      destruct (N.eqb_spec (N.min len (n - offset)) (n - offset)); [done|discriminate].
  - unfold slice_result.
    destruct ((m_Length src =? SIZE_MAX) && (len =? SIZE_MAX)); cbn [m_NullTerminatedPtr]; [lia|].
    destruct (N.min len (n - offset) =? 0); cbn [m_NullTerminatedPtr]; [lia|].
    destruct ((m_NullTerminatedPtr src =? 1) && (N.min len (n - offset) =? n - offset)); lia.
Qed.

(** C3 at the inputs where the code misses it.  A slice that starts at the
    end of a self-terminated source and is not lazy is the empty view, and
    the slicing copy constructor returns it in either build; [substr]
    returns it only without assertions.  With assertions [substr] reaches
    the [StillNullTerminated] constructor with length 0, which leaves
    [m_Begin] null and then reads [m_Begin[m_Length]] in its assertion. *)
Theorem substr_end_of_terminated (m : memory) (v : str_view) (n len : N) :
  wf_view m v → has_length m v n → m_NullTerminatedPtr v = 1 →
  m_Length v ≠ SIZE_MAX ∨ len ≠ SIZE_MAX →
  substr Debug m v n len = Fault ∧
  substr Release m v n len = Ok (mk_view 0 0 0, set_Length n v) ∧
  ctor_copy Debug m v n len = Ok (mk_view 0 0 0, set_Length n v) ∧
  ctor_copy Release m v n len = Ok (mk_view 0 0 0, set_Length n v).
Proof.
  intros Hwf Hn Ht Hk.
  assert (Hres : slice_result v n n len = mk_view 0 0 0).
  { rewrite slice_result_known by done. by rewrite N.sub_diag, N.min_0_r. }
  assert (Hsrc : slice_source v n len = set_Length n v).
  { by apply slice_result_rule. }
  rewrite !(substr_spec _ m v n n len), !(ctor_copy_spec _ m v n n len) by (done || lia).
  rewrite substr_asserts_known by done. rewrite Ht, Hres, Hsrc, !N.eqb_refl. done.
Qed.

Lemma substr_end_of_terminated_witness :
  substr Debug demo_mem (mk_view 3 100 1) 3 SIZE_MAX = Fault ∧
  substr Release demo_mem (mk_view 3 100 1) 3 SIZE_MAX = Ok (mk_view 0 0 0, mk_view 3 100 1) ∧
  ctor_copy Debug demo_mem (mk_view 3 100 1) 3 SIZE_MAX = Ok (mk_view 0 0 0, mk_view 3 100 1) ∧
  ctor_copy Release demo_mem (mk_view 3 100 1) 3 SIZE_MAX = Ok (mk_view 0 0 0, mk_view 3 100 1).
Proof.
  destruct (wf_known_intro demo_mem (mk_view 3 100 1) [97; 98; 99]) as [Hwf Hn];
    [reflexivity | discriminate | reflexivity | reflexivity |].
  apply (substr_end_of_terminated demo_mem (mk_view 3 100 1) 3 SIZE_MAX Hwf Hn);
    [reflexivity | left; discriminate].
Defined.

(** ** Equality *)

Lemma read_range_eq (m : memory) (k : nat) :
  ∀ p q xs ys,
  read_range m p k = Ok xs → read_range m q k = Ok ys →
  (xs = ys ↔ ∀ i, (i < k)%nat → load m (p + N.of_nat i) = load m (q + N.of_nat i)).
Proof.
  induction k as [|k IH]; intros p q xs ys Hx Hy; simpl in Hx, Hy.
  - injection Hx as <-. injection Hy as <-. split; [lia|done].
  - apply bind_Ok in Hx as (x & Hx0 & Hx). apply bind_Ok in Hx as (xs' & Hxs & [= <-]).
    apply bind_Ok in Hy as (y & Hy0 & Hy). apply bind_Ok in Hy as (ys' & Hys & [= <-]).
    specialize (IH _ _ _ _ Hxs Hys). split.
    + intros [= -> Htl] [|i] Hi.
      * rewrite !N.add_0_r. congruence.
      * replace (p + N.of_nat (S i)) with (p + 1 + N.of_nat i) by lia.
        replace (q + N.of_nat (S i)) with (q + 1 + N.of_nat i) by lia.
        apply IH; [done|lia].
    + intros H. f_equal.
      * specialize (H 0%nat ltac:(lia)). rewrite !N.add_0_r in H. congruence.
      * apply IH. intros i Hi.
        replace (p + 1 + N.of_nat i) with (p + N.of_nat (S i)) by lia.
        replace (q + 1 + N.of_nat i) with (q + N.of_nat (S i)) by lia.
        apply H. lia.
Qed.

(** [memcmp] on two readable ranges returns, and is zero exactly when the
    ranges hold the same code units. *)
Lemma memcmp_eq0_spec (m : memory) (p q n : N) :
  readable m p n → readable m q n →
  ∃ r, memcmp_eq0 m p q n = Ok r ∧ (r = true ↔ same_range m p q n).
Proof.
  intros Hp Hq.
  destruct (read_range_readable m (N.to_nat n) p) as (xs & Hxs).
  { intros i Hi. apply Hp. lia. }
  destruct (read_range_readable m (N.to_nat n) q) as (ys & Hys).
  { intros i Hi. apply Hq. lia. }
  exists (bool_decide (xs = ys)). split.
  - unfold memcmp_eq0. by rewrite Hxs, Hys.
  - rewrite bool_decide_eq_true, (read_range_eq m _ p q xs ys Hxs Hys).
    unfold same_range. split.
    + intros H k Hk. specialize (H (N.to_nat k) ltac:(lia)). by rewrite N2Nat.id in H.
    + intros H i Hi. apply H. lia.
Qed.

Lemma wf_readable (m : memory) (v : str_view) (n : N) :
  wf_view m v → has_length m v n → readable m (m_Begin v) n.
Proof.
  intros Hwf Hn. pose proof (has_length_bound _ _ _ Hwf Hn) as Hb.
  pose proof (wf_set_Length _ _ _ Hwf Hn) as H.
  unfold wf_view in H. cbn [set_Length m_Length m_Begin] in H.
  rewrite decide_False in H by lia. apply H.
Qed.

Lemma same_range_sym (m : memory) (p q n : N) :
  same_range m p q n → same_range m q p n.
Proof. intros H k Hk. symmetry. by apply H. Qed.

(** [operator==] applied to the objects [i] and [j], which may be one
    object: the answer, and the caches it leaves. *)
Lemma op_eq_run (b : build) (w : world) (i j : nat) (a c : str_view) (na nc : N) :
  w_objs w !! i = Some a → w_objs w !! j = Some c →
  wf_view (w_mem w) a → wf_view (w_mem w) c →
  has_length (w_mem w) a na → has_length (w_mem w) c nc →
  ∃ r, op_eq b w i j =
         Ok (r, mk_world (w_mem w)
                  (<[j := set_Length nc c]> (<[i := set_Length na a]> (w_objs w)))) ∧
       (r = true ↔ na = nc ∧ same_range (w_mem w) (m_Begin a) (m_Begin c) na).
Proof.
  intros Hi Hj Hwfa Hwfc Hna Hnc.
  pose proof (has_length_bound _ _ _ Hwfa Hna) as Hba.
  pose proof (has_length_bound _ _ _ Hwfc Hnc) as Hbc.
  assert (Hj1 : ∃ c1, <[i := set_Length na a]> (w_objs w) !! j = Some c1 ∧
                      m_Begin c1 = m_Begin c ∧
                      length b (w_mem w) c1 = Ok (nc, set_Length nc c)).
  { destruct (decide (i = j)) as [->|Hij].
    - assert (c = a) as -> by congruence.
      assert (nc = na) as -> by (by eapply has_length_unique).
      exists (set_Length na a). rewrite lookup_insert_eq. split; [done|]. split; [done|].
      rewrite (length_spec b _ _ na); [done|by apply wf_set_Length|by apply has_length_set_Length].
    - exists c. rewrite lookup_insert_ne by done. split; [done|]. split; [done|].
      by apply length_spec. }
  destruct Hj1 as (c1 & Hc1 & Hbeg1 & Hlen1).
  assert (Hi2 : ∃ a2, <[j := set_Length nc c]> (<[i := set_Length na a]> (w_objs w)) !! i = Some a2 ∧
                      m_Begin a2 = m_Begin a).
  { destruct (decide (i = j)) as [->|Hij].
    - assert (c = a) as -> by congruence.
      exists (set_Length nc a). by rewrite lookup_insert_eq.
    - exists (set_Length na a). rewrite lookup_insert_ne by done. by rewrite lookup_insert_eq. }
  destruct Hi2 as (a2 & Ha2 & Hbeg2).
  unfold op_eq, obj. rewrite Hi. cbn [mbind outcome_bind].
  rewrite (length_spec b _ a na) by done. cbn [mbind outcome_bind].
  unfold set_obj. cbn [w_objs w_mem]. rewrite Hc1. cbn [mbind outcome_bind].
  rewrite Hlen1. cbn [mbind outcome_bind w_objs w_mem].
  destruct (N.eqb_spec na nc) as [<-|Hne]; cbn [negb].
  - destruct (N.ltb_spec 0 na) as [Hpos|Hzero].
    + rewrite Ha2, lookup_insert_eq. cbn [mbind outcome_bind]. rewrite Hbeg2.
      cbn [set_Length m_Begin].
      destruct (memcmp_eq0_spec (w_mem w) (m_Begin a) (m_Begin c) na) as (r & Hr & Hiff);
        [by apply wf_readable..|].
      rewrite Hr. cbn [mbind outcome_bind]. exists r. split; [done|].
      rewrite Hiff. split; [done|]. by intros [_ H].
    + exists true. split; [done|]. split; [|done]. intros _. split; [done|].
      intros k Hk. lia.
  - exists false. split; [done|]. split; [discriminate|]. by intros [? _].
Qed.

(** C8.  For two valid view objects (possibly the same object) [operator==]
    returns, and answers [true] exactly when the two views denote the same
    length and, over that length, the same code units; neither the
    termination state nor an owned copy enters the answer.  It leaves memory
    alone and the two lengths cached.  Swapping the operands gives the same
    answer, and a view equals itself. *)
Theorem op_eq_spec (b : build) (w : world) (i j : nat) (a c : str_view) (na nc : N) :
  w_objs w !! i = Some a → w_objs w !! j = Some c →
  wf_view (w_mem w) a → wf_view (w_mem w) c →
  has_length (w_mem w) a na → has_length (w_mem w) c nc →
  ∃ r w' w'',
    op_eq b w i j = Ok (r, w') ∧
    w' = mk_world (w_mem w)
           (<[j := set_Length nc c]> (<[i := set_Length na a]> (w_objs w))) ∧
    (r = true ↔ na = nc ∧ same_range (w_mem w) (m_Begin a) (m_Begin c) na) ∧
    op_eq b w j i = Ok (r, w'') ∧
    (i = j → r = true) ∧
    (na = 0 → nc = 0 → r = true).
Proof.
  intros Hi Hj Hwfa Hwfc Hna Hnc.
  destruct (op_eq_run b w i j a c na nc) as (r & Hr & Hiff); try done.
  destruct (op_eq_run b w j i c a nc na) as (r' & Hr' & Hiff'); try done.
  assert (r' = r) as ->.
  { destruct r, r'; try done.
    - destruct Hiff as [[-> Hs] _]; [done|].
      apply Hiff'. split; [done|]. by apply same_range_sym.
    - destruct Hiff' as [[-> Hs] _]; [done|].
      symmetry. apply Hiff. split; [done|]. by apply same_range_sym. }
  eexists r, _, _. split; [exact Hr|]. split; [done|]. split; [done|].
  split; [exact Hr'|]. split.
  - intros ->. assert (c = a) as -> by congruence.
    assert (nc = na) as -> by (by eapply has_length_unique).
    apply Hiff. split; [done|]. by intros k Hk.
  - intros -> ->. apply Hiff. split; [done|]. intros k Hk. lia.
Qed.

(** ** Moving and assigning *)

Lemma delete_array_live (m : memory) (p k : N) :
  blocks m !! p = Some k →
  ∃ m', delete_array m p = Ok m' ∧ blocks m' = delete p (blocks m).
Proof. intros H. unfold delete_array. rewrite H. eauto. Qed.

Lemma delete_array_dead (m : memory) (p : N) :
  blocks m !! p = None → delete_array m p = Fault.
Proof. intros H. unfold delete_array. by rewrite H. Qed.

Lemma dtor_not_owning (m : memory) (v : str_view) :
  m_NullTerminatedPtr v ≤ 1 → dtor m v = Ok m.
Proof.
  intros H. unfold dtor. destruct (N.ltb_spec 1 (m_NullTerminatedPtr v)); [lia|done].
Qed.

Lemma dtor_owning (m : memory) (v : str_view) :
  1 < m_NullTerminatedPtr v → dtor m v = delete_array m (m_NullTerminatedPtr v).
Proof.
  intros H. unfold dtor. destruct (N.ltb_spec 1 (m_NullTerminatedPtr v)); [done|lia].
Qed.

(** Move assignment to another object releases what the destination owned,
    as its destructor would, and then moves. *)
Lemma move_assign_distinct (w : world) (this src : nat) (t s : str_view) :
  src ≠ this → w_objs w !! this = Some t → w_objs w !! src = Some s →
  move_assign w this src =
  m ← dtor (w_mem w) t;
  Ok (mk_world m (<[this := s]> (<[src := mk_view 0 0 0]> (w_objs w)))).
Proof.
  intros Hne Ht Hs. unfold move_assign, obj, dtor.
  rewrite bool_decide_true by done. rewrite Ht, Hs. cbn [mbind outcome_bind].
  destruct (1 <? m_NullTerminatedPtr t); [|by destruct s].
  destruct (delete_array (w_mem w) (m_NullTerminatedPtr t)); [|done..].
  by destruct s.
Qed.

Lemma copy_assign_distinct (w : world) (this src : nat) (t s : str_view) :
  src ≠ this → w_objs w !! this = Some t → w_objs w !! src = Some s →
  copy_assign w this src =
  m ← dtor (w_mem w) t;
  Ok (mk_world m
        (<[this := mk_view (m_Length s) (m_Begin s)
                     (if m_NullTerminatedPtr s =? 1 then 1 else 0)]> (w_objs w))).
Proof.
  intros Hne Ht Hs. unfold copy_assign, obj, dtor.
  rewrite bool_decide_true by done. rewrite Ht, Hs. cbn [mbind outcome_bind].
  destruct (1 <? m_NullTerminatedPtr t); [|done].
  by destruct (delete_array (w_mem w) (m_NullTerminatedPtr t)).
Qed.

(** C9.  Moving from the object [src] into another object [dst] -- by move
    construction of a new [dst], or by move
    assignment to an existing [dst], whose own copy is released first --
    leaves [dst] with exactly the fields [src] had and [src] in the empty
    state.  A copy owned by [src] goes with them: afterwards destroying
    [src] releases nothing, destroying [dst] releases that array, and the
    array is then no longer live, so that a second release would be a
    fault. *)
Theorem move_spec (w : world) (dst src : nat) (s : str_view) :
  w_objs w !! src = Some s → dst ≠ src →
  let moved m := mk_world m (<[dst := s]> (<[src := mk_view 0 0 0]> (w_objs w))) in
  (w_objs w !! dst = None → construct_move w dst src = Ok (moved (w_mem w))) ∧
  (∀ d m, w_objs w !! dst = Some d → dtor (w_mem w) d = Ok m →
          move_assign w dst src = Ok (moved m)) ∧
  (∀ m, w_objs (moved m) !! dst = Some s ∧
        w_objs (moved m) !! src = Some (mk_view 0 0 0) ∧
        destroy (moved m) src = Ok (mk_world m (delete src (w_objs (moved m)))) ∧
        (∀ k, 1 < m_NullTerminatedPtr s → blocks m !! m_NullTerminatedPtr s = Some k →
              ∃ m', destroy (moved m) dst = Ok (mk_world m' (delete dst (w_objs (moved m)))) ∧
                    blocks m' = delete (m_NullTerminatedPtr s) (blocks m) ∧
                    delete_array m' (m_NullTerminatedPtr s) = Fault)).
Proof.
  intros Hs Hne. cbv zeta. split; [|split].
  - intros Hd. unfold construct_move, obj. rewrite Hd, Hs. cbn [mbind outcome_bind].
    unfold ctor_move, set_obj. cbn. by destruct s.
  - intros d m Hd Hm. rewrite (move_assign_distinct w dst src d s) by done.
    by rewrite Hm.
  - intros m. cbn [w_objs w_mem].
    split; [by rewrite lookup_insert_eq|].
    split; [by rewrite lookup_insert_ne, lookup_insert_eq|].
    split.
    + unfold destroy, obj. cbn [w_objs w_mem].
      by rewrite lookup_insert_ne, lookup_insert_eq.
    + intros k Hown Hlive.
      destruct (delete_array_live m _ k Hlive) as (m' & Hdel & Hblocks).
      exists m'. split; [|split; [done|]].
      * unfold destroy, obj. cbn [w_objs w_mem]. rewrite lookup_insert_eq.
        cbn [mbind outcome_bind]. rewrite dtor_owning by done. by rewrite Hdel.
      * apply delete_array_dead. by rewrite Hblocks, lookup_delete_eq.
Qed.

(** C10.  Assigning an object to itself, by copy or by move, changes
    nothing: not the object, not any other object, not memory; in
    particular an owned copy stays live. *)
Theorem self_assign_noop (w : world) (i : nat) :
  copy_assign w i i = Ok w ∧ move_assign w i i = Ok w.
Proof.
  unfold copy_assign, move_assign.
  by rewrite bool_decide_false by (intros H; by apply H).
Qed.

(** By contrast, assignment from another object releases the copy the
    destination owned. *)
Lemma assign_releases_copy (w : world) (this src : nat) (t s : str_view) (k : N) :
  src ≠ this → w_objs w !! this = Some t → w_objs w !! src = Some s →
  1 < m_NullTerminatedPtr t → blocks (w_mem w) !! m_NullTerminatedPtr t = Some k →
  ∃ w1 w2, copy_assign w this src = Ok w1 ∧ move_assign w this src = Ok w2 ∧
           blocks (w_mem w1) !! m_NullTerminatedPtr t = None ∧
           blocks (w_mem w2) !! m_NullTerminatedPtr t = None.
Proof.
  intros Hne Ht Hs Hown Hlive.
  destruct (delete_array_live _ _ k Hlive) as (m' & Hdel & Hblocks).
  rewrite (copy_assign_distinct w this src t s), (move_assign_distinct w this src t s) by done.
  rewrite dtor_owning, Hdel by done. cbn [mbind outcome_bind].
  eexists _, _. split; [done|]. split; [done|]. cbn [w_mem].
  by rewrite Hblocks, lookup_delete_eq.
Qed.

(** ** The invariant on the cached length *)

Ltac inv_solve :=
  split;
  cbn [set_Length set_Begin set_NullTerminatedPtr m_Length m_Begin m_NullTerminatedPtr];
  unfold SIZE_MAX in *; lia.

Lemma assert_Ok_inv (b : build) (e : outcome bool) :
  assert_ b e = Ok tt → b = Release ∨ e = Ok true.
Proof.
  destruct b; [|auto]. simpl. destruct e as [[]| |]; simpl; intros H; try discriminate. auto.
Qed.

Lemma length_Ok_inv (b : build) (m : memory) (v v' : str_view) (n : N) :
  length_invariant v → length b m v = Ok (n, v') →
  v' = set_Length n v ∧ n < SIZE_MAX.
Proof.
  intros [Hb Hu] H. unfold length in H.
  destruct (N.eqb_spec (m_Length v) SIZE_MAX) as [E|E].
  - apply bind_Ok in H as ([] & _ & H). apply bind_Ok in H as (n' & Hn' & [= <- <-]).
    split; [done|]. apply tstrlen_sound, cstring_bound in Hn'.
    unfold size_modulus, SIZE_MAX in *. lia.
  - injection H as <- <-. split; [by rewrite set_Length_id|lia].
Qed.

Lemma length_invariant_known (v : str_view) :
  m_Length v < SIZE_MAX → length_invariant v.
Proof. intros H. split; lia. Qed.

Lemma length_invariant_length (b : build) (m : memory) (v v' : str_view) (n : N) :
  length_invariant v → length b m v = Ok (n, v') → length_invariant v'.
Proof.
  intros Hinv H. apply length_Ok_inv in H as [-> Hn]; [|done].
  by apply length_invariant_known.
Qed.

Lemma ctor_still_Ok_inv (b : build) (m : memory) (str len : N) (v : str_view) :
  ctor_still b m str len = Ok v →
  v = if len =? 0 then mk_view 0 0 0 else mk_view len str 1.
Proof.
  unfold ctor_still. intros H. apply bind_Ok in H as ([] & _ & [= <-]).
  by destruct (N.eqb_spec len 0) as [->|].
Qed.

Lemma length_invariant_still (b : build) (m : memory) (str len : N) (v : str_view) :
  len ≤ SIZE_MAX → ctor_still b m str len = Ok v → length_invariant v.
Proof.
  intros Hlen H. apply ctor_still_Ok_inv in H as ->.
  destruct (N.eqb_spec len 0); split; cbn [m_Length m_NullTerminatedPtr];
    done || (unfold SIZE_MAX; lia).
Qed.

Lemma length_invariant_string (b : build) (str : StringT) (offset len : N) (v : str_view) :
  ctor_string b str offset len = Ok v → length_invariant v.
Proof.
  unfold ctor_string. intros H. apply bind_Ok in H as ([] & _ & [= <-]).
  cbn [set_Length m_Length m_Begin m_NullTerminatedPtr].
  pose proof (size_sub_bound (s_length str) offset) as Hb.
  set (x := size_sub (s_length str) offset) in *. clearbody x.
  destruct (N.eqb_spec (N.min len x) 0) as [E|E].
  - inv_solve.
  - destruct (N.eqb_spec (N.min len x) x) as [E'|E']; inv_solve.
Qed.

(** A slice taken in range of a source that keeps the invariant. *)
Lemma slice_length_known (n offset len : N) :
  n < SIZE_MAX → offset ≤ n → N.min len (size_sub n offset) < SIZE_MAX.
Proof.
  intros Hn Hoff. rewrite size_sub_small by (unfold size_modulus, SIZE_MAX in *; lia).
  lia.
Qed.

Lemma length_invariant_copy (b : build) (m : memory) (src v src' : str_view) (offset len : N) :
  length_invariant src →
  (∀ n s, length b m src = Ok (n, s) → offset ≤ n) →
  ctor_copy b m src offset len = Ok (v, src') →
  length_invariant v.
Proof.
  intros Hinv Hpre H. unfold ctor_copy in H.
  destruct ((m_Length src =? SIZE_MAX) && (len =? SIZE_MAX)).
  - apply bind_Ok in H as ([] & _ & [= <- _]). by split.
  - apply bind_Ok in H as ([n s] & Hlen & H).
    pose proof (Hpre _ _ Hlen) as Hoff.
    apply length_Ok_inv in Hlen as [-> Hn]; [|done].
    apply bind_Ok in H as ([] & _ & [= <- _]).
    pose proof (slice_length_known n offset len Hn Hoff) as Hk.
    cbn [set_Length m_Length m_Begin m_NullTerminatedPtr].
    destruct (N.min len (size_sub n offset) =? 0).
    + by apply length_invariant_known.
    + destruct ((m_NullTerminatedPtr src =? 1) && (N.min len (size_sub n offset) =? size_sub n offset));
        by apply length_invariant_known.
Qed.

Lemma length_invariant_copy_source (b : build) (m : memory) (src v src' : str_view) (offset len : N) :
  length_invariant src →
  ctor_copy b m src offset len = Ok (v, src') →
  length_invariant src'.
Proof.
  intros Hinv H. unfold ctor_copy in H.
  destruct ((m_Length src =? SIZE_MAX) && (len =? SIZE_MAX)).
  - by apply bind_Ok in H as ([] & _ & [= _ <-]).
  - apply bind_Ok in H as ([n s] & Hlen & H).
    apply bind_Ok in H as ([] & _ & [= _ <-]).
    by eapply length_invariant_length.
Qed.

Lemma length_invariant_sz (sz : N) : length_invariant (ctor_sz sz).
Proof.
  unfold ctor_sz. destruct (sz =? 0); split; cbn [m_Length m_NullTerminatedPtr];
    done || (unfold SIZE_MAX; lia).
Qed.

Lemma length_invariant_substr (b : build) (m : memory) (this v this' : str_view) (offset len : N) :
  length_invariant this →
  (∀ n s, length b m this = Ok (n, s) → offset ≤ n) →
  substr b m this offset len = Ok (v, this') →
  length_invariant v.
Proof.
  intros Hinv Hpre H. unfold substr in H.
  destruct ((m_Length this =? SIZE_MAX) && (len =? SIZE_MAX)).
  - apply bind_Ok in H as ([] & _ & [= <- _]). apply length_invariant_sz.
  - apply bind_Ok in H as ([n s] & Hlen & H).
    pose proof (Hpre _ _ Hlen) as Hoff.
    apply length_Ok_inv in Hlen as [-> Hn]; [|done].
    apply bind_Ok in H as ([] & _ & H).
    pose proof (slice_length_known n offset len Hn Hoff) as Hk.
    destruct ((m_NullTerminatedPtr (set_Length n this) =? 1)
              && (N.min len (size_sub n offset) =? size_sub n offset)).
    + apply bind_Ok in H as (r & Hr & [= <- _]).
      apply length_invariant_still in Hr; [done|lia].
    + injection H as <- _. by apply length_invariant_known.
Qed.

Lemma length_invariant_substr_source (b : build) (m : memory) (this v this' : str_view) (offset len : N) :
  length_invariant this →
  substr b m this offset len = Ok (v, this') →
  length_invariant this'.
Proof.
  intros Hinv H. unfold substr in H.
  destruct ((m_Length this =? SIZE_MAX) && (len =? SIZE_MAX)).
  - by apply bind_Ok in H as ([] & _ & [= _ <-]).
  - apply bind_Ok in H as ([n s] & Hlen & H).
    apply length_invariant_length in Hlen; [|done].
    apply bind_Ok in H as ([] & _ & H).
    destruct ((m_NullTerminatedPtr s =? 1)
              && (N.min len (size_sub n offset) =? size_sub n offset)).
    + by apply bind_Ok in H as (r & Hr & [= _ <-]).
    + by injection H as _ <-.
Qed.

Lemma length_invariant_c_str (b : build) (nullChar a p : N) (m m' : memory) (v v' : str_view) :
  length_invariant v → c_str b nullChar a m v = Ok (p, m', v') → length_invariant v'.
Proof.
  intros Hinv H. unfold c_str in H.
  apply bind_Ok in H as (e & _ & H).
  destruct e; [by injection H as _ _ <-|].
  destruct (N.eqb_spec (m_NullTerminatedPtr v) 1) as [Ht1|Ht1].
  { destruct b; [|by injection H as _ _ <-].
    apply bind_Ok in H as ([n s] & Hlen & H).
    apply length_invariant_length in Hlen; [|done].
    apply bind_Ok in H as (c & _ & H).
    destruct (c =? 0); [by injection H as _ _ <-|discriminate]. }
  destruct (N.eqb_spec (m_NullTerminatedPtr v) 0) as [Ht0|Ht0];
    [|by injection H as _ _ <-].
  apply bind_Ok in H as ([] & _ & H). apply bind_Ok in H as ([] & _ & H).
  apply bind_Ok in H as (m1 & _ & H). apply bind_Ok in H as (m2 & _ & H).
  destruct (compare_exchange_strong (m_NullTerminatedPtr v) 0 a) as [[[] cur] expected].
  - injection H as _ _ <-. destruct Hinv as [Hb Hu].
    split; cbn [set_NullTerminatedPtr m_Length m_NullTerminatedPtr]; [done|].
    intros E. apply Hu in E. congruence.
  - apply bind_Ok in H as (m3 & _ & H). by injection H as _ _ <-.
Qed.

Lemma length_invariant_move (src : str_view) :
  length_invariant src →
  length_invariant (fst (ctor_move src)) ∧ length_invariant (snd (ctor_move src)).
Proof.
  intros [Hb Hu]. unfold ctor_move. cbn [fst snd]. split; [by split|inv_solve].
Qed.

Lemma invariant_insert (objs : gmap nat str_view) (i : nat) (v : str_view) :
  (∀ j u, objs !! j = Some u → length_invariant u) → length_invariant v →
  ∀ j u, <[i := v]> objs !! j = Some u → length_invariant u.
Proof.
  intros Hw Hv j u. destruct (decide (i = j)) as [->|Hne].
  - rewrite lookup_insert_eq. by intros [= <-].
  - rewrite lookup_insert_ne by done. apply Hw.
Qed.

Lemma obj_Ok (w : world) (i : nat) (v : str_view) :
  obj w i = Ok v → w_objs w !! i = Some v.
Proof. unfold obj. by destruct (w_objs w !! i); intros [= ->]. Qed.

Lemma invariant_construct_move (w w' : world) (dst src : nat) :
  (∀ j u, w_objs w !! j = Some u → length_invariant u) →
  construct_move w dst src = Ok w' →
  ∀ j u, w_objs w' !! j = Some u → length_invariant u.
Proof.
  intros Hw H. unfold construct_move in H.
  destruct (w_objs w !! dst); [discriminate|].
  apply bind_Ok in H as (s & Hs & H). apply obj_Ok, Hw in Hs.
  destruct (length_invariant_move s Hs) as [H1 H2].
  destruct (ctor_move s) as [v s'] eqn:E. injection H as <-.
  unfold set_obj. cbn [w_objs fst snd] in *.
  by repeat apply invariant_insert.
Qed.

Lemma invariant_copy_assign (w w' : world) (this src : nat) :
  (∀ j u, w_objs w !! j = Some u → length_invariant u) →
  copy_assign w this src = Ok w' →
  ∀ j u, w_objs w' !! j = Some u → length_invariant u.
Proof.
  intros Hw H. unfold copy_assign in H. case_bool_decide; [|by injection H as <-].
  apply bind_Ok in H as (t & _ & H). apply bind_Ok in H as (s & Hs & H).
  apply obj_Ok, Hw in Hs as [Hb Hu].
  apply bind_Ok in H as (m & _ & [= <-]). cbn [w_objs].
  apply invariant_insert; [done|].
  split; cbn [set_Length set_Begin set_NullTerminatedPtr m_Length m_NullTerminatedPtr]; [done|].
  intros E. by rewrite (Hu E).
Qed.

Lemma invariant_move_assign (w w' : world) (this src : nat) :
  (∀ j u, w_objs w !! j = Some u → length_invariant u) →
  move_assign w this src = Ok w' →
  ∀ j u, w_objs w' !! j = Some u → length_invariant u.
Proof.
  intros Hw H. unfold move_assign in H. case_bool_decide; [|by injection H as <-].
  apply bind_Ok in H as (t & _ & H). apply bind_Ok in H as (s & Hs & H).
  apply obj_Ok, Hw in Hs as [Hb Hu].
  apply bind_Ok in H as (m & _ & [= <-]). cbn [w_objs].
  repeat apply invariant_insert; [done| |].
  - inv_solve.
  - by split.
Qed.

Lemma invariant_op_eq (b : build) (w w' : world) (this rhs : nat) (r : bool) :
  (∀ j u, w_objs w !! j = Some u → length_invariant u) →
  op_eq b w this rhs = Ok (r, w') →
  ∀ j u, w_objs w' !! j = Some u → length_invariant u.
Proof.
  intros Hw H. unfold op_eq in H.
  apply bind_Ok in H as (t & Ht & H). apply obj_Ok, Hw in Ht.
  apply bind_Ok in H as ([n1 t1] & Hl1 & H).
  apply length_invariant_length in Hl1; [|done].
  pose proof (invariant_insert _ this t1 Hw Hl1) as Hw1.
  apply bind_Ok in H as (r0 & Hr0 & H). apply obj_Ok in Hr0.
  cbn [set_obj w_objs] in Hr0. apply Hw1 in Hr0.
  apply bind_Ok in H as ([n2 r2] & Hl2 & H).
  apply length_invariant_length in Hl2; [|done].
  pose proof (invariant_insert _ rhs r2 Hw1 Hl2) as Hw2.
  destruct (negb (n1 =? n2)); [by injection H as _ <-|].
  destruct (0 <? n1); [|by injection H as _ <-].
  apply bind_Ok in H as (t' & _ & H). apply bind_Ok in H as (r' & _ & H).
  apply bind_Ok in H as (e & _ & H). by injection H as _ <-.
Qed.

Lemma produced_invariant (v : str_view) : produced v → length_invariant v.
Proof.
  induction 1.
  - unfold ctor_default. inv_solve.
  - apply length_invariant_sz.
  - unfold ctor_ptr_len. by apply length_invariant_known.
  - by eapply length_invariant_still.
  - by eapply length_invariant_string.
  - by eapply length_invariant_copy.
  - by eapply length_invariant_copy_source.
  - by eapply length_invariant_substr.
  - by eapply length_invariant_substr_source.
  - by apply length_invariant_move.
  - by apply length_invariant_move.
  - by eapply length_invariant_length.
  - by eapply length_invariant_c_str.
  - by eapply invariant_construct_move.
  - by eapply invariant_copy_assign.
  - by eapply invariant_move_assign.
  - by eapply invariant_op_eq.
Qed.

(** C4.  Every view a program produces, each operation called within its
    contract -- an explicit length is a length, not the sentinel, and a
    slice starts within its source -- is not [NotTerminated] while its
    length is unknown: it is then self-terminated. *)
Theorem unknown_length_is_terminated (v : str_view) :
  produced v → m_Length v = SIZE_MAX →
  m_NullTerminatedPtr v ≠ 0 ∧ m_NullTerminatedPtr v = 1.
Proof.
  intros Hp E. apply produced_invariant in Hp as [_ Hu]. rewrite (Hu E). done.
Qed.

(** ** The theorems at concrete inputs *)

Lemma fresh_by_scan (m : memory) (a n : N) :
  forallb (λ i : nat, match cells m !! (a + N.of_nat i) with None => true | Some _ => false end)
          (seq 0 (N.to_nat n)) = true →
  ∀ i, i < n → cells m !! (a + i) = None.
Proof.
  intros H i Hi. rewrite forallb_forall in H.
  specialize (H (N.to_nat i)). rewrite N2Nat.id in H.
  destruct (cells m !! (a + i)); [|done].
  discriminate H. apply in_seq. lia.
Qed.

Lemma demo_hello_world_valid :
  wf_view demo_mem (ctor_sz 200) ∧ has_length demo_mem (ctor_sz 200) 11.
Proof. by apply wf_unknown_intro. Qed.

Lemma demo_world_slice_valid :
  wf_view demo_mem (ctor_ptr_len 206 5) ∧ has_length demo_mem (ctor_ptr_len 206 5) 5.
Proof.
  apply (wf_known_intro demo_mem (ctor_ptr_len 206 5) [119; 111; 114; 108; 100]);
    [reflexivity | discriminate | reflexivity | discriminate].
Qed.

Lemma c_str_terminated_witness :
  ∃ m' v',
    c_str Debug nullChar_addr 300 demo_mem (ctor_ptr_len 206 5) = Ok (300, m', v') ∧
    load m' (300 + 5) = Ok 0.
Proof.
  destruct demo_world_slice_valid as [Hwf Hn].
  destruct (c_str_terminated Debug nullChar_addr 300 demo_mem (ctor_ptr_len 206 5) 5 Hwf Hn)
    as (p & m' & v' & Hc & _ & _ & Hterm & _).
  - reflexivity.
  - intros _ _. split; [reflexivity|]. split; [discriminate|]. split; [reflexivity|].
    split; [reflexivity|]. by apply fresh_by_scan.
  - assert (p = 300) as ->.
    { assert (He : c_str Debug nullChar_addr 300 demo_mem (ctor_ptr_len 206 5)
                   = Ok (300, demo_copy_mem, world_view)) by (vm_compute; reflexivity).
      rewrite He in Hc. by injection Hc as <- _ _. }
    eauto.
Defined.

Lemma substr_substr_witness :
  ('(t, _) ← substr Debug demo_mem (ctor_sz 200) 6 SIZE_MAX;
   '(r, _) ← substr Debug demo_mem t 1 3; Ok r)
  = ('(r, _) ← substr Debug demo_mem (ctor_sz 200) (6 + 1) (combined_length SIZE_MAX 1 3);
     Ok r)
  ∧ ('(r, _) ← substr Debug demo_mem (ctor_sz 200) (6 + 1) (combined_length SIZE_MAX 1 3);
     Ok r) = Ok (mk_view 3 207 0).
Proof.
  destruct demo_hello_world_valid as [Hwf Hn].
  destruct (substr_substr Debug demo_mem (ctor_sz 200) 11 6 SIZE_MAX 1 3 Hwf Hn)
    as [Heq Hsingle]; [discriminate..|].
  split; [exact Heq|]. rewrite Hsingle. reflexivity.
Defined.

Lemma op_eq_spec_witness :
  ∃ w', op_eq Debug demo_world 0 1 = Ok (true, w').
Proof.
  destruct (wf_unknown_intro demo_mem (ctor_sz 100) 3) as [Hwfa Hna]; [reflexivity..|].
  destruct (wf_known_intro demo_mem (ctor_ptr_len 140 3) [97; 98; 99]) as [Hwfc Hnc];
    [reflexivity | discriminate | reflexivity | discriminate |].
  destruct (op_eq_spec Debug demo_world 0 1 (ctor_sz 100) (ctor_ptr_len 140 3) 3 3)
    as (r & w' & _ & Hr & _ & Hiff & _); [reflexivity | reflexivity | done..|].
  exists w'. rewrite Hr. do 2 f_equal. apply Hiff. split; [reflexivity|].
  intros k Hk.
  assert (Hcases : k = 0 ∨ k = 1 ∨ k = 2) by lia.
  destruct Hcases as [->|[->| ->]]; reflexivity.
Defined.

Lemma move_spec_witness :
  construct_move demo_copy_world 1 0 =
    Ok (mk_world demo_copy_mem (<[1%nat := world_view]> (<[0%nat := mk_view 0 0 0]> (w_objs demo_copy_world)))) ∧
  ∃ m', destroy (mk_world demo_copy_mem
                   (<[1%nat := world_view]> (<[0%nat := mk_view 0 0 0]> (w_objs demo_copy_world)))) 1
        = Ok (mk_world m' (delete 1%nat (<[1%nat := world_view]> (<[0%nat := mk_view 0 0 0]> (w_objs demo_copy_world))))) ∧
        delete_array m' 300 = Fault.
Proof.
  destruct (move_spec demo_copy_world 1 0 world_view) as (Hc & _ & Hd);
    [reflexivity | discriminate |].
  split; [by apply Hc|].
  destruct (Hd demo_copy_mem) as (_ & _ & _ & Hfree).
  destruct (Hfree 6) as (m' & Hm' & _ & Hdead); [reflexivity..|].
  eauto.
Defined.

Lemma unknown_length_is_terminated_witness :
  ∃ v s, substr Debug demo_mem (ctor_sz 100) 1 SIZE_MAX = Ok (v, s) ∧
         m_Length v = SIZE_MAX ∧ m_NullTerminatedPtr v ≠ 0 ∧ m_NullTerminatedPtr v = 1.
Proof.
  exists (mk_view SIZE_MAX 101 1), (ctor_sz 100). split; [reflexivity|]. split; [reflexivity|].
  apply unknown_length_is_terminated; [|reflexivity].
  apply (produced_substr Debug demo_mem (ctor_sz 100) 1 SIZE_MAX _ (ctor_sz 100)).
  - apply produced_sz.
  - intros n s H.
    assert (He : length Debug demo_mem (ctor_sz 100) = Ok (3, mk_view 3 100 1)) by reflexivity.
    rewrite He in H. injection H as <- _. discriminate.
  - reflexivity.
Defined.

(** ** The scenarios of the specification *)

Example hello_literal :
  length Debug demo_mem (ctor_sz 200) = Ok (11, mk_view 11 200 1) ∧
  empty Debug demo_mem (ctor_sz 200) = Ok false ∧
  c_str Release nullChar_addr 300 demo_mem (ctor_sz 200) = Ok (200, demo_mem, ctor_sz 200).
Proof. repeat split; reflexivity. Qed.

Example world_slice :
  c_str Release nullChar_addr 300 demo_mem (ctor_ptr_len 206 5) = Ok (300, demo_copy_mem, world_view) ∧
  dtor demo_copy_mem world_view = Ok demo_mem ∧
  substr Release demo_mem (ctor_ptr_len 206 5) 0 3 = Ok (mk_view 3 206 0, ctor_ptr_len 206 5).
Proof. repeat split; vm_compute; reflexivity. Qed.

Example equality_by_content :
  (∃ w, op_eq Release demo_world 0 1 = Ok (true, w)) ∧
  (∃ w, op_eq Release demo_world 0 2 = Ok (false, w)) ∧
  (∃ w, op_eq Release demo_world 3 3 = Ok (true, w)).
Proof. repeat split; eexists; vm_compute; reflexivity. Qed.

(** ** Every construction path yields a valid view

    Each constructor, called as its comment in the header asks, builds a
    view that is valid for the memory it borrows from. *)

Lemma wf_known (m : memory) (len p t : N) :
  len < SIZE_MAX → readable m p len → t ≤ 1 →
  (t = 1 → load m (p + len) = Ok 0) →
  wf_view m (mk_view len p t) ∧ has_length m (mk_view len p t) len.
Proof.
  intros Hb Hr Ht Hterm. unfold wf_view, has_length. cbn [m_Length m_Begin m_NullTerminatedPtr].
  rewrite !decide_False by lia. split; [|done].
  split; [done|]. split; [done|]. split; [done|lia].
Qed.

Lemma readable_nothing (m : memory) (p : N) : readable m p 0.
Proof. intros i Hi. lia. Qed.

Lemma ctor_default_wf (m : memory) :
  wf_view m ctor_default ∧ has_length m ctor_default 0.
Proof.
  apply wf_known; [done|apply readable_nothing|lia|discriminate].
Qed.

Lemma ctor_sz_wf (m : memory) (sz n : N) :
  is_cstring m sz n → wf_view m (ctor_sz sz) ∧ has_length m (ctor_sz sz) n.
Proof.
  intros H. pose proof (cstring_bound _ _ _ H) as [Hp _].
  unfold ctor_sz. destruct (N.eqb_spec sz 0) as [|_]; [lia|].
  unfold wf_view, has_length. cbn [m_Length m_Begin m_NullTerminatedPtr].
  rewrite !decide_True by done. eauto.
Qed.

Lemma ctor_sz_null_wf (m : memory) :
  wf_view m (ctor_sz 0) ∧ has_length m (ctor_sz 0) 0.
Proof. apply ctor_default_wf. Qed.

Lemma ctor_ptr_len_wf (m : memory) (str len : N) :
  len < SIZE_MAX → readable m str len →
  wf_view m (ctor_ptr_len str len) ∧ has_length m (ctor_ptr_len str len) len.
Proof.
  intros Hb Hr. unfold ctor_ptr_len. apply wf_known; [done| |lia|discriminate].
  destruct (N.eqb_spec len 0) as [->|]; [apply readable_nothing|done].
Qed.

Lemma ctor_still_wf (b : build) (m : memory) (str len : N) (v : str_view) :
  len < SIZE_MAX → readable m str len → load m (str + len) = Ok 0 →
  ctor_still b m str len = Ok v →
  wf_view m v ∧ has_length m v len.
Proof.
  intros Hb Hr Hterm H. apply ctor_still_Ok_inv in H as ->.
  destruct (N.eqb_spec len 0) as [->|Hne].
  - apply ctor_default_wf.
  - by apply wf_known.
Qed.

Lemma ctor_string_wf (b : build) (m : memory) (str : StringT) (offset len : N) :
  string_in_memory m str → offset ≤ s_length str →
  ∃ v, ctor_string b str offset len = Ok v ∧
       wf_view m v ∧ has_length m v (N.min len (s_length str - offset)).
Proof.
  intros (Hb & Hr & Hterm) Hoff.
  rewrite ctor_string_run by (done || (unfold SIZE_MAX, size_modulus in *; lia)).
  eexists. split; [done|]. cbv zeta.
  destruct (N.eqb_spec (N.min len (s_length str - offset)) 0) as [->|Hne].
  - apply ctor_default_wf.
  - apply wf_known; [lia| | |].
    + intros i Hi. destruct (Hr (offset + i)) as (c & Hc); [lia|].
      exists c. by rewrite <- N.add_assoc.
    + destruct (_ =? _); lia.
    + destruct (N.eqb_spec (offset + N.min len (s_length str - offset)) (s_length str)) as [E|];
        [|discriminate].
      intros _. by rewrite <- N.add_assoc, E.
Qed.

Lemma ctor_move_wf (m : memory) (src : str_view) (n : N) :
  wf_view m src → has_length m src n →
  wf_view m (fst (ctor_move src)) ∧ has_length m (fst (ctor_move src)) n ∧
  wf_view m (snd (ctor_move src)) ∧ has_length m (snd (ctor_move src)) 0.
Proof.
  intros Hwf Hn. unfold ctor_move. cbn [fst snd].
  replace (mk_view (m_Length src) (m_Begin src) (m_NullTerminatedPtr src)) with src
    by (by destruct src).
  split; [done|]. split; [done|]. apply ctor_default_wf.
Qed.

(** The fields that copy assignment stores: those of the source, without
    its owned copy. *)
Lemma copy_fields_wf (m : memory) (src : str_view) (n : N) :
  wf_view m src → has_length m src n →
  let v := mk_view (m_Length src) (m_Begin src)
             (if m_NullTerminatedPtr src =? 1 then 1 else 0) in
  wf_view m v ∧ has_length m v n.
Proof.
  intros Hwf Hn. cbv zeta. revert Hwf Hn. unfold wf_view, has_length.
  cbn [m_Length m_Begin m_NullTerminatedPtr].
  destruct (decide (m_Length src = SIZE_MAX)) as [E|E].
  - intros (-> & Hc) Hn. done.
  - intros (Hb & Hr & Hterm & _) ->. split; [|done].
    split; [done|]. split; [done|].
    destruct (N.eqb_spec (m_NullTerminatedPtr src) 1); split.
    + intros _. by apply Hterm.
    + lia.
    + discriminate.
    + lia.
Qed.

(** * Further properties of the header *)

(** ** [c_str()], path by path *)

Lemma c_str_empty (b : build) (nullChar a : N) (m : memory) (v : str_view) :
  wf_view m v → has_length m v 0 → c_str b nullChar a m v = Ok (nullChar, m, v).
Proof. intros Hwf Hn. unfold c_str. by rewrite (empty_spec b m v 0). Qed.

Lemma wf_terminator (m : memory) (v : str_view) (n : N) :
  wf_view m v → has_length m v n → m_NullTerminatedPtr v = 1 →
  load m (m_Begin v + n) = Ok 0.
Proof.
  intros Hwf Hn Ht. pose proof (has_length_bound _ _ _ Hwf Hn) as Hb.
  pose proof (wf_set_Length _ _ _ Hwf Hn) as H.
  unfold wf_view in H. cbn [set_Length m_Length m_Begin m_NullTerminatedPtr] in H.
  rewrite decide_False in H by lia. by apply H.
Qed.

Lemma c_str_self_terminated (b : build) (nullChar a : N) (m : memory) (v : str_view) (n : N) :
  wf_view m v → has_length m v n → n ≠ 0 → m_NullTerminatedPtr v = 1 →
  c_str b nullChar a m v =
  Ok (m_Begin v, m, match b with Debug => set_Length n v | Release => v end).
Proof.
  intros Hwf Hn Hn0 Ht1. unfold c_str. rewrite (empty_spec b m v n) by done.
  apply N.eqb_neq in Hn0. rewrite Hn0. cbn [mbind outcome_bind].
  rewrite Ht1. cbn [N.eqb Pos.eqb]. destruct b; [|done].
  rewrite (length_spec Debug m v n) by done. cbn [mbind outcome_bind set_Length m_Begin].
  by rewrite (wf_terminator m v n).
Qed.

Lemma c_str_owned (b : build) (nullChar a : N) (m : memory) (v : str_view) (n : N) :
  wf_view m v → has_length m v n → n ≠ 0 → 1 < m_NullTerminatedPtr v →
  c_str b nullChar a m v = Ok (m_NullTerminatedPtr v, m, v).
Proof.
  intros Hwf Hn Hn0 Ht. unfold c_str. rewrite (empty_spec b m v n) by done.
  apply N.eqb_neq in Hn0. rewrite Hn0. cbn [mbind outcome_bind].
  destruct (N.eqb_spec (m_NullTerminatedPtr v) 1); [lia|].
  destruct (N.eqb_spec (m_NullTerminatedPtr v) 0); [lia|done].
Qed.

Lemma unmap_cells_lookup (k : nat) :
  ∀ (h : gmap N N) p q,
  unmap_cells h p k !! q =
  if decide (p ≤ q ∧ q < p + N.of_nat k) then None else h !! q.
Proof.
  induction k as [|k IH]; intros h p q; simpl.
  - case_decide; [lia|done].
  - destruct (decide (p = q)) as [->|Hne].
    + rewrite lookup_delete_eq. case_decide; [done|lia].
    + rewrite lookup_delete_ne by done. rewrite IH.
      repeat case_decide; done || lia.
Qed.

(** The allocating path again, with everything it does to memory: the new
    array holds the code units of the view and the terminator, and no other
    cell changes. *)
Lemma c_str_allocates_exact (b : build) (nullChar a : N) (m : memory) (v : str_view) :
  wf_view m v → m_NullTerminatedPtr v = 0 → m_Length v ≠ 0 →
  alloc_fresh m a (m_Length v + 1) →
  ∃ m', c_str b nullChar a m v = Ok (a, m', set_NullTerminatedPtr a v) ∧
        blocks m' = <[a := m_Length v + 1]> (blocks m) ∧
        (∀ q, ¬ (a ≤ q ∧ q < a + (m_Length v + 1)) → cells m' !! q = cells m !! q) ∧
        (∀ q, a ≤ q ∧ q < a + (m_Length v + 1) → is_Some (cells m' !! q)).
Proof.
  intros Hwf Ht Hne Hfresh.
  destruct (c_str_allocates b nullChar a m v Hwf Ht Hne Hfresh)
    as (m' & Hc & Hblocks & Hframe & Hcopy & Hterm).
  exists m'. split; [done|]. split; [done|].
  destruct Hfresh as (Ha & Hspace & Heven & Hblock & Hfresh).
  assert (Hknown : m_Length v ≠ SIZE_MAX).
  { intros E. apply (wf_unknown_terminated _ _ Hwf) in E. congruence. }
  pose proof Hwf as Hwf0. unfold wf_view in Hwf. rewrite decide_False in Hwf by done.
  destruct Hwf as (Hb & Hread & _).
  split.
  - (* replay the definition to see the cells outside the array *)
    intros q Hq. revert Hc. unfold c_str.
    rewrite (empty_spec b m v (m_Length v))
      by (done || (unfold has_length; by rewrite decide_False)).
    apply N.eqb_neq in Hne. rewrite Hne. cbn [mbind outcome_bind].
    rewrite Ht. cbn [N.eqb].
    rewrite (assert_Ok_pure b (negb (m_Length v =? SIZE_MAX)))
      by (by apply negb_true_iff, N.eqb_neq).
    rewrite (assert_Ok_pure b (N.land a 1 =? 0)) by (by apply N.eqb_eq).
    cbn [mbind outcome_bind].
    rewrite size_add_small by (unfold size_modulus, SIZE_MAX in *; lia).
    unfold memcpy. intros Hc.
    apply bind_Ok in Hc as (m2 & Hm2 & Hc). apply bind_Ok in Hm2 as (cs & Hcs & Hw).
    apply bind_Ok in Hc as (m3 & Hm3 & Hc). cbn in Hc. injection Hc as <-.
    apply read_range_Ok in Hcs as [Hlen _].
    assert (Hm3' : cells m3 !! q = cells m2 !! q).
    { unfold store in Hm3. destruct (valid_addr (a + m_Length v)); [|discriminate].
      destruct (cells m2 !! (a + m_Length v)); [|discriminate].
      injection Hm3 as <-. cbn [cells]. rewrite lookup_insert_ne; [done|lia]. }
    rewrite Hm3'. clear Hm3 Hm3'.
    assert (Hm2' : cells m2 !! q = cells (new_array m a (m_Length v + 1)) !! q).
    { revert Hw. generalize (new_array m a (m_Length v + 1)). intros m1 Hw.
      assert (Hgen : ∀ cs p m1 m2, write_range m1 p cs = Ok m2 →
                 (q < p ∨ p + N.of_nat (List.length cs) ≤ q) →
                 cells m2 !! q = cells m1 !! q).
      { clear. induction cs as [|c cs IH]; intros p m1 m2 Hw Hq; simpl in Hw.
        - by injection Hw as <-.
        - apply bind_Ok in Hw as (mx & Hmx & Hw).
          rewrite (IH _ _ _ Hw) by (simpl in Hq; lia).
          unfold store in Hmx. destruct (valid_addr p); [|discriminate].
          destruct (cells m1 !! p); [|discriminate]. injection Hmx as <-.
          cbn [cells]. rewrite lookup_insert_ne; [done|]. simpl in Hq. lia. }
      apply (Hgen _ _ _ _ Hw). lia. }
    rewrite Hm2'. unfold new_array. cbn [cells]. rewrite map_cells_lookup, N2Nat.id.
    by rewrite decide_False.
  - intros q Hq. destruct (N.eq_dec q (a + m_Length v)) as [->|Hq'].
    + apply load_Ok in Hterm as (_ & _ & Hterm). eauto.
    + specialize (Hcopy (q - a) ltac:(lia)).
      destruct (Hread (q - a) ltac:(lia)) as (c & Hc').
      rewrite Hc' in Hcopy. replace (a + (q - a)) with q in Hcopy by lia.
      apply load_Ok in Hcopy as (_ & _ & Hcopy). eauto.
Qed.

Lemma c_str_allocates_wf (m m' : memory) (v : str_view) (a : N) :
  wf_view m v → m_Length v ≠ SIZE_MAX → a ≠ 1 →
  blocks m' = <[a := m_Length v + 1]> (blocks m) →
  (∀ q, is_Some (cells m !! q) → cells m' !! q = cells m !! q) →
  (∀ i, i < m_Length v → load m' (a + i) = load m (m_Begin v + i)) →
  load m' (a + m_Length v) = Ok 0 →
  wf_view m' (set_NullTerminatedPtr a v).
Proof.
  intros Hwf Hknown Ha1 Hblocks Hframe Hcopy Hterm.
  unfold wf_view in Hwf. rewrite decide_False in Hwf by done.
  destruct Hwf as (Hb & Hread & _).
  unfold wf_view. cbn [set_NullTerminatedPtr m_Length m_Begin m_NullTerminatedPtr].
  rewrite decide_False by done. split; [done|]. split; [|split].
  - intros i Hi. destruct (Hread i Hi) as (c & Hc'). exists c. by apply (load_frame m).
  - intros E. congruence.
  - intros _. unfold owns_copy.
    cbn [set_NullTerminatedPtr m_Length m_Begin m_NullTerminatedPtr].
    split; [by rewrite Hblocks, lookup_insert_eq|]. split; [|done].
    intros i Hi. destruct (Hread i Hi) as (c & Hc'). exists c.
    split; [by rewrite Hcopy|by apply (load_frame m)].
Qed.

Lemma wf_not_terminated_known (m : memory) (v : str_view) (n : N) :
  wf_view m v → has_length m v n → m_NullTerminatedPtr v ≠ 1 →
  m_Length v ≠ SIZE_MAX ∧ n = m_Length v.
Proof.
  intros Hwf Hn Ht.
  assert (Hknown : m_Length v ≠ SIZE_MAX).
  { intros E. by apply (wf_unknown_terminated _ _ Hwf) in E. }
  split; [done|]. unfold has_length in Hn. by rewrite decide_False in Hn.
Qed.

(** X1.  The string [c_str()] returns holds the code units of the view, in
    order, and [c_str()] leaves every cell that could be read before with
    the value it had. *)
Theorem c_str_same_content (b : build) (nullChar a : N) (m : memory) (v : str_view) (n : N) :
  wf_view m v → has_length m v n →
  (n ≠ 0 → m_NullTerminatedPtr v = 0 → alloc_fresh m a (n + 1)) →
  ∃ p m' v',
    c_str b nullChar a m v = Ok (p, m', v') ∧
    (∀ i, i < n → ∃ c, load m' (p + i) = Ok c ∧ load m (m_Begin v + i) = Ok c) ∧
    (∀ q c, load m q = Ok c → load m' q = Ok c).
Proof.
  intros Hwf Hn Hfresh.
  destruct (N.eq_dec n 0) as [->|Hn0].
  { eexists _, _, _. split; [by apply c_str_empty|]. split; [intros i Hi; lia|done]. }
  pose proof (wf_readable _ _ _ Hwf Hn) as Hread.
  destruct (N.eq_dec (m_NullTerminatedPtr v) 1) as [Ht1|Ht1].
  { eexists _, _, _. split; [by apply c_str_self_terminated|]. split; [|done].
    intros i Hi. destruct (Hread i Hi) as (c & Hc). eauto. }
  destruct (wf_not_terminated_known _ _ _ Hwf Hn Ht1) as [Hknown ->].
  destruct (N.eq_dec (m_NullTerminatedPtr v) 0) as [Ht0|Ht0].
  - destruct (c_str_allocates b nullChar a m v Hwf Ht0 Hn0 (Hfresh Hn0 Ht0))
      as (m' & Hc & _ & Hframe & Hcopy & _).
    eexists _, _, _. split; [exact Hc|]. split.
    + intros i Hi. destruct (Hread i Hi) as (c & Hc'). exists c.
      split; [by rewrite Hcopy|done].
    + intros q c Hq. by apply (load_frame m).
  - eexists _, _, _. split; [apply (c_str_owned b _ _ m v (m_Length v)); done || lia|].
    split; [|done].
    unfold wf_view in Hwf. rewrite decide_False in Hwf by done.
    destruct Hwf as (_ & _ & _ & Hown). destruct (Hown ltac:(lia)) as (_ & Hsame & _).
    intros i Hi. destruct (Hsame i Hi) as (c & Hc1 & Hc2). eauto.
Qed.

(** X2.  [c_str()] settles after one call: called again on the view it left,
    whatever the allocator would offer, it returns the same pointer and
    changes neither the memory nor the view. *)
Theorem c_str_idempotent (b : build) (nullChar a : N) (m : memory) (v : str_view) (n : N) :
  wf_view m v → has_length m v n →
  (n ≠ 0 → m_NullTerminatedPtr v = 0 → alloc_fresh m a (n + 1)) →
  ∃ p m' v',
    c_str b nullChar a m v = Ok (p, m', v') ∧
    ∀ a', c_str b nullChar a' m' v' = Ok (p, m', v').
Proof.
  intros Hwf Hn Hfresh.
  pose proof (has_length_bound _ _ _ Hwf Hn) as Hb.
  destruct (N.eq_dec n 0) as [->|Hn0].
  { eexists _, _, _. split; [by apply c_str_empty|]. intros a'. by apply c_str_empty. }
  destruct (N.eq_dec (m_NullTerminatedPtr v) 1) as [Ht1|Ht1].
  { eexists _, _, _. split; [by apply c_str_self_terminated|]. intros a'.
    destruct b.
    - rewrite (c_str_self_terminated Debug _ _ m (set_Length n v) n);
        [done | by apply wf_set_Length | by apply has_length_set_Length | done | done].
    - by apply (c_str_self_terminated Release _ _ m v n). }
  destruct (wf_not_terminated_known _ _ _ Hwf Hn Ht1) as [Hknown ->].
  destruct (N.eq_dec (m_NullTerminatedPtr v) 0) as [Ht0|Ht0].
  - specialize (Hfresh Hn0 Ht0).
    destruct (c_str_allocates b nullChar a m v Hwf Ht0 Hn0 Hfresh)
      as (m' & Hc & Hblocks & Hframe & Hcopy & Hterm).
    destruct Hfresh as (Ha & _ & Heven & _).
    pose proof (even_not_one _ Heven) as Ha1.
    pose proof (c_str_allocates_wf m m' v a Hwf Hknown Ha1 Hblocks Hframe Hcopy Hterm) as Hwf'.
    eexists _, _, _. split; [exact Hc|]. intros a'.
    apply (c_str_owned b nullChar a' m' (set_NullTerminatedPtr a v) (m_Length v));
      [done| |done|].
    + unfold has_length. cbn [set_NullTerminatedPtr m_Length]. by rewrite decide_False.
    + cbn [set_NullTerminatedPtr m_NullTerminatedPtr]. lia.
  - eexists _, _, _.
    split; [apply (c_str_owned b _ _ m v (m_Length v)); done || lia|].
    intros a'. apply (c_str_owned b _ _ m v (m_Length v)); done || lia.
Qed.

Lemma memory_eq (m m' : memory) :
  cells m' = cells m → blocks m' = blocks m → m' = m.
Proof. destruct m, m'. simpl. by intros -> ->. Qed.

(** X3.  No trace is left: for a view that owns no copy, [c_str()] followed
    by the destructor gives back the memory as it was before, cell for cell
    and array for array. *)
Theorem c_str_then_dtor (b : build) (nullChar a : N) (m : memory) (v : str_view) (n : N) :
  wf_view m v → has_length m v n → m_NullTerminatedPtr v ≤ 1 →
  (n ≠ 0 → m_NullTerminatedPtr v = 0 → alloc_fresh m a (n + 1)) →
  ∃ p m' v',
    c_str b nullChar a m v = Ok (p, m', v') ∧ dtor m' v' = Ok m.
Proof.
  intros Hwf Hn Hle Hfresh.
  destruct (N.eq_dec n 0) as [->|Hn0].
  { eexists _, _, _. split; [by apply c_str_empty|]. by apply dtor_not_owning. }
  destruct (N.eq_dec (m_NullTerminatedPtr v) 1) as [Ht1|Ht1].
  { eexists _, _, _. split; [by apply c_str_self_terminated|].
    apply dtor_not_owning. destruct b; cbn [set_Length m_NullTerminatedPtr]; lia. }
  assert (Ht0 : m_NullTerminatedPtr v = 0) by lia.
  destruct (wf_not_terminated_known _ _ _ Hwf Hn Ht1) as [Hknown ->].
  specialize (Hfresh Hn0 Ht0).
  destruct (c_str_allocates_exact b nullChar a m v Hwf Ht0 Hn0 Hfresh)
    as (m' & Hc & Hblocks & Hout & Hin).
  destruct Hfresh as (Ha & _ & Heven & Hblock & Hfresh).
  pose proof (even_not_one _ Heven) as Ha1.
  eexists _, _, _. split; [exact Hc|].
  rewrite dtor_owning by (cbn [set_NullTerminatedPtr m_NullTerminatedPtr]; lia).
  cbn [set_NullTerminatedPtr m_NullTerminatedPtr].
  unfold delete_array. rewrite Hblocks, lookup_insert_eq. f_equal.
  apply memory_eq; cbn [cells blocks].
  - apply map_eq. intros q. rewrite unmap_cells_lookup, N2Nat.id.
    case_decide as Hq.
    + symmetry. specialize (Hfresh (q - a) ltac:(lia)).
      by replace (a + (q - a)) with q in Hfresh by lia.
    + by apply Hout.
  - by apply delete_insert_id.
Qed.

(** ** [length()], [empty()] and element access *)

(** X4.  [length()] on a valid view returns the number of code units the
    view denotes -- for a view built from a null-terminated string, the
    number of code units before the first terminator -- and stores it: the
    view it leaves is valid, has that length cached and the same begin and
    termination, and [length()] on it returns the same number without
    changing anything. *)
Theorem length_caches (b : build) (m : memory) (v : str_view) (n : N) :
  wf_view m v → has_length m v n →
  ∃ v', length b m v = Ok (n, v') ∧
        m_Length v' = n ∧ m_Begin v' = m_Begin v ∧
        m_NullTerminatedPtr v' = m_NullTerminatedPtr v ∧
        wf_view m v' ∧
        length b m v' = Ok (n, v').
Proof.
  intros Hwf Hn. pose proof (has_length_bound _ _ _ Hwf Hn) as Hb.
  exists (set_Length n v). split; [by apply length_spec|].
  split; [done|]. split; [done|]. split; [done|].
  split; [by apply wf_set_Length|].
  rewrite (length_spec b m (set_Length n v) n);
    [done | by apply wf_set_Length | by apply has_length_set_Length].
Qed.

(** X5.  [empty()] answers what [length() == 0] would answer, on every valid
    view and in both builds. *)
Theorem empty_iff_length_zero (b : build) (m : memory) (v : str_view) :
  wf_view m v →
  ∃ n v', length b m v = Ok (n, v') ∧ empty b m v = Ok (n =? 0).
Proof.
  intros Hwf. destruct (wf_has_length _ _ Hwf) as (n & Hn).
  exists n, (set_Length n v). split; [by apply length_spec|by apply empty_spec].
Qed.

(** X6.  On a view of unknown length [empty()] reads one code unit only: it
    answers as long as the first code unit can be read, also where
    [length()] faults because no terminator follows. *)
Theorem empty_peeks_first (b : build) (m : memory) (v : str_view) (c : N) :
  m_Length v = SIZE_MAX → m_NullTerminatedPtr v = 1 →
  load m (m_Begin v) = Ok c →
  empty b m v = Ok (c =? 0) ∧
  ((∀ k, ¬ is_cstring m (m_Begin v) k) → ∀ k v', length b m v ≠ Ok (k, v')).
Proof.
  intros E Ht Hc. split.
  - unfold empty. rewrite E, N.eqb_refl, Ht.
    rewrite assert_Ok_pure by done. cbn [mbind outcome_bind].
    apply load_Ok in Hc as Hc'. destruct (N.eqb_spec (m_Begin v) 0) as [E0|_]; [lia|].
    by rewrite Hc.
  - intros Hno k v' H. apply (Hno k).
    unfold length in H. rewrite E, N.eqb_refl in H.
    apply bind_Ok in H as ([] & _ & H). apply bind_Ok in H as (n' & Hn' & [= <- _]).
    by apply tstrlen_sound.
Qed.

(** X7.  [operator[]] and [at] read the code unit at the given index of a
    valid view, for every index below the length, and do not check the
    index: at index [length()] of a self-terminated view both return the
    terminator. *)
Theorem at_reads_unit (m : memory) (v : str_view) (n : N) :
  wf_view m v → has_length m v n →
  (∀ i, i < n → ∃ c, at_ m v i = Ok c ∧ op_index m v i = Ok c ∧
                     load m (m_Begin v + i) = Ok c) ∧
  (m_NullTerminatedPtr v = 1 → at_ m v n = Ok 0 ∧ op_index m v n = Ok 0).
Proof.
  intros Hwf Hn. split.
  - intros i Hi. destruct (wf_readable _ _ _ Hwf Hn i Hi) as (c & Hc).
    exists c. by unfold at_, op_index.
  - intros Ht. unfold at_, op_index. by rewrite (wf_terminator m v n).
Qed.

(** X8.  Range consistency: on a valid view [end()] is [begin()] plus
    [length()], and on a non-empty one [back()] is the address of its last
    code unit, one below [end()], and can be read. *)
Theorem end_minus_begin (b : build) (m : memory) (v : str_view) (n : N) :
  wf_view m v → has_length m v n →
  ∃ e v', end_ b m v = Ok (e, v') ∧ e - begin v = n ∧ begin v' = begin v ∧
          (n ≠ 0 → ∃ l c, back b m v = Ok (l, v') ∧ l + 1 = e ∧ load m l = Ok c).
Proof.
  intros Hwf Hn. pose proof (has_length_bound _ _ _ Hwf Hn) as Hb.
  exists (m_Begin v + n), (set_Length n v).
  unfold end_, back, begin. rewrite (length_spec b m v n) by done.
  cbn [mbind outcome_bind set_Length m_Begin].
  split; [done|]. split; [lia|]. split; [done|].
  intros Hn0. rewrite size_sub_small by (unfold size_modulus, SIZE_MAX in *; lia).
  destruct (wf_readable _ _ _ Hwf Hn (n - 1)) as (c & Hc); [lia|].
  exists (m_Begin v + (n - 1)), c. split; [done|]. split; [lia|done].
Qed.

(** ** [copy_to] and [to_string] *)

Lemma readable_shift (m : memory) (p n o k : N) :
  readable m p n → o + k ≤ n → readable m (p + o) k.
Proof.
  intros H Hk i Hi. destruct (H (o + i)) as (c & Hc); [lia|].
  exists c. by rewrite <- N.add_assoc.
Qed.

(** X9.  [copy_to] copies the code units of the view from [offset] on, as
    many as requested but no more than are left, into the destination and
    returns their number.  It writes nothing else: no terminator behind the
    copy, no other cell, no array. *)
Theorem copy_to_spec (b : build) (m : memory) (v : str_view) (n dst offset len : N) :
  wf_view m v → has_length m v n → offset ≤ n →
  let k := N.min len (n - offset) in
  readable m dst k →
  (∀ i j, i < k → j < k → dst + i ≠ m_Begin v + offset + j) →
  ∃ m', copy_to b m v dst offset len = Ok (k, m', set_Length n v) ∧
        blocks m' = blocks m ∧
        (∀ i, i < k → ∃ c, load m' (dst + i) = Ok c ∧
                           load m (m_Begin v + offset + i) = Ok c) ∧
        (∀ q, q < dst ∨ dst + k ≤ q → cells m' !! q = cells m !! q).
Proof.
  intros Hwf Hn Hoff k Hdst _.
  pose proof (has_length_bound _ _ _ Hwf Hn) as Hb.
  pose proof (wf_readable _ _ _ Hwf Hn) as Hread.
  assert (Hsrc : readable m (m_Begin v + offset) k) by (apply (readable_shift m _ n); [done|lia]).
  destruct (read_range_readable m (N.to_nat k) (m_Begin v + offset)) as (cs & Hcs).
  { intros i Hi. apply Hsrc. lia. }
  pose proof (read_range_Ok _ _ _ _ Hcs) as [Hlen Hget].
  destruct (write_range_spec cs m dst) as (m' & Hw & Hblocks & Hin & Hout).
  { intros i Hi. destruct (Hdst (N.of_nat i)) as (c & Hc); [lia|].
    apply load_Ok in Hc as (H1 & H2 & H3). split; [by apply valid_addr_true|eauto]. }
  exists m'. split; [|split; [done|split]].
  - unfold copy_to. rewrite (length_spec b m v n) by done. cbn [mbind outcome_bind].
    rewrite assert_Ok_pure by (by apply N.leb_le). cbn [mbind outcome_bind].
    rewrite size_sub_small by (unfold size_modulus, SIZE_MAX in *; lia).
    cbn [set_Length m_Begin]. fold k. unfold memcpy. rewrite Hcs. cbn [mbind outcome_bind].
    by rewrite Hw.
  - intros i Hi. destruct (lookup_lt_is_Some_2 cs (N.to_nat i)) as [c Hc]; [lia|].
    exists c. pose proof (Hget _ _ Hc) as Hc1. pose proof (Hin _ _ Hc) as Hc2.
    rewrite N2Nat.id in Hc1, Hc2. split; [|done].
    destruct (Hdst i Hi) as (c0 & Hc0). apply load_Ok in Hc0 as (H1 & H2 & _).
    by apply load_Ok.
  - intros q Hq. apply Hout. lia.
Qed.

(** X10.  [to_string] hands [dst] exactly the code units of the view:
    [length()] of them, the i-th being the i-th code unit from [begin()]. *)
Theorem to_string_spec (b : build) (m : memory) (v : str_view) (n : N) :
  wf_view m v → has_length m v n →
  ∃ cs, to_string b m v = Ok (cs, set_Length n v) ∧
        N.of_nat (List.length cs) = n ∧
        ∀ i c, cs !! i = Some c → load m (m_Begin v + N.of_nat i) = Ok c.
Proof.
  intros Hwf Hn. pose proof (wf_readable _ _ _ Hwf Hn) as Hread.
  destruct (read_range_readable m (N.to_nat n) (m_Begin v)) as (cs & Hcs).
  { intros i Hi. apply Hread. lia. }
  pose proof (read_range_Ok _ _ _ _ Hcs) as [Hlen Hget].
  exists cs. split; [|split; [lia|done]].
  unfold to_string, end_, begin. rewrite (length_spec b m v n) by done.
  cbn [mbind outcome_bind set_Length m_Begin].
  replace (m_Begin v + n - m_Begin v) with n by lia. by rewrite Hcs.
Qed.

(** ** Slices *)

(** X11.  The slicing copy constructor, in both builds: the new view is
    valid, never owns a copy, has the requested length clamped to what is
    left of the source, and its i-th code unit is the code unit
    [offset + i] of the source; the source stays valid with the same
    length. *)
Theorem ctor_copy_content (b : build) (m : memory) (src : str_view) (n offset len : N) :
  wf_view m src → has_length m src n → offset ≤ n →
  let k := N.min len (n - offset) in
  ∃ r src', ctor_copy b m src offset len = Ok (r, src') ∧
            wf_view m r ∧ has_length m r k ∧ m_NullTerminatedPtr r ≤ 1 ∧
            (∀ i, i < k → ∃ c, load m (m_Begin r + i) = Ok c ∧
                               load m (m_Begin src + offset + i) = Ok c) ∧
            wf_view m src' ∧ has_length m src' n.
Proof.
  intros Hwf Hn Hoff k. pose proof (has_length_bound _ _ _ Hwf Hn) as Hb.
  eexists _, _. split; [by apply ctor_copy_spec|].
  split; [by apply slice_result_wf|]. split; [by apply slice_result_length|].
  split; [apply slice_result_rule|]. split; [|split].
  - intros i Hi.
    destruct (slice_result_same_clamp m src n offset len len Hwf Hn Hoff eq_refl)
      as (_ & _ & Hbegin).
    destruct (Hbegin ltac:(fold k; lia)) as [-> _].
    destruct (wf_readable _ _ _ Hwf Hn (offset + i)) as (c & Hc); [lia|].
    exists c. by rewrite <- N.add_assoc.
  - unfold slice_source. destruct (_ && _); [done|by apply wf_set_Length].
  - unfold slice_source. destruct (_ && _); [done|by apply has_length_set_Length].
Qed.

(** X12.  [substr] and the slicing copy constructor are the same function
    wherever [substr] returns: without assertions they agree on every valid
    source and offset in range, and with assertions [substr] either agrees
    or stops on the null read of its empty self-terminated result. *)
Theorem substr_agrees_with_ctor_copy (b : build) (m : memory) (v : str_view) (n offset len : N) :
  wf_view m v → has_length m v n → offset ≤ n →
  substr Release m v offset len = ctor_copy b m v offset len ∧
  (substr Debug m v offset len = ctor_copy b m v offset len ∨
   (substr Debug m v offset len = Fault ∧
    m_NullTerminatedPtr v = 1 ∧ offset = n ∧
    ctor_copy b m v offset len = Ok (mk_view 0 0 0, set_Length n v))).
Proof.
  intros Hwf Hn Hoff.
  rewrite !(substr_spec _ m v n offset len), (ctor_copy_spec b m v n offset len) by done.
  split; [done|].
  destruct (substr_asserts_on_null Debug v n offset len) eqn:E; [right|by left].
  unfold substr_asserts_on_null in E.
  apply andb_true_iff in E as [E E3]. apply andb_true_iff in E as [E1 E2].
  apply N.eqb_eq in E2, E3. apply negb_true_iff in E1. subst offset.
  split; [done|]. split; [done|]. split; [done|].
  assert (Hk : m_Length v ≠ SIZE_MAX ∨ len ≠ SIZE_MAX).
  { destruct (N.eq_dec (m_Length v) SIZE_MAX) as [EL|]; [|by left].
    right. intros ->. by rewrite EL in E1. }
  rewrite slice_result_known by done. rewrite N.sub_diag, N.min_0_r. cbn.
  unfold slice_source. by rewrite E1.
Qed.

(** ** What the assertions catch, and what they do not *)

(** X13.  An offset beyond the length is stopped by the assertion, in a build
    with assertions, wherever the length of the source gets resolved: in
    [substr] and the slicing copy constructor unless the slice is lazy, and
    in [copy_to] always. *)
Theorem offset_out_of_range_asserts (m : memory) (v : str_view) (n dst offset len : N) :
  wf_view m v → has_length m v n → n < offset →
  copy_to Debug m v dst offset len = AssertFail ∧
  (m_Length v ≠ SIZE_MAX ∨ len ≠ SIZE_MAX →
   substr Debug m v offset len = AssertFail ∧
   ctor_copy Debug m v offset len = AssertFail).
Proof.
  intros Hwf Hn Hoff.
  assert (Hleb : (offset <=? n) = false) by (apply N.leb_gt; lia).
  split.
  - unfold copy_to. rewrite (length_spec Debug m v n) by done. cbn. by rewrite Hleb.
  - intros Hk.
    assert (Hlazy : (m_Length v =? SIZE_MAX) && (len =? SIZE_MAX) = false).
    { destruct ((m_Length v =? SIZE_MAX) && (len =? SIZE_MAX)) eqn:E; [|done].
      apply slice_lazy_cases in E. lia. }
    unfold substr, ctor_copy. rewrite Hlazy, (length_spec Debug m v n) by done.
    cbn. by rewrite Hleb.
Qed.

(** X14.  A lazy slice is never checked: [substr] and the slicing copy
    constructor of a view of unknown length, asked for everything from
    [offset] on, return in both builds for every offset that keeps
    [begin + offset] inside the address space, without reading memory; for
    such an offset beyond the length the view they return begins behind the
    terminator of the source. *)
Theorem lazy_slice_unchecked (b : build) (m : memory) (v : str_view) (n offset : N) :
  wf_view m v → has_length m v n → m_Length v = SIZE_MAX →
  m_Begin v + offset < size_modulus →
  let r := mk_view SIZE_MAX (m_Begin v + offset) 1 in
  substr b m v offset SIZE_MAX = Ok (r, v) ∧
  ctor_copy b m v offset SIZE_MAX = Ok (r, v) ∧
  (n < offset → m_Begin v + n < m_Begin r).
Proof.
  intros Hwf Hn E _ r.
  pose proof (wf_unknown_terminated _ _ Hwf E) as Ht.
  unfold has_length in Hn. rewrite decide_True in Hn by done.
  apply cstring_bound in Hn as [Hp _].
  unfold substr, ctor_copy, ctor_sz. rewrite E, !N.eqb_refl, Ht. cbn [andb].
  rewrite !assert_Ok_pure by done. cbn [mbind outcome_bind].
  destruct (N.eqb_spec (m_Begin v + offset) 0) as [|_]; [lia|].
  split; [done|]. split; [done|]. unfold r. cbn [m_Begin]. lia.
Qed.

(** X15.  A view whose length is unknown and which is not self-terminated
    -- what the pointer + length constructor builds from the length
    [SIZE_MAX] -- is stopped by the first assertion of every member that
    needs its length, in a build with assertions. *)
Theorem unknown_not_terminated_asserts (m : memory) (v : str_view)
    (nullChar a dst offset len : N) :
  m_Length v = SIZE_MAX → m_NullTerminatedPtr v ≠ 1 →
  length Debug m v = AssertFail ∧
  empty Debug m v = AssertFail ∧
  c_str Debug nullChar a m v = AssertFail ∧
  substr Debug m v offset len = AssertFail ∧
  ctor_copy Debug m v offset len = AssertFail ∧
  copy_to Debug m v dst offset len = AssertFail ∧
  end_ Debug m v = AssertFail.
Proof.
  intros E Ht. apply N.eqb_neq in Ht.
  assert (Hlen : length Debug m v = AssertFail).
  { unfold length. rewrite E, N.eqb_refl. cbn. by rewrite Ht. }
  assert (Hempty : empty Debug m v = AssertFail).
  { unfold empty. rewrite E, N.eqb_refl. cbn. by rewrite Ht. }
  split; [done|]. split; [done|].
  split; [unfold c_str; by rewrite Hempty|].
  split; [|split; [|split]].
  - unfold substr. rewrite E, N.eqb_refl. cbn [andb].
    destruct (len =? SIZE_MAX); [cbn; by rewrite Ht|by rewrite Hlen].
  - unfold ctor_copy. rewrite E, N.eqb_refl. cbn [andb].
    destruct (len =? SIZE_MAX); [cbn; by rewrite Ht|by rewrite Hlen].
  - unfold copy_to. by rewrite Hlen.
  - unfold end_. by rewrite Hlen.
Qed.

(** ** Copy assignment and inequality *)

(** X16.  Copy assignment between two objects gives the destination the
    begin and the length cache of the source and, of its termination, only
    whether it is self-terminated: never the copy the source owns.  The
    source is untouched, what the destination owned is released, and
    destroying the destination afterwards releases nothing. *)
Theorem copy_assign_spec (w : world) (this src : nat) (t s : str_view) (m : memory) :
  src ≠ this → w_objs w !! this = Some t → w_objs w !! src = Some s →
  dtor (w_mem w) t = Ok m →
  ∃ c, copy_assign w this src = Ok (mk_world m (<[this := c]> (w_objs w))) ∧
       m_Length c = m_Length s ∧ m_Begin c = m_Begin s ∧
       m_NullTerminatedPtr c ≤ 1 ∧
       (m_NullTerminatedPtr c = 1 ↔ m_NullTerminatedPtr s = 1) ∧
       <[this := c]> (w_objs w) !! src = Some s ∧
       destroy (mk_world m (<[this := c]> (w_objs w))) this
         = Ok (mk_world m (delete this (<[this := c]> (w_objs w)))).
Proof.
  intros Hne Ht Hs Hm.
  rewrite (copy_assign_distinct w this src t s) by done. rewrite Hm.
  cbn [mbind outcome_bind]. eexists. split; [done|].
  cbn [m_Length m_Begin m_NullTerminatedPtr].
  split; [done|]. split; [done|].
  split; [destruct (_ =? _); lia|]. split.
  - destruct (N.eqb_spec (m_NullTerminatedPtr s) 1); split; done || lia.
  - split; [by rewrite lookup_insert_ne|].
    unfold destroy, obj. cbn [w_objs w_mem]. rewrite lookup_insert_eq.
    cbn [mbind outcome_bind]. rewrite dtor_not_owning; [done|].
    cbn [m_NullTerminatedPtr]. destruct (_ =? _); lia.
Qed.

(** X17.  [operator!=] on two valid views answers [true] exactly when their
    lengths differ or, with equal lengths, some code unit differs; it is the
    negation of [operator==] and leaves the same caches. *)
Theorem op_ne_spec (b : build) (w : world) (i j : nat) (a c : str_view) (na nc : N) :
  w_objs w !! i = Some a → w_objs w !! j = Some c →
  wf_view (w_mem w) a → wf_view (w_mem w) c →
  has_length (w_mem w) a na → has_length (w_mem w) c nc →
  ∃ r w', op_ne b w i j = Ok (r, w') ∧ op_eq b w i j = Ok (negb r, w') ∧
          (r = true ↔ ¬ (na = nc ∧ same_range (w_mem w) (m_Begin a) (m_Begin c) na)).
Proof.
  intros Hi Hj Hwfa Hwfc Hna Hnc.
  destruct (op_eq_run b w i j a c na nc) as (e & He & Hiff); try done.
  eexists (negb e), _. unfold op_ne. rewrite He. cbn [mbind outcome_bind].
  split; [done|]. split; [by rewrite negb_involutive|].
  rewrite <- Hiff. destruct e; split; simpl; done.
Qed.

(** ** Constructors *)

(** X18.  What each constructor builds when called as the header asks: the
    default constructor and the one from a null pointer the empty view; the
    one from a null-terminated string a valid view of the length of the
    string, which it does not compute; the one from a pointer and a length
    a valid view of that length; the one from a [std::string] a valid view
    of the clamped length.  The constructor from a pointer, a length and
    [StillNullTerminated] builds a valid view of that length when the
    length is not zero or the build has no assertions; for the length zero,
    which the header allows, in a build with assertions it builds no view:
    its assertion reads through the null pointer. *)
Theorem constructors_valid (b : build) (m : memory) :
  (wf_view m ctor_default ∧ has_length m ctor_default 0) ∧
  (wf_view m (ctor_sz 0) ∧ has_length m (ctor_sz 0) 0) ∧
  (∀ sz n, is_cstring m sz n →
     wf_view m (ctor_sz sz) ∧ has_length m (ctor_sz sz) n ∧
     m_Length (ctor_sz sz) = SIZE_MAX) ∧
  (∀ str len, len < SIZE_MAX → readable m str len →
     wf_view m (ctor_ptr_len str len) ∧ has_length m (ctor_ptr_len str len) len) ∧
  (∀ str len, len < SIZE_MAX → readable m str len → load m (str + len) = Ok 0 →
     len ≠ 0 ∨ b = Release →
     ∃ v, ctor_still b m str len = Ok v ∧ wf_view m v ∧ has_length m v len) ∧
  (∀ str, ctor_still Debug m str 0 = Fault) ∧
  (∀ str offset len, string_in_memory m str → offset ≤ s_length str →
     ∃ v, ctor_string b str offset len = Ok v ∧
          wf_view m v ∧ has_length m v (N.min len (s_length str - offset))).
Proof.
  split; [apply ctor_default_wf|]. split; [apply ctor_sz_null_wf|].
  split; [|split; [|split; [|split]]].
  - intros sz n H. destruct (ctor_sz_wf m sz n H) as [H1 H2].
    split; [done|]. split; [done|].
    apply cstring_bound in H as [Hp _]. unfold ctor_sz.
    by destruct (N.eqb_spec sz 0) as [|_]; [lia|].
  - intros str len. apply ctor_ptr_len_wf.
  - intros str len Hb Hr Hterm Hcase.
    assert (Hok : ∃ v, ctor_still b m str len = Ok v).
    { destruct Hcase as [Hne| ->].
      - rewrite ctor_still_terminated by done. eauto.
      - rewrite ctor_still_Release. eauto. }
    destruct Hok as (v & Hv). exists v. split; [done|]. by eapply ctor_still_wf.
  - intros str. apply ctor_still_Debug_empty.
  - intros str offset len. apply ctor_string_wf.
Qed.

(** ** The further properties at concrete inputs *)

Lemma demo_world_slice_fresh :
  5 ≠ 0 → m_NullTerminatedPtr (ctor_ptr_len 206 5) = 0 → alloc_fresh demo_mem 300 (5 + 1).
Proof.
  intros _ _. split; [reflexivity|]. split; [discriminate|]. split; [reflexivity|].
  split; [reflexivity|]. by apply fresh_by_scan.
Qed.

Lemma demo_abc_valid :
  wf_view demo_mem (ctor_sz 100) ∧ has_length demo_mem (ctor_sz 100) 3.
Proof. by apply wf_unknown_intro. Qed.

Lemma demo_abc_cached_valid :
  wf_view demo_mem (mk_view 3 100 1) ∧ has_length demo_mem (mk_view 3 100 1) 3.
Proof.
  apply (wf_known_intro demo_mem (mk_view 3 100 1) [97; 98; 99]);
    [reflexivity | discriminate | reflexivity | reflexivity].
Qed.

Lemma c_str_same_content_witness :
  ∃ p m' v',
    c_str Debug nullChar_addr 300 demo_mem (ctor_ptr_len 206 5) = Ok (p, m', v') ∧
    ∀ i, i < 5 → ∃ c, load m' (p + i) = Ok c ∧
                      load demo_mem (m_Begin (ctor_ptr_len 206 5) + i) = Ok c.
Proof.
  destruct demo_world_slice_valid as [Hwf Hn].
  destruct (c_str_same_content Debug nullChar_addr 300 demo_mem (ctor_ptr_len 206 5) 5
              Hwf Hn demo_world_slice_fresh) as (p & m' & v' & Hc & Hsame & _).
  eauto.
Defined.

Lemma c_str_idempotent_witness :
  ∃ p m' v',
    c_str Debug nullChar_addr 300 demo_mem (ctor_ptr_len 206 5) = Ok (p, m', v') ∧
    c_str Debug nullChar_addr 500 m' v' = Ok (p, m', v').
Proof.
  destruct demo_world_slice_valid as [Hwf Hn].
  destruct (c_str_idempotent Debug nullChar_addr 300 demo_mem (ctor_ptr_len 206 5) 5
              Hwf Hn demo_world_slice_fresh) as (p & m' & v' & Hc & Hagain).
  eauto.
Defined.

Lemma c_str_then_dtor_witness :
  ∃ p m' v',
    c_str Debug nullChar_addr 300 demo_mem (ctor_ptr_len 206 5) = Ok (p, m', v') ∧
    dtor m' v' = Ok demo_mem.
Proof.
  destruct demo_world_slice_valid as [Hwf Hn].
  apply (c_str_then_dtor Debug nullChar_addr 300 demo_mem (ctor_ptr_len 206 5) 5 Hwf Hn);
    [discriminate | apply demo_world_slice_fresh].
Defined.

Lemma length_caches_witness :
  ∃ v', length Debug demo_mem (ctor_sz 200) = Ok (11, v') ∧ m_Length v' = 11 ∧
        length Debug demo_mem v' = Ok (11, v').
Proof.
  destruct demo_hello_world_valid as [Hwf Hn].
  destruct (length_caches Debug demo_mem (ctor_sz 200) 11 Hwf Hn)
    as (v' & H1 & H2 & _ & _ & _ & H3).
  eauto.
Defined.

Lemma empty_iff_length_zero_witness :
  ∃ n v', length Release demo_mem (ctor_sz 100) = Ok (n, v') ∧
          empty Release demo_mem (ctor_sz 100) = Ok (n =? 0).
Proof.
  destruct demo_abc_valid as [Hwf _].
  apply (empty_iff_length_zero Release demo_mem (ctor_sz 100) Hwf).
Defined.

Lemma empty_peeks_first_witness :
  empty Debug unterminated_mem (mk_view SIZE_MAX 50 1) = Ok false ∧
  ∀ k v', length Debug unterminated_mem (mk_view SIZE_MAX 50 1) ≠ Ok (k, v').
Proof.
  destruct (empty_peeks_first Debug unterminated_mem (mk_view SIZE_MAX 50 1) 97)
    as [He Hl]; [reflexivity..|].
  split; [exact He|]. apply Hl.
  intros k Hk. apply tstrlen_cstring in Hk. discriminate Hk.
Defined.

Lemma at_reads_unit_witness :
  (∃ c, at_ demo_mem (ctor_sz 100) 1 = Ok c ∧ load demo_mem (100 + 1) = Ok c) ∧
  at_ demo_mem (ctor_sz 100) 3 = Ok 0.
Proof.
  destruct demo_abc_valid as [Hwf Hn].
  destruct (at_reads_unit demo_mem (ctor_sz 100) 3 Hwf Hn) as [Hin Hend].
  split.
  - destruct (Hin 1) as (c & Hc & _ & Hl); [reflexivity|]. eauto.
  - apply Hend. reflexivity.
Defined.

Lemma end_minus_begin_witness :
  ∃ e v', end_ Debug demo_mem (ctor_sz 100) = Ok (e, v') ∧ e - begin (ctor_sz 100) = 3 ∧
          ∃ l c, back Debug demo_mem (ctor_sz 100) = Ok (l, v') ∧ l + 1 = e ∧
                 load demo_mem l = Ok c.
Proof.
  destruct demo_abc_valid as [Hwf Hn].
  destruct (end_minus_begin Debug demo_mem (ctor_sz 100) 3 Hwf Hn)
    as (e & v' & He & Hd & _ & Hb).
  exists e, v'. split; [exact He|]. split; [exact Hd|]. apply Hb. discriminate.
Defined.

Lemma demo_buf_slice_valid :
  wf_view demo_buf_mem (ctor_ptr_len 206 5) ∧ has_length demo_buf_mem (ctor_ptr_len 206 5) 5.
Proof.
  apply (wf_known_intro demo_buf_mem (ctor_ptr_len 206 5) [119; 111; 114; 108; 100]);
    [reflexivity | discriminate | reflexivity | discriminate].
Qed.

Lemma copy_to_spec_witness :
  ∃ m', copy_to Debug demo_buf_mem (ctor_ptr_len 206 5) 400 1 3
          = Ok (3, m', set_Length 5 (ctor_ptr_len 206 5)) ∧
        (∀ i, i < 3 → ∃ c, load m' (400 + i) = Ok c ∧
                           load demo_buf_mem (206 + 1 + i) = Ok c) ∧
        cells m' !! 403 = cells demo_buf_mem !! 403.
Proof.
  destruct demo_buf_slice_valid as [Hwf Hn].
  destruct (copy_to_spec Debug demo_buf_mem (ctor_ptr_len 206 5) 5 400 1 3 Hwf Hn)
    as (m' & Hc & _ & Hin & Hout).
  - discriminate.
  - by apply (readable_of_read_range demo_buf_mem 400 _ [1; 1; 1]).
  - intros i j Hi Hj. cbn in Hi, Hj |- *. lia.
  - exists m'. split; [exact Hc|]. split; [exact Hin|]. apply Hout. right. discriminate.
Defined.

Lemma to_string_spec_witness :
  ∃ cs, to_string Debug demo_mem (ctor_sz 100) = Ok (cs, set_Length 3 (ctor_sz 100)) ∧
        N.of_nat (List.length cs) = 3.
Proof.
  destruct demo_abc_valid as [Hwf Hn].
  destruct (to_string_spec Debug demo_mem (ctor_sz 100) 3 Hwf Hn) as (cs & Hc & Hlen & _).
  eauto.
Defined.

Lemma ctor_copy_content_witness :
  ∃ r src', ctor_copy Debug demo_mem (ctor_sz 200) 6 3 = Ok (r, src') ∧
            has_length demo_mem r 3 ∧ m_NullTerminatedPtr r ≤ 1.
Proof.
  destruct demo_hello_world_valid as [Hwf Hn].
  destruct (ctor_copy_content Debug demo_mem (ctor_sz 200) 11 6 3 Hwf Hn)
    as (r & src' & Hc & _ & Hlen & Ht & _); [discriminate|].
  eauto.
Defined.

Lemma substr_agrees_with_ctor_copy_witness :
  substr Release demo_mem (ctor_sz 200) 6 3 = ctor_copy Debug demo_mem (ctor_sz 200) 6 3.
Proof.
  destruct demo_hello_world_valid as [Hwf Hn].
  apply (substr_agrees_with_ctor_copy Debug demo_mem (ctor_sz 200) 11 6 3 Hwf Hn).
  discriminate.
Defined.

Lemma offset_out_of_range_asserts_witness :
  copy_to Debug demo_mem (mk_view 3 100 1) 400 4 1 = AssertFail ∧
  substr Debug demo_mem (mk_view 3 100 1) 4 1 = AssertFail ∧
  ctor_copy Debug demo_mem (mk_view 3 100 1) 4 1 = AssertFail.
Proof.
  destruct demo_abc_cached_valid as [Hwf Hn].
  destruct (offset_out_of_range_asserts demo_mem (mk_view 3 100 1) 3 400 4 1 Hwf Hn)
    as [Hc Hs]; [reflexivity|].
  split; [exact Hc|]. apply Hs. left. discriminate.
Defined.

Lemma lazy_slice_unchecked_witness :
  substr Debug demo_mem (ctor_sz 100) 7 SIZE_MAX = Ok (mk_view SIZE_MAX 107 1, ctor_sz 100) ∧
  ctor_copy Debug demo_mem (ctor_sz 100) 7 SIZE_MAX = Ok (mk_view SIZE_MAX 107 1, ctor_sz 100).
Proof.
  destruct demo_abc_valid as [Hwf Hn].
  destruct (lazy_slice_unchecked Debug demo_mem (ctor_sz 100) 3 7 Hwf Hn)
    as (Hs & Hc & _); [reflexivity..|].
  split; [exact Hs | exact Hc].
Defined.

Lemma unknown_not_terminated_asserts_witness :
  length Debug demo_mem (ctor_ptr_len 100 SIZE_MAX) = AssertFail ∧
  c_str Debug nullChar_addr 300 demo_mem (ctor_ptr_len 100 SIZE_MAX) = AssertFail.
Proof.
  destruct (unknown_not_terminated_asserts demo_mem (ctor_ptr_len 100 SIZE_MAX)
              nullChar_addr 300 400 0 0) as (Hl & _ & Hc & _);
    [reflexivity | discriminate |].
  split; [exact Hl | exact Hc].
Defined.

Lemma copy_assign_spec_witness :
  ∃ c, copy_assign demo_assign_world 0 1
         = Ok (mk_world demo_mem (<[0%nat := c]> (w_objs demo_assign_world))) ∧
       m_Length c = SIZE_MAX ∧ m_Begin c = 100 ∧ m_NullTerminatedPtr c = 1.
Proof.
  destruct (copy_assign_spec demo_assign_world 0 1 world_view (ctor_sz 100) demo_mem)
    as (c & Hc & Hlen & Hbeg & _ & Hterm & _);
    [discriminate | reflexivity | reflexivity | vm_compute; reflexivity |].
  exists c. split; [exact Hc|]. split; [exact Hlen|]. split; [exact Hbeg|].
  apply Hterm. reflexivity.
Defined.

Lemma op_ne_spec_witness :
  ∃ w', op_ne Debug demo_world 0 2 = Ok (true, w').
Proof.
  destruct demo_abc_valid as [Hwfa Hna].
  destruct (wf_known_intro demo_mem (ctor_ptr_len 100 2) [97; 98]) as [Hwfc Hnc];
    [reflexivity | discriminate | reflexivity | discriminate |].
  destruct (op_ne_spec Debug demo_world 0 2 (ctor_sz 100) (ctor_ptr_len 100 2) 3 2)
    as (r & w' & Hr & _ & Hiff); [reflexivity | reflexivity | done..|].
  exists w'. rewrite Hr. do 2 f_equal. apply Hiff. intros [H _]. discriminate H.
Defined.

Lemma constructors_valid_witness :
  wf_view demo_mem (ctor_sz 100) ∧ has_length demo_mem (ctor_sz 100) 3 ∧
  ∃ v, ctor_string Debug (mk_string 100 3) 1 SIZE_MAX = Ok v ∧
       wf_view demo_mem v ∧ has_length demo_mem v 2.
Proof.
  destruct (constructors_valid Debug demo_mem) as (_ & _ & Hsz & _ & _ & _ & Hstr).
  destruct (Hsz 100 3) as (H1 & H2 & _); [by apply tstrlen_sound|].
  split; [exact H1|]. split; [exact H2|].
  apply (Hstr (mk_string 100 3) 1 SIZE_MAX); [|discriminate].
  split; [reflexivity|]. split; [|reflexivity].
  by apply (readable_of_read_range demo_mem 100 3 [97; 98; 99]).
Defined.

(** ** Other views while one view allocates *)

Lemma cstring_frame (m m' : memory) (p n : N) :
  (∀ q c, load m q = Ok c → load m' q = Ok c) →
  is_cstring m p n → is_cstring m' p n.
Proof.
  intros Hframe [Hbody Hend]. split; [|by apply Hframe].
  intros i Hi. destruct (Hbody i Hi) as (c & Hc & Hc0). eauto.
Qed.

(** Validity only needs what can be read and the arrays that are live. *)
Lemma wf_view_frame (m m' : memory) (u : str_view) (k : N) :
  (∀ q c, load m q = Ok c → load m' q = Ok c) →
  (∀ q x, blocks m !! q = Some x → blocks m' !! q = Some x) →
  wf_view m u → has_length m u k → wf_view m' u ∧ has_length m' u k.
Proof.
  intros Hcells Hblocks. unfold wf_view, has_length.
  destruct (decide (m_Length u = SIZE_MAX)) as [E|E].
  - intros (Ht & n & Hn) Hk. split; [|by eapply cstring_frame].
    split; [done|]. exists n. by eapply cstring_frame.
  - intros (Hb & Hread & Hterm & Hown) ->. split; [|done].
    split; [done|]. split; [|split].
    + intros i Hi. destruct (Hread i Hi) as (c & Hc). eauto.
    + intros Ht. by apply Hcells, Hterm.
    + intros Ht. destruct (Hown Ht) as (Hlive & Hsame & Hend).
      split; [by apply Hblocks|]. split; [|by apply Hcells].
      intros i Hi. destruct (Hsame i Hi) as (c & Hc1 & Hc2). eauto.
Qed.

(** X19.  [c_str()] on one view never disturbs another: every view that was
    valid before the call, wherever it points and whatever it owns, is valid
    afterwards and denotes the same length. *)
Theorem c_str_keeps_other_views (b : build) (nullChar a : N) (m : memory) (v : str_view) (n : N) :
  wf_view m v → has_length m v n →
  (n ≠ 0 → m_NullTerminatedPtr v = 0 → alloc_fresh m a (n + 1)) →
  ∃ p m' v',
    c_str b nullChar a m v = Ok (p, m', v') ∧
    ∀ u k, wf_view m u → has_length m u k → wf_view m' u ∧ has_length m' u k.
Proof.
  intros Hwf Hn Hfresh.
  destruct (N.eq_dec n 0) as [->|Hn0].
  { eexists _, _, _. split; [by apply c_str_empty|]. done. }
  destruct (N.eq_dec (m_NullTerminatedPtr v) 1) as [Ht1|Ht1].
  { eexists _, _, _. split; [by apply c_str_self_terminated|]. done. }
  destruct (wf_not_terminated_known _ _ _ Hwf Hn Ht1) as [Hknown ->].
  destruct (N.eq_dec (m_NullTerminatedPtr v) 0) as [Ht0|Ht0].
  - specialize (Hfresh Hn0 Ht0).
    destruct (c_str_allocates b nullChar a m v Hwf Ht0 Hn0 Hfresh)
      as (m' & Hc & Hblocks & Hframe & _).
    destruct Hfresh as (_ & _ & _ & Hblock & _).
    eexists _, _, _. split; [exact Hc|].
    intros u k. apply wf_view_frame.
    + intros q c. by apply load_frame.
    + intros q x Hq. rewrite Hblocks. rewrite lookup_insert_ne; [done|]. congruence.
  - eexists _, _, _.
    split; [apply (c_str_owned b _ _ m v (m_Length v)); done || lia|]. done.
Qed.

Lemma c_str_keeps_other_views_witness :
  ∃ p m' v',
    c_str Debug nullChar_addr 300 demo_mem (ctor_ptr_len 206 5) = Ok (p, m', v') ∧
    wf_view m' (ctor_sz 200) ∧ has_length m' (ctor_sz 200) 11.
Proof.
  destruct demo_world_slice_valid as [Hwf Hn].
  destruct demo_hello_world_valid as [Hwfu Hnu].
  destruct (c_str_keeps_other_views Debug nullChar_addr 300 demo_mem (ctor_ptr_len 206 5) 5
              Hwf Hn demo_world_slice_fresh) as (p & m' & v' & Hc & Hkeep).
  exists p, m', v'. split; [exact Hc|]. by apply Hkeep.
Defined.
(** ** [c_str()] called by several threads at once *)

Lemma run_cons (b : build) (nullChar : N) (i : nat) (a : N) (rest : list (nat * N)) (s : system) :
  run b nullChar ((i, a) :: rest) s = (s' ← step b nullChar i a s; run b nullChar rest s').
Proof. reflexivity. Qed.

Lemma run_nil (b : build) (nullChar : N) (s : system) : run b nullChar [] s = Ok s.
Proof. reflexivity. Qed.

Ltac turn :=
  cbn [mbind outcome_bind]; rewrite ?run_nil, ?run_cons; unfold step;
  cbn [sys_threads sys_mem sys_view lookup list_lookup insert list_insert
       mbind outcome_bind].

(** One call running alone, turn after turn, is [c_str]. *)
Lemma c_str_one_thread (b : build) (nullChar a : N) (m : memory) (v : str_view) :
  run b nullChar (replicate 5 (0%nat, a)) (mk_system m v [Entered])
  = ('(p, m', v') ← c_str b nullChar a m v; Ok (mk_system m' v' [Returned p])).
Proof.
  unfold c_str. cbv zeta. cbn [replicate]. turn. unfold c_str_check.
  destruct (empty b m v) as [[|]| |]; [by repeat progress turn| |reflexivity..].
  turn. unfold c_str_read. cbv zeta.
  destruct (N.eqb_spec (m_NullTerminatedPtr v) 1) as [E1|E1].
  { destruct b; [|by repeat progress turn].
    destruct (length Debug m v) as [[len v']| |]; [|reflexivity..].
    cbn [mbind outcome_bind]. destruct (load m (m_Begin v' + len)) as [c| |]; [|reflexivity..].
    cbn [mbind outcome_bind]. destruct (c =? 0); [by repeat progress turn|reflexivity]. }
  destruct (N.eqb_spec (m_NullTerminatedPtr v) 0) as [E0|E0]; [|by repeat progress turn].
  turn. unfold c_str_fill. cbv zeta.
  destruct (assert_ b (Ok (negb (m_Length v =? SIZE_MAX)))) as [[]| |]; [|reflexivity..].
  cbn [mbind outcome_bind].
  destruct (assert_ b (Ok (N.land a 1 =? 0))) as [[]| |]; [|reflexivity..].
  cbn [mbind outcome_bind].
  destruct (memcpy _ a (m_Begin v) (m_Length v)) as [m1| |]; [|reflexivity..].
  cbn [mbind outcome_bind].
  destruct (store m1 (a + m_Length v) 0) as [m2| |]; [|reflexivity..].
  turn. unfold c_str_exchange, compare_exchange_strong.
  rewrite E0. cbn [N.eqb]. by repeat progress turn.
Qed.

Lemma alloc_freshb_sound (m : memory) (a n : N) :
  alloc_freshb m a n = true → alloc_fresh m a n.
Proof.
  unfold alloc_freshb, alloc_fresh. rewrite !andb_true_iff.
  intros ((((Ha & Hs) & He) & Hb) & Hc).
  apply N.ltb_lt in Ha. apply N.leb_le in Hs. apply N.eqb_eq in He.
  apply bool_decide_eq_true in Hb.
  split; [done|]. split; [done|]. split; [done|]. split; [done|].
  intros i Hi. rewrite forallb_forall in Hc.
  specialize (Hc (N.to_nat i)). rewrite N2Nat.id in Hc.
  eapply bool_decide_eq_true, Hc. apply in_seq. lia.
Qed.

Lemma allocator_okb_sound (b : build) (nullChar : N) (sched : list (nat * N)) :
  ∀ s, allocator_okb b nullChar sched s = true → allocator_ok b nullChar sched s.
Proof.
  induction sched as [|[i a] rest IH]; intros s H; [done|].
  cbn [allocator_okb] in H. apply andb_true_iff in H as [H1 H2].
  split.
  - intros E. rewrite E in H1. by apply alloc_freshb_sound.
  - intros s' E. rewrite E in H2. by apply IH.
Qed.

(** A step moves the thread that takes it forward, unless it has returned,
    and leaves the other threads where they are. *)
Lemma step_stage (b : build) (nullChar : N) (i : nat) (a : N) (s s' : system) :
  step b nullChar i a s = Ok s' →
  List.length (sys_threads s') = List.length (sys_threads s) ∧
  ∀ j th, sys_threads s !! j = Some th →
    ∃ th', sys_threads s' !! j = Some th' ∧
           (j ≠ i → th' = th) ∧
           (j = i → (Nat.min 5 (S (stage th)) ≤ stage th')%nat).
Proof.
  intros H.
  assert (Hupd : ∀ th0 th1 m v,
    sys_threads s !! i = Some th0 → (Nat.min 5 (S (stage th0)) ≤ stage th1)%nat →
    s' = mk_system m v (<[i := th1]> (sys_threads s)) →
    List.length (sys_threads s') = List.length (sys_threads s) ∧
    ∀ j th, sys_threads s !! j = Some th →
      ∃ th', sys_threads s' !! j = Some th' ∧
             (j ≠ i → th' = th) ∧
             (j = i → (Nat.min 5 (S (stage th)) ≤ stage th')%nat)).
  { intros th0 th1 m v Hi Hst ->. cbn [sys_threads].
    split; [by rewrite length_insert|].
    intros j th Hj. destruct (decide (j = i)) as [->|Hne].
    - exists th1. rewrite list_lookup_insert_eq by (by eapply lookup_lt_Some).
      split; [done|]. split; [done|]. intros _. congruence.
    - exists th. rewrite list_lookup_insert_ne by done. done. }
  assert (Hsame : s' = s →
    (∀ th, sys_threads s !! i = Some th → stage th = 5%nat) →
    List.length (sys_threads s') = List.length (sys_threads s) ∧
    ∀ j th, sys_threads s !! j = Some th →
      ∃ th', sys_threads s' !! j = Some th' ∧
             (j ≠ i → th' = th) ∧
             (j = i → (Nat.min 5 (S (stage th)) ≤ stage th')%nat)).
  { intros -> H5. split; [done|]. intros j th Hj. exists th.
    split; [done|]. split; [done|]. intros ->. rewrite (H5 _ Hj). simpl. lia. }
  unfold step in H.
  destruct (sys_threads s !! i) as [[| | |c|c e|p]|] eqn:Hi.
  - apply bind_Ok in H as (th & Hth & [= <-]). unfold c_str_check in Hth.
    apply bind_Ok in Hth as (e & _ & [= <-]).
    eapply Hupd; [done| |done]. destruct e; simpl; lia.
  - apply bind_Ok in H as ([th v] & Hth & [= <-]). unfold c_str_read in Hth.
    eapply Hupd; [done| |done].
    destruct (m_NullTerminatedPtr (sys_view s) =? 1).
    + destruct b; [|injection Hth as <- _; simpl; lia].
      apply bind_Ok in Hth as ([len v'] & _ & Hth).
      apply bind_Ok in Hth as (c & _ & Hth).
      destruct (c =? 0); [|discriminate]. injection Hth as <- _. simpl. lia.
    + destruct (m_NullTerminatedPtr (sys_view s) =? 0); injection Hth as <- _; simpl; lia.
  - apply bind_Ok in H as ([th m] & Hth & [= <-]). unfold c_str_fill in Hth.
    apply bind_Ok in Hth as (? & _ & Hth). apply bind_Ok in Hth as (? & _ & Hth).
    apply bind_Ok in Hth as (? & _ & Hth). apply bind_Ok in Hth as (? & _ & Hth).
    injection Hth as <- _. eapply Hupd; [done| |done]. simpl. lia.
  - destruct (c_str_exchange c (sys_view s)) as [th v] eqn:Hex. injection H as <-.
    eapply Hupd; [done| |done]. unfold c_str_exchange, compare_exchange_strong in Hex.
    destruct (m_NullTerminatedPtr (sys_view s) =? 0); injection Hex as <- _; simpl; lia.
  - apply bind_Ok in H as ([th m] & Hth & [= <-]). unfold c_str_release in Hth.
    apply bind_Ok in Hth as (? & _ & [= <- _]).
    eapply Hupd; [done| |done]. simpl. lia.
  - injection H as <-. apply Hsame; [done|]. by intros th [= <-].
  - injection H as <-. apply Hsame; [done|]. by intros th [=].
Qed.
(** *** The arrays of a run *)

Lemma lookup_update (ths : list thread) (i j : nat) (th' x : thread) :
  <[i := th']> ths !! j = Some x →
  (j = i ∧ x = th') ∨ (j ≠ i ∧ ths !! j = Some x).
Proof.
  intros H. apply list_lookup_insert_Some in H as [(-> & <- & _)|[Hne H]]; [by left|].
  right. by split.
Qed.

Lemma prepared_split (ths : list thread) (i : nat) (th : thread) (x : N) :
  ths !! i = Some th →
  prepared ths x ↔ held th = Some x ∨ prepared_by_other ths i x.
Proof.
  intros Hi. split.
  - intros (j & th' & Hj & Hh). destruct (decide (j = i)) as [->|Hne].
    + left. congruence.
    + right. by exists j, th'.
  - intros [Hh|(j & th' & _ & Hj & Hh)]; [by exists i, th|by exists j, th'].
Qed.

Lemma prepared_insert (ths : list thread) (i : nat) (th th' : thread) (x : N) :
  ths !! i = Some th →
  prepared (<[i := th']> ths) x ↔ held th' = Some x ∨ prepared_by_other ths i x.
Proof.
  intros Hi. split.
  - intros (j & th'' & Hj & Hh). apply lookup_update in Hj as [[-> ->]|[Hne Hj]].
    + by left.
    + right. by exists j, th''.
  - intros [Hh|(j & th'' & Hne & Hj & Hh)].
    + exists i, th'. split; [|done].
      apply list_lookup_insert_eq. by eapply lookup_lt_Some.
    + exists j, th''. split; [|done]. by rewrite list_lookup_insert_ne.
Qed.

Lemma holds_split (s : system) (i : nat) (th : thread) (x : N) :
  sys_threads s !! i = Some th →
  holds s x ↔ installed (sys_view s) x ∨ held th = Some x ∨ prepared_by_other (sys_threads s) i x.
Proof. intros Hi. unfold holds. by rewrite (prepared_split _ i th). Qed.

Lemma holds_update (s : system) (i : nat) (th th' : thread) (m' : memory) (v' : str_view) (x : N) :
  sys_threads s !! i = Some th →
  holds (mk_system m' v' (<[i := th']> (sys_threads s))) x ↔
  installed v' x ∨ held th' = Some x ∨ prepared_by_other (sys_threads s) i x.
Proof. intros Hi. unfold holds. cbn [sys_view sys_threads]. by rewrite (prepared_insert _ i th). Qed.

(** The allocating part of [c_str] on its own. *)
Lemma c_str_via_fill (b : build) (nullChar a : N) (m : memory) (v : str_view) :
  m_NullTerminatedPtr v = 0 → empty b m v = Ok false →
  c_str b nullChar a m v
  = ('(th, m') ← c_str_fill b a m v; Ok (a, m', set_NullTerminatedPtr a v)).
Proof.
  intros Ht He. unfold c_str, c_str_fill. cbv zeta. rewrite He, Ht.
  cbn [mbind outcome_bind N.eqb].
  destruct (assert_ b (Ok (negb (m_Length v =? SIZE_MAX)))) as [[]| |]; [|reflexivity..].
  cbn [mbind outcome_bind].
  destruct (assert_ b (Ok (N.land a 1 =? 0))) as [[]| |]; [|reflexivity..].
  cbn [mbind outcome_bind].
  destruct (memcpy _ a (m_Begin v) (m_Length v)) as [m1| |]; [|reflexivity..].
  cbn [mbind outcome_bind].
  destruct (store m1 (a + m_Length v) 0) as [m2| |]; reflexivity.
Qed.

Lemma c_str_fill_thread (b : build) (a : N) (m m' : memory) (v : str_view) (th : thread) :
  c_str_fill b a m v = Ok (th, m') → th = Exchanging a.
Proof.
  unfold c_str_fill. intros H.
  apply bind_Ok in H as (? & _ & H). apply bind_Ok in H as (? & _ & H).
  apply bind_Ok in H as (? & _ & H). apply bind_Ok in H as (? & _ & H).
  by injection H as <- _.
Qed.

Lemma c_str_fill_spec (b : build) (a : N) (m : memory) (v : str_view) :
  wf_view m v → m_NullTerminatedPtr v = 0 → m_Length v ≠ 0 →
  alloc_fresh m a (m_Length v + 1) →
  ∃ m', c_str_fill b a m v = Ok (Exchanging a, m') ∧
        blocks m' = <[a := m_Length v + 1]> (blocks m) ∧
        (∀ q, ¬ (a ≤ q ∧ q < a + (m_Length v + 1)) → cells m' !! q = cells m !! q) ∧
        (∀ i, i < m_Length v → load m' (a + i) = load m (m_Begin v + i)) ∧
        load m' (a + m_Length v) = Ok 0.
Proof.
  intros Hwf Ht Hne Hfresh.
  destruct (c_str_allocates b 0 a m v Hwf Ht Hne Hfresh) as (m' & Hc & Hb & _ & Hcopy & Hend).
  destruct (c_str_allocates_exact b 0 a m v Hwf Ht Hne Hfresh) as (m'' & Hc' & _ & Hout & _).
  assert (m'' = m') as -> by congruence.
  exists m'. split; [|done].
  assert (He : empty b m v = Ok false).
  { assert (Hknown : m_Length v ≠ SIZE_MAX).
    { intros E. apply (wf_unknown_terminated _ _ Hwf) in E. congruence. }
    rewrite (empty_spec b m v (m_Length v)); [|done|].
    - apply N.eqb_neq in Hne. by rewrite Hne.
    - unfold has_length. by rewrite decide_False. }
  rewrite (c_str_via_fill b 0 a m v Ht He) in Hc.
  destruct (c_str_fill b a m v) as [[th m1]| |] eqn:Hf; [|discriminate..].
  cbn [mbind outcome_bind] in Hc. injection Hc as ->.
  by rewrite (c_str_fill_thread _ _ _ _ _ _ Hf).
Qed.

Section race.
Context (b : build) (nullChar : N) (m0 : memory) (v0 : str_view).
Hypothesis Hwf0 : wf_view m0 v0.
Hypothesis Ht0 : m_NullTerminatedPtr v0 = 0.
Hypothesis Hne : m_Length v0 ≠ 0.

Lemma race_known : m_Length v0 < SIZE_MAX ∧ readable m0 (m_Begin v0) (m_Length v0).
Proof.
  unfold wf_view in Hwf0. destruct (decide (m_Length v0 = SIZE_MAX)) as [E|E].
  - destruct Hwf0 as [H _]. congruence.
  - destruct Hwf0 as (H1 & H2 & _). done.
Qed.

(** Nothing the run started with is overwritten or unmapped. *)
Lemma inv_old_cells (s : system) (q : N) :
  race_inv m0 v0 s → is_Some (cells m0 !! q) →
  cells (sys_mem s) !! q = cells m0 !! q.
Proof.
  intros Hinv Hq. apply (inv_cells _ _ _ Hinv). intros a Ha.
  destruct (inv_arrays _ _ _ Hinv a Ha) as [_ _ [_ Hnew] _ _].
  destruct (N.lt_ge_cases q a) as [|H1]; [by left|].
  destruct (N.lt_ge_cases q (a + (m_Length v0 + 1))) as [H2|]; [|by right].
  specialize (Hnew (q - a) ltac:(lia)). replace (a + (q - a)) with q in Hnew by lia.
  destruct Hq as [c Hc]. congruence.
Qed.

Lemma inv_old_load (s : system) (q c : N) :
  race_inv m0 v0 s → load m0 q = Ok c → load (sys_mem s) q = Ok c.
Proof.
  intros Hinv H. rewrite <- H. apply load_same_cells, inv_old_cells; [done|].
  apply load_Ok in H as (_ & _ & H). eauto.
Qed.

Lemma inv_view_eq (s : system) :
  race_inv m0 v0 s → set_NullTerminatedPtr 0 (sys_view s) = v0.
Proof.
  intros Hinv. destruct (inv_view _ _ _ Hinv) as (H1 & H2 & _).
  destruct v0 as [n0 b0 t0]. simpl in *. subst t0.
  unfold set_NullTerminatedPtr. by rewrite H1, H2.
Qed.

Lemma inv_source_wf (s : system) : race_inv m0 v0 s → wf_view (sys_mem s) v0.
Proof.
  intros Hinv. destruct race_known as [Hk Hr].
  unfold wf_view. rewrite decide_False by lia.
  split; [done|]. split; [|split].
  - intros i Hi. destruct (Hr i Hi) as (c & Hc). exists c. by apply inv_old_load.
  - intros E. congruence.
  - intros E. lia.
Qed.

Lemma inv_initial (n : nat) : race_inv m0 v0 (mk_system m0 v0 (replicate n Entered)).
Proof.
  assert (Hnone : ∀ a, ¬ holds (mk_system m0 v0 (replicate n Entered)) a).
  { intros a [[Ha Hi]|(i & th & Hi & Hh)]; cbn [sys_view sys_threads] in *.
    - congruence.
    - apply lookup_replicate in Hi as [-> _]. discriminate. }
  split; cbn [sys_view sys_threads sys_mem].
  - split; [done|]. split; [done|]. rewrite Ht0. discriminate.
  - intros a Ha. by apply Hnone in Ha.
  - intros a a' Ha. by apply Hnone in Ha.
  - intros i j th th' a Hi _ Hh. apply lookup_replicate in Hi as [-> _]. discriminate.
  - intros i th a Hi Hh. apply lookup_replicate in Hi as [-> _]. discriminate.
  - done.
  - done.
  - intros i p Hi. apply lookup_replicate in Hi as [? _]. discriminate.
  - intros i c e Hi. apply lookup_replicate in Hi as [? _]. discriminate.
Qed.

Lemma array_mapped (m : memory) (a j : N) :
  array_ok m0 v0 m a → j < m_Length v0 + 1 → is_Some (cells m !! (a + j)).
Proof.
  intros [_ _ _ Hcopy Hend] Hj. destruct race_known as [_ Hr].
  destruct (N.eq_dec j (m_Length v0)) as [->|Hjn].
  - apply load_Ok in Hend as (_ & _ & Hend). eauto.
  - destruct (Hr j ltac:(lia)) as (c & Hc). rewrite <- Hcopy in Hc by lia.
    apply load_Ok in Hc as (_ & _ & Hc). eauto.
Qed.

(** A step that changes no memory and moves no array out of the hands of
    the view and the stepping thread taken together. *)
Lemma inv_same_arrays (s : system) (i : nat) (th th' : thread) (v' : str_view) :
  race_inv m0 v0 s → sys_threads s !! i = Some th →
  m_Length v' = m_Length (sys_view s) → m_Begin v' = m_Begin (sys_view s) →
  m_NullTerminatedPtr v' ≠ 1 →
  (∀ x, installed v' x ∨ held th' = Some x ↔ installed (sys_view s) x ∨ held th = Some x) →
  (∀ a, held th' = Some a → ¬ prepared_by_other (sys_threads s) i a) →
  (∀ a, held th' = Some a ∨ prepared_by_other (sys_threads s) i a → m_NullTerminatedPtr v' ≠ a) →
  (∀ p, th' = Returned p → p = m_NullTerminatedPtr v' ∧ p ≠ 0) →
  (∀ c e, th' = Releasing c e → e = m_NullTerminatedPtr v' ∧ e ≠ 0) →
  m_NullTerminatedPtr v' = m_NullTerminatedPtr (sys_view s) ∨ m_NullTerminatedPtr (sys_view s) = 0 →
  race_inv m0 v0 (mk_system (sys_mem s) v' (<[i := th']> (sys_threads s))).
Proof.
  intros Hinv Hi Hlen Hbeg Ht1 Hsame Hfresh Hhand Hret Hrel Hview.
  assert (Hholds : ∀ x, holds (mk_system (sys_mem s) v' (<[i := th']> (sys_threads s))) x ↔ holds s x).
  { intros x. rewrite (holds_update s i th) by done. rewrite (holds_split s i th) by done.
    specialize (Hsame x). tauto. }
  destruct Hinv as [Hv Harr Hapart Hown Hhanded Hcells Hblocks Hreturned Hreleasing].
  split; cbn [sys_view sys_threads sys_mem].
  - destruct Hv as (H1 & H2 & _). split; [congruence|]. split; [congruence|done].
  - intros a Ha. apply Harr. by apply Hholds.
  - intros a a' Ha Ha'. apply Hapart; by apply Hholds.
  - intros j1 j2 th1 th2 a H1 H2 Hh1 Hh2.
    apply lookup_update in H1 as [[-> ->]|[Hne1 H1]];
      apply lookup_update in H2 as [[-> ->]|[Hne2 H2]].
    + done.
    + exfalso. apply (Hfresh a Hh1). by exists j2, th2.
    + exfalso. apply (Hfresh a Hh2). by exists j1, th1.
    + by eapply Hown.
  - intros j th1 a H1 Hh1. apply lookup_update in H1 as [[-> ->]|[Hne1 H1]].
    + apply Hhand. by left.
    + apply Hhand. right. by exists j, th1.
  - intros q Hq. apply Hcells. intros a Ha. apply Hq. by apply Hholds.
  - intros q Hq. apply Hblocks. intros Ha. apply Hq. by apply Hholds.
  - intros j p H1. apply lookup_update in H1 as [[-> <-]|[Hne1 H1]].
    + by apply Hret.
    + destruct (Hreturned j p H1) as [Hp Hp0]. destruct Hview as [->|E]; [done|]. congruence.
  - intros j c e H1. apply lookup_update in H1 as [[-> <-]|[Hne1 H1]].
    + by eapply Hrel.
    + destruct (Hreleasing j c e H1) as [Hp Hp0]. destruct Hview as [->|E]; [done|]. congruence.
Qed.

(** The stepping thread allocates and fills its array. *)
Lemma inv_fill (s : system) (i : nat) (a : N) :
  race_inv m0 v0 s → sys_threads s !! i = Some Allocating →
  alloc_fresh (sys_mem s) a (m_Length (sys_view s) + 1) →
  ∃ m', c_str_fill b a (sys_mem s) (sys_view s) = Ok (Exchanging a, m') ∧
        race_inv m0 v0 (mk_system m' (sys_view s) (<[i := Exchanging a]> (sys_threads s))).
Proof.
  intros Hinv Hi Hfresh. destruct race_known as [Hk Hr].
  pose proof (inv_source_wf s Hinv) as Hwf.
  pose proof (inv_view_eq s Hinv) as Hveq.
  destruct (inv_view _ _ _ Hinv) as (Hlen & Hbeg & Ht1).
  rewrite Hlen in Hfresh.
  destruct (c_str_fill_spec b a (sys_mem s) v0 Hwf Ht0 Hne Hfresh)
    as (m' & Hf & Hb & Hout & Hcopy & Hend).
  assert (Hf' : c_str_fill b a (sys_mem s) (sys_view s) = Ok (Exchanging a, m')).
  { rewrite <- Hf, <- Hveq. reflexivity. }
  exists m'. split; [done|].
  destruct Hfresh as (Ha0 & Hspace & Heven & Hblock & Hcellsfresh).
  assert (Hnot : ¬ holds s a).
  { intros Ha. destruct (inv_arrays _ _ _ Hinv a Ha) as [_ Hlive _ _ _]. congruence. }
  assert (Hmapped : ∀ x j, holds s x → j < m_Length v0 + 1 →
            is_Some (cells (sys_mem s) !! (x + j))).
  { intros x j Hx Hj. eapply array_mapped; [|done]. by apply (inv_arrays _ _ _ Hinv). }
  assert (Hdisj : ∀ x, holds s x →
            a + (m_Length v0 + 1) ≤ x ∨ x + (m_Length v0 + 1) ≤ a).
  { intros x Hx.
    destruct (N.le_gt_cases (a + (m_Length v0 + 1)) x) as [|H1]; [by left|].
    destruct (N.le_gt_cases (x + (m_Length v0 + 1)) a) as [|H2]; [by right|].
    exfalso. destruct (N.le_gt_cases a x) as [H3|H3].
    - destruct (Hmapped x 0 Hx ltac:(lia)) as [c Hc]. rewrite N.add_0_r in Hc.
      specialize (Hcellsfresh (x - a) ltac:(lia)).
      replace (a + (x - a)) with x in Hcellsfresh by lia. congruence.
    - destruct (Hmapped x (a - x) Hx ltac:(lia)) as [c Hc].
      replace (x + (a - x)) with a in Hc by lia.
      specialize (Hcellsfresh 0 ltac:(lia)). rewrite N.add_0_r in Hcellsfresh. congruence. }
  assert (Hframe : ∀ q c, load (sys_mem s) q = Ok c → load m' q = Ok c).
  { intros q c Hq. rewrite <- Hq. apply load_same_cells, Hout.
    apply load_Ok in Hq as (_ & _ & Hq).
    apply (fresh_not_mapped (sys_mem s)); eauto. }
  assert (Hholds : ∀ x, holds (mk_system m' (sys_view s) (<[i := Exchanging a]> (sys_threads s))) x
                        ↔ x = a ∨ holds s x).
  { intros x. rewrite (holds_update s i Allocating) by done.
    rewrite (holds_split s i Allocating) by done. cbn [held].
    split; [intros [H|[[= ->]|H]]|intros [->|[H|[[=]|H]]]]; tauto. }
  assert (Hnew : array_ok m0 v0 m' a).
  { split.
    - split; [|lia]. destruct (N.eq_dec a 1) as [->|]; [discriminate|lia].
    - by rewrite Hb, lookup_insert_eq.
    - split.
      + rewrite <- (inv_blocks _ _ _ Hinv a Hnot). done.
      + intros j Hj. rewrite <- (inv_cells _ _ _ Hinv); [by apply Hcellsfresh|].
        intros x Hx. destruct (Hdisj x Hx); lia.
    - intros j Hj. rewrite Hcopy by done. destruct (Hr j Hj) as (c & Hc).
      rewrite Hc. by apply inv_old_load.
    - done. }
  assert (Hold : ∀ x, holds s x → array_ok m0 v0 m' x).
  { intros x Hx. destruct (inv_arrays _ _ _ Hinv x Hx) as [H1 H2 H3 H4 H5].
    split; [done| |done| |].
    - rewrite Hb, lookup_insert_ne; [done|]. intros ->. by apply Hnot.
    - intros j Hj. destruct (Hr j Hj) as (c & Hc). rewrite Hc.
      apply Hframe. by rewrite H4.
    - by apply Hframe. }
  destruct Hinv as [Hv Harr Hapart Hown Hhanded Hcells Hblocks Hreturned Hreleasing].
  split; cbn [sys_view sys_threads sys_mem].
  - done.
  - intros x Hx. apply Hholds in Hx as [->|Hx]; [done|by apply Hold].
  - intros x x' Hx Hx' Hxx'. apply Hholds in Hx as [->|Hx]; apply Hholds in Hx' as [->|Hx'].
    + done.
    + destruct (Hdisj x' Hx'); [by left|by right].
    + destruct (Hdisj x Hx); [by right|by left].
    + by apply Hapart.
  - intros j1 j2 th1 th2 x H1 H2 Hh1 Hh2.
    apply lookup_update in H1 as [[-> ->]|[Hne1 H1]];
      apply lookup_update in H2 as [[-> ->]|[Hne2 H2]].
    + done.
    + exfalso. injection Hh1 as <-. apply Hnot. right. by exists j2, th2.
    + exfalso. injection Hh2 as <-. apply Hnot. right. by exists j1, th1.
    + by eapply Hown.
  - intros j th1 x H1 Hh1. apply lookup_update in H1 as [[-> ->]|[Hne1 H1]].
    + injection Hh1 as <-. intros E. apply Hnot. left. split; [lia|done].
    + by eapply Hhanded.
  - intros q Hq. rewrite Hout.
    + apply Hcells. intros x Hx. apply Hq, Hholds. by right.
    + specialize (Hq a). rewrite Hholds in Hq. specialize (Hq (or_introl eq_refl)). lia.
  - intros q Hq. rewrite Hb, lookup_insert_ne.
    + apply Hblocks. intros Hx. apply Hq, Hholds. by right.
    + intros <-. apply Hq, Hholds. by left.
  - intros j p H1. apply lookup_update in H1 as [[-> [=]]|[Hne1 H1]]. by eapply Hreturned.
  - intros j c e H1. apply lookup_update in H1 as [[-> [=]]|[Hne1 H1]]. by eapply Hreleasing.
Qed.

(** The stepping thread lost the exchange and releases its array. *)
Lemma inv_release (s : system) (i : nat) (c e : N) :
  race_inv m0 v0 s → sys_threads s !! i = Some (Releasing c e) →
  ∃ m', c_str_release c e (sys_mem s) = Ok (Returned e, m') ∧
        race_inv m0 v0 (mk_system m' (sys_view s) (<[i := Returned e]> (sys_threads s))).
Proof.
  intros Hinv Hi. destruct race_known as [Hk Hr].
  assert (Hc : holds s c). { right. by exists i, (Releasing c e). }
  destruct (inv_arrays _ _ _ Hinv c Hc) as [Hcaddr Hclive [Hcnew Hcnew'] _ _].
  set (m' := mk_memory (unmap_cells (cells (sys_mem s)) c (N.to_nat (m_Length v0 + 1)))
                       (delete c (blocks (sys_mem s)))).
  exists m'. split.
  { unfold c_str_release, delete_array. by rewrite Hclive. }
  assert (Hcells' : ∀ q, cells m' !! q =
            if decide (c ≤ q ∧ q < c + (m_Length v0 + 1)) then None
            else cells (sys_mem s) !! q).
  { intros q. unfold m'. cbn [cells]. by rewrite unmap_cells_lookup, N2Nat.id. }
  assert (Hholds : ∀ x, holds s x ↔
            x = c ∨ holds (mk_system m' (sys_view s) (<[i := Returned e]> (sys_threads s))) x).
  { intros x. rewrite (holds_update s i (Releasing c e)) by done.
    rewrite (holds_split s i (Releasing c e)) by done. cbn [held].
    split; [intros [H|[[= ->]|H]]|intros [->|[H|[[=]|H]]]]; tauto. }
  assert (Hgone : ¬ holds (mk_system m' (sys_view s) (<[i := Returned e]> (sys_threads s))) c).
  { rewrite (holds_update s i (Releasing c e)) by done. cbn [held].
    intros [[_ H]|[[=]|(j & th & Hne' & Hj & Hh)]].
    - by apply (inv_handed _ _ _ Hinv i (Releasing c e) c).
    - apply Hne'. by apply (inv_owner _ _ _ Hinv j i th (Releasing c e) c). }
  assert (Hframe : ∀ x j, holds s x → x ≠ c → j < m_Length v0 + 1 →
            load m' (x + j) = load (sys_mem s) (x + j)).
  { intros x j Hx Hxc Hj. apply load_same_cells. rewrite Hcells'.
    destruct (inv_apart _ _ _ Hinv x c Hx Hc Hxc); case_decide; done || lia. }
  destruct (inv_releasing _ _ _ Hinv i c e Hi) as [He He0].
  destruct Hinv as [Hv Harr Hapart Hown Hhanded Hcells Hblocks Hreturned Hreleasing].
  split; cbn [sys_view sys_threads sys_mem].
  - done.
  - intros x Hx.
    assert (Hxc : x ≠ c) by (by intros ->).
    assert (Hx' : holds s x) by (apply Hholds; by right).
    destruct (Harr x Hx') as [H1 H2 H3 H4 H5].
    split; [done| |done| |].
    + unfold m'. cbn [blocks]. by rewrite lookup_delete_ne.
    + intros j Hj. rewrite Hframe by (done || lia). by apply H4.
    + rewrite Hframe by (done || lia). done.
  - intros x x' Hx Hx'. apply Hapart; apply Hholds; by right.
  - intros j1 j2 th1 th2 x H1 H2 Hh1 Hh2.
    apply lookup_update in H1 as [[-> ->]|[Hne1 H1]]; [discriminate|].
    apply lookup_update in H2 as [[-> ->]|[Hne2 H2]]; [discriminate|].
    by eapply Hown.
  - intros j th1 x H1 Hh1. apply lookup_update in H1 as [[-> ->]|[Hne1 H1]]; [discriminate|].
    by eapply Hhanded.
  - intros q Hq. rewrite Hcells'. case_decide as Hin.
    + symmetry. specialize (Hcnew' (q - c) ltac:(lia)).
      by replace (c + (q - c)) with q in Hcnew' by lia.
    + apply Hcells. intros x Hx. apply Hholds in Hx as [->|Hx]; [lia|by apply Hq].
  - intros q Hq. unfold m'. cbn [blocks].
    destruct (N.eq_dec q c) as [->|Hqc].
    + by rewrite lookup_delete_eq.
    + rewrite lookup_delete_ne by done. apply Hblocks.
      intros Hx. apply Hholds in Hx as [->|Hx]; done.
  - intros j p H1. apply lookup_update in H1 as [[-> [= <-]]|[Hne1 H1]]; [done|].
    by eapply Hreturned.
  - intros j c' e' H1. apply lookup_update in H1 as [[-> [=]]|[Hne1 H1]].
    by eapply Hreleasing.
Qed.

(** Every step of every thread goes through and keeps the invariant. *)
Lemma inv_step (s : system) (i : nat) (a : N) :
  race_inv m0 v0 s →
  (sys_threads s !! i = Some Allocating →
   alloc_fresh (sys_mem s) a (m_Length (sys_view s) + 1)) →
  ∃ s', step b nullChar i a s = Ok s' ∧ race_inv m0 v0 s'.
Proof.
  intros Hinv Hfresh. destruct race_known as [Hk Hr].
  destruct (inv_view _ _ _ Hinv) as (Hlen & Hbeg & Ht1).
  unfold step.
  destruct (sys_threads s !! i) as [[| | |c|c e|p]|] eqn:Hi; cbv zeta.
  - (* [empty()] answers no *)
    assert (He : c_str_check b nullChar (sys_mem s) (sys_view s) = Ok Checked).
    { unfold c_str_check, empty. rewrite Hlen.
      destruct (N.eqb_spec (m_Length v0) SIZE_MAX) as [|_]; [lia|].
      destruct (N.eqb_spec (m_Length v0) 0) as [|_]; done. }
    rewrite He. cbn [mbind outcome_bind]. eexists. split; [done|].
    apply (inv_same_arrays s i Entered); try done.
    + intros x [[=]|(j & th & Hne' & Hj & Hh)]; by eapply (inv_handed _ _ _ Hinv).
    + by left.
  - (* the atomic is read *)
    unfold c_str_read. cbv zeta.
    destruct (N.eqb_spec (m_NullTerminatedPtr (sys_view s)) 1) as [|_]; [done|].
    destruct (N.eqb_spec (m_NullTerminatedPtr (sys_view s)) 0) as [E0|E0];
      cbn [mbind outcome_bind]; (eexists; split; [done|]);
      apply (inv_same_arrays s i Checked); try done.
    + intros x [[=]|(j & th & Hne' & Hj & Hh)]; by eapply (inv_handed _ _ _ Hinv).
    + by left.
    + intros x [[=]|(j & th & Hne' & Hj & Hh)]; by eapply (inv_handed _ _ _ Hinv).
    + by intros p [= <-].
    + by left.
  - (* allocation *)
    destruct (inv_fill s i a Hinv Hi (Hfresh eq_refl)) as (m' & Hf & Hinv').
    rewrite Hf. cbn [mbind outcome_bind]. eauto.
  - (* the exchange *)
    assert (Hc : holds s c). { right. by exists i, (Exchanging c). }
    destruct (inv_arrays _ _ _ Hinv c Hc) as [[Hc1 _] _ _ _ _].
    unfold c_str_exchange, compare_exchange_strong.
    destruct (N.eqb_spec (m_NullTerminatedPtr (sys_view s)) 0) as [E0|E0];
      (eexists; split; [done|]).
    + apply (inv_same_arrays s i (Exchanging c)); try done.
      * cbn [set_NullTerminatedPtr m_NullTerminatedPtr]. lia.
      * intros x. unfold installed. cbn [set_NullTerminatedPtr m_NullTerminatedPtr held].
        rewrite E0. split.
        -- intros [[_ ->]|[=]]. by right.
        -- intros [[H1 H2]|[= ->]]; [congruence|]. left. split; [lia|done].
      * cbn [set_NullTerminatedPtr m_NullTerminatedPtr].
        intros x [[=]|(j & th & Hne' & Hj & Hh)] <-.
        apply Hne'. by apply (inv_owner _ _ _ Hinv j i th (Exchanging c) c).
      * cbn [set_NullTerminatedPtr m_NullTerminatedPtr]. intros p [= <-]. split; [done|lia].
      * by right.
    + apply (inv_same_arrays s i (Exchanging c)); try done.
      * intros x [= <-] (j & th & Hne' & Hj & Hh).
        apply Hne'. by apply (inv_owner _ _ _ Hinv j i th (Exchanging c) c).
      * intros x [[= <-]|(j & th & Hne' & Hj & Hh)].
        -- by apply (inv_handed _ _ _ Hinv i (Exchanging c) c).
        -- by eapply (inv_handed _ _ _ Hinv).
      * by intros c' e' [= _ <-].
      * by left.
  - (* the array is released *)
    destruct (inv_release s i c e Hinv Hi) as (m' & Hf & Hinv').
    rewrite Hf. cbn [mbind outcome_bind]. eauto.
  - eauto.
  - eauto.
Qed.

Lemma inv_run (sched : list (nat * N)) :
  ∀ s, race_inv m0 v0 s → allocator_ok b nullChar sched s →
  ∃ s', run b nullChar sched s = Ok s' ∧ race_inv m0 v0 s'.
Proof.
  induction sched as [|[i a] rest IH]; intros s Hinv Hok; [by exists s|].
  destruct Hok as [Hfresh Hrest].
  destruct (inv_step s i a Hinv Hfresh) as (s1 & Hs1 & Hinv1).
  destruct (IH s1 Hinv1 (Hrest s1 Hs1)) as (s' & Hs' & Hinv').
  exists s'. split; [|done]. rewrite run_cons, Hs1. done.
Qed.

(** What the invariant says once every call has returned. *)
Lemma inv_all_returned (s : system) :
  race_inv m0 v0 s →
  (∃ i p, sys_threads s !! i = Some (Returned p)) →
  (∀ i th, sys_threads s !! i = Some th → ∃ p, th = Returned p) →
  let p := m_NullTerminatedPtr (sys_view s) in
  sys_view s = set_NullTerminatedPtr p v0 ∧ 1 < p ∧ blocks m0 !! p = None ∧
  blocks (sys_mem s) = <[p := m_Length v0 + 1]> (blocks m0) ∧
  wf_view (sys_mem s) (sys_view s) ∧
  dtor (sys_mem s) (sys_view s) = Ok m0.
Proof.
  intros Hinv (i0 & p0 & Hi0) Hall p. destruct race_known as [Hk Hr].
  destruct (inv_returned _ _ _ Hinv i0 p0 Hi0) as [Hp0 Hp0'].
  assert (Hp : holds s p). { left. split; [|done]. unfold p. congruence. }
  assert (Honly : ∀ x, holds s x → x = p).
  { intros x [[_ Hx]|(j & th & Hj & Hh)]; [done|].
    destruct (Hall j th Hj) as (q & ->). discriminate. }
  destruct (inv_arrays _ _ _ Hinv p Hp) as [[Hp1 Hp2] Hlive [Hnew Hnew'] Hcopy Hend].
  destruct (inv_view _ _ _ Hinv) as (Hlen & Hbeg & Ht1).
  assert (Hview : sys_view s = set_NullTerminatedPtr p v0).
  { unfold p. destruct (sys_view s) as [n1 b1 t1]. simpl in *. subst n1 b1. done. }
  assert (Hblocks : blocks (sys_mem s) = <[p := m_Length v0 + 1]> (blocks m0)).
  { apply map_eq. intros q. destruct (N.eq_dec q p) as [->|Hq].
    - by rewrite lookup_insert_eq.
    - rewrite lookup_insert_ne by done. apply (inv_blocks _ _ _ Hinv).
      intros Hx. by apply Honly in Hx. }
  split; [done|]. split; [done|]. split; [done|]. split; [done|]. split.
  - rewrite Hview. unfold wf_view.
    cbn [set_NullTerminatedPtr m_Length m_Begin m_NullTerminatedPtr].
    rewrite decide_False by lia. split; [done|]. split; [|split].
    + intros j Hj. destruct (Hr j Hj) as (c & Hc). exists c. by apply inv_old_load.
    + intros E. lia.
    + intros _. unfold owns_copy.
      cbn [set_NullTerminatedPtr m_Length m_Begin m_NullTerminatedPtr].
      split; [done|]. split; [|done].
      intros j Hj. destruct (Hr j Hj) as (c & Hc). exists c.
      split; [by rewrite Hcopy|by apply inv_old_load].
  - rewrite dtor_owning by done. fold p. unfold delete_array. rewrite Hlive. f_equal.
    apply memory_eq; cbn [cells blocks].
    + apply map_eq. intros q. rewrite unmap_cells_lookup, N2Nat.id. case_decide as Hq.
      * symmetry. specialize (Hnew' (q - p) ltac:(lia)).
        by replace (p + (q - p)) with q in Hnew' by lia.
      * apply (inv_cells _ _ _ Hinv). intros x Hx. apply Honly in Hx as ->. lia.
    + rewrite Hblocks. by apply delete_insert_id.
Qed.
End race.

(** Turn by turn the calls advance: a thread that got five turns has
    returned. *)
Lemma run_stage (b : build) (nullChar : N) (sched : list (nat * N)) :
  ∀ s s', run b nullChar sched s = Ok s' →
  List.length (sys_threads s') = List.length (sys_threads s) ∧
  ∀ j th, sys_threads s !! j = Some th →
    ∃ th', sys_threads s' !! j = Some th' ∧
           (Nat.min 5 (stage th + turns j sched) ≤ stage th')%nat.
Proof.
  induction sched as [|[i a] rest IH]; intros s s' H.
  - injection H as <-. split; [done|]. intros j th Hj. exists th. split; [done|]. cbn [turns]. lia.
  - rewrite run_cons in H. apply bind_Ok in H as (s1 & Hs1 & H).
    apply step_stage in Hs1 as [Hlen1 Hs1]. apply IH in H as [Hlen' H].
    split; [congruence|]. intros j th Hj.
    destruct (Hs1 j th Hj) as (th1 & Hj1 & Hother & Hself).
    destruct (H j th1 Hj1) as (th' & Hj' & Hst). exists th'. split; [done|].
    cbn [turns]. destruct (Nat.eqb_spec j i) as [->|Hne].
    + specialize (Hself eq_refl). lia.
    + rewrite (Hother Hne) in Hst. lia.
Qed.

Lemma stage_returned (th : thread) : (5 ≤ stage th)%nat → ∃ p, th = Returned p.
Proof. destruct th; simpl; try lia. eauto. Qed.

(** On an empty view every call returns the static terminator and nothing
    else happens. *)
Lemma run_empty_view (b : build) (nullChar : N) (m0 : memory) (v0 : str_view)
    (sched : list (nat * N)) :
  m_Length v0 = 0 →
  ∀ ths, (∀ i th, ths !! i = Some th → th = Entered ∨ th = Returned nullChar) →
  ∃ ths', run b nullChar sched (mk_system m0 v0 ths) = Ok (mk_system m0 v0 ths') ∧
          ∀ i th, ths' !! i = Some th → th = Entered ∨ th = Returned nullChar.
Proof.
  intros Hlen. induction sched as [|[i a] rest IH]; intros ths Hths; [by exists ths|].
  rewrite run_cons. unfold step. cbn [sys_threads sys_mem sys_view].
  destruct (ths !! i) as [th|] eqn:Hi.
  - destruct (Hths i th Hi) as [-> | ->].
    + assert (He : c_str_check b nullChar m0 v0 = Ok (Returned nullChar)).
      { unfold c_str_check, empty. by rewrite Hlen. }
      rewrite He. cbn [mbind outcome_bind]. apply IH.
      intros j th Hj. apply lookup_update in Hj as [[-> ->]|[_ Hj]]; [by right|by eapply Hths].
    + cbn [mbind outcome_bind]. by apply IH.
  - cbn [mbind outcome_bind]. by apply IH.
Qed.
(** C2.  Any number of calls of [c_str()] on one valid view that is not
    terminated, interleaved in any order at their atomic steps, with an
    allocator that hands out fresh storage: the run never faults -- no
    array is released twice -- and at every moment all calls that have
    returned have returned the same pointer, which has the terminator at
    offset [length()] and the code units of the view before it.  A call has
    returned after at most five turns.  Once all calls have returned, the
    view is valid; if it is not empty it holds the returned pointer, the
    winner's array, which is the one array that is live beyond those live
    at the start, every other array having been released by the call that
    allocated it; and the destructor of the view gives back the memory as
    it was at the start, so nothing is leaked however often this is
    repeated.  (On an empty view all calls return the static terminator
    and no array is allocated.) *)
Theorem c_str_concurrent (b : build) (nullChar : N) (m : memory) (v : str_view)
    (threads : nat) (sched : list (nat * N)) :
  wf_view m v → m_NullTerminatedPtr v = 0 → load m nullChar = Ok 0 →
  allocator_ok b nullChar sched (mk_system m v (replicate threads Entered)) →
  ∃ s,
    run b nullChar sched (mk_system m v (replicate threads Entered)) = Ok s ∧
    List.length (sys_threads s) = threads ∧
    (∀ i j p q, sys_threads s !! i = Some (Returned p) →
                sys_threads s !! j = Some (Returned q) → p = q) ∧
    (∀ i p, sys_threads s !! i = Some (Returned p) →
       load (sys_mem s) (p + m_Length v) = Ok 0 ∧
       ∀ k, k < m_Length v → load (sys_mem s) (p + k) = load m (m_Begin v + k)) ∧
    (∀ i, (i < threads)%nat → (5 ≤ turns i sched)%nat →
       ∃ p, sys_threads s !! i = Some (Returned p)) ∧
    ((0 < threads)%nat →
     (∀ i, (i < threads)%nat → ∃ p, sys_threads s !! i = Some (Returned p)) →
       wf_view (sys_mem s) (sys_view s) ∧
       dtor (sys_mem s) (sys_view s) = Ok m ∧
       (m_Length v = 0 → sys_mem s = m ∧ sys_view s = v) ∧
       (m_Length v ≠ 0 →
          ∃ p, sys_view s = set_NullTerminatedPtr p v ∧ 1 < p ∧
               blocks m !! p = None ∧
               blocks (sys_mem s) = <[p := m_Length v + 1]> (blocks m) ∧
               ∀ i, (i < threads)%nat → sys_threads s !! i = Some (Returned p))).
Proof.
  intros Hwf Ht Hnull Halloc.
  set (s0 := mk_system m v (replicate threads Entered)) in *.
  assert (Hprogress : ∀ s, run b nullChar sched s0 = Ok s →
            List.length (sys_threads s) = threads ∧
            ∀ i, (i < threads)%nat → (5 ≤ turns i sched)%nat →
                 ∃ p, sys_threads s !! i = Some (Returned p)).
  { intros s Hs. apply run_stage in Hs as [Hlen Hs]. split.
    - rewrite Hlen. unfold s0. cbn [sys_threads]. by rewrite length_replicate.
    - intros i Hi Hturns. destruct (Hs i Entered) as (th & Hth & Hst).
      + unfold s0. cbn [sys_threads]. by apply lookup_replicate_2.
      + destruct (stage_returned th) as (p & ->); [cbn [stage] in Hst; lia|]. eauto. }
  destruct (N.eq_dec (m_Length v) 0) as [Hlen|Hlen].
  - (* the empty view *)
    destruct (run_empty_view b nullChar m v sched Hlen (replicate threads Entered))
      as (ths & Hrun & Hths).
    { intros i th Hi. apply lookup_replicate in Hi as [-> _]. by left. }
    exists (mk_system m v ths). split; [done|].
    destruct (Hprogress _ Hrun) as [Hl Hp]. split; [done|].
    cbn [sys_threads sys_mem sys_view]. split; [|split; [|split]].
    + intros i j p q Hi Hj.
      destruct (Hths _ _ Hi) as [|Hp']; [done|]. destruct (Hths _ _ Hj) as [|Hq']; [done|].
      congruence.
    + intros i p Hi. destruct (Hths _ _ Hi) as [|[= ->]]; [done|].
      rewrite Hlen, N.add_0_r. split; [done|]. intros k Hk. lia.
    + done.
    + intros _ _. split; [done|]. split; [apply dtor_not_owning; lia|]. split; done.
  - (* the view that needs a copy *)
    destruct (inv_run b nullChar m v Hwf Ht Hlen sched s0) as (s & Hrun & Hinv);
      [apply inv_initial; done|done|].
    exists s. split; [done|].
    destruct (Hprogress _ Hrun) as [Hl Hp]. split; [done|]. split; [|split; [|split]].
    + intros i j p q Hi Hj.
      destruct (inv_returned _ _ _ Hinv i p Hi) as [-> _].
      by destruct (inv_returned _ _ _ Hinv j q Hj) as [-> _].
    + intros i p Hi. destruct (inv_returned _ _ _ Hinv i p Hi) as [Hp1 Hp0].
      assert (Hh : holds s p) by (left; by split).
      destruct (inv_arrays _ _ _ Hinv p Hh) as [_ _ _ Hcopy Hend]. done.
    + done.
    + intros Hpos Hall. destruct (Hall 0%nat Hpos) as (p0 & Hp0).
      destruct (inv_all_returned m v Hwf Ht Hlen s Hinv) as (Hview & Hp1 & Hnew & Hblocks & Hwf' & Hd).
      { eauto. }
      { intros i th Hi. destruct (Hall i) as (p & Hp').
        - rewrite <- Hl. by eapply lookup_lt_Some.
        - exists p. congruence. }
      split; [done|]. split; [done|]. split; [done|]. intros _.
      exists (m_NullTerminatedPtr (sys_view s)).
      split; [done|]. split; [done|]. split; [done|]. split; [done|].
      intros i Hi. destruct (Hall i Hi) as (p & Hp'). rewrite Hp'.
      by destruct (inv_returned _ _ _ Hinv i p Hp') as [-> _].
Qed.

Lemma c_str_concurrent_witness :
  ∃ s, run Debug nullChar_addr demo_schedule demo_race = Ok s ∧
       sys_threads s = replicate 3 (Returned 310) ∧
       sys_view s = mk_view 5 206 310 ∧
       load (sys_mem s) (310 + 5) = Ok 0 ∧
       blocks (sys_mem s) = <[310 := 6]> ∅ ∧
       dtor (sys_mem s) (sys_view s) = Ok demo_mem.
Proof.
  destruct demo_world_slice_valid as [Hwf _].
  destruct (c_str_concurrent Debug nullChar_addr demo_mem (mk_view 5 206 0) 3 demo_schedule Hwf)
    as (s & Hrun & _ & _ & Hterm & Hdone & Hend).
  - reflexivity.
  - reflexivity.
  - apply allocator_okb_sound. vm_compute. reflexivity.
  - assert (Hs : run Debug nullChar_addr demo_schedule demo_race
                 = Ok (mk_system demo_race_mem (mk_view 5 206 310) (replicate 3 (Returned 310)))).
    { vm_compute. reflexivity. }
    exists s. split; [exact Hrun|].
    assert (Heq : s = mk_system demo_race_mem (mk_view 5 206 310) (replicate 3 (Returned 310))).
    { unfold demo_race in Hs. rewrite Hrun in Hs. by injection Hs. }
    destruct Hend as (_ & Hd & _ & Hone); [lia| |].
    { intros i Hi. apply Hdone; [done|].
      assert (Hc : i = 0%nat ∨ i = 1%nat ∨ i = 2%nat) by lia.
      destruct Hc as [->|[->| ->]]; vm_compute; lia. }
    destruct (Hterm 0%nat 310) as [Ht _]; [by rewrite Heq|].
    destruct Hone as (p & Hv & _ & _ & Hb & _); [discriminate|].
    split; [by rewrite Heq|]. split; [by rewrite Heq|]. split; [exact Ht|].
    split; [|exact Hd].
    rewrite Hb. rewrite Heq in Hv. by injection Hv as <-.
Defined.
